(** * The in-memory job queue of [app/lib/utils/queue.js]

    A shallow embedding of the [JobQueue] class: the queue object, the job
    records it mutates in place, the timers and suspended [processJob]
    activations of the JavaScript runtime, and the structured log.  Every
    synchronous run of the program (a call of [add], a timer callback, the
    continuation of an awaited handler, a [cleanup] sweep) is one atomic
    step of the model, as it is on the single-threaded event loop.

    Conventions of the embedding:
    - JavaScript numbers that the queue computes with (priorities, delays,
      attempt ceilings, timestamps in milliseconds) are integers ([Z]);
      the attempt counter and the concurrency limit are counts ([nat]).
    - Job objects live in a store indexed by references ([ref]); the arrays
      of the queue, the timers and the closures hold references, so that a
      mutation through one alias is seen through every other.  References
      are handed out in enqueue order.
    - A thrown or rejected value is an object with a [message] and a
      [stack], as [Error] instances are. *)

From Stdlib Require Import ZArith List Lia Bool Sorted Ascii.
From stdpp Require Import base list gmap strings pretty sorting.

Local Open Scope string_scope.

(** ** Data model *)

Abbreviation ref := nat.

Inductive Status := Waiting | Processing | Completed | Failed.

#[global] Instance Status_eq_dec : EqDecision Status.
Proof. solve_decision. Defined.

Record Error := { message : string; stack : string }.

(** The job object built in [add] and mutated by [processJob].  Fields that
    do not exist until the runner sets them are [option]s ([None] is
    JavaScript's [undefined]). *)
Record Job := {
  job_id : string;
  job_type : string;
  job_data : string;
  job_status : Status;
  job_priority : Z;
  job_attempts : nat;
  job_maxAttempts : Z;
  job_delay : Z;
  job_createdAt : Z;
  job_startedAt : option Z;
  job_result : option string;
  job_completedAt : option Z;
  job_error : option string;
  job_errorStack : option string;
  job_failedAt : option Z
}.

(** The [options] argument of [add]: any own key of the object, typed as the
    job field of the same name.  [None] means the key is absent. *)
Record Options := {
  o_id : option string;
  o_type : option string;
  o_data : option string;
  o_status : option Status;
  o_priority : option Z;
  o_attempts : option nat;
  o_maxAttempts : option Z;
  o_delay : option Z;
  o_createdAt : option Z;
  o_startedAt : option Z;
  o_result : option string;
  o_completedAt : option Z;
  o_error : option string;
  o_errorStack : option string;
  o_failedAt : option Z
}.

(** [options = {}] *)
Definition noOptions : Options :=
  {| o_id := None; o_type := None; o_data := None; o_status := None;
     o_priority := None; o_attempts := None; o_maxAttempts := None;
     o_delay := None; o_createdAt := None; o_startedAt := None;
     o_result := None; o_completedAt := None; o_error := None;
     o_errorStack := None; o_failedAt := None |}.

(** What a call [handler(job.data, job)] does before control returns to
    [processJob]: it throws, or it returns a value or promise that the
    [await] suspends on. *)
Inductive HandlerCall := ThrowsSync (e : Error) | ReturnsPromise.

Abbreviation Handler := (string -> Job -> HandlerCall).

(** The calls of [logger.info] and [logger.error], newest first.  The queue
    name, job id and job type of an entry are those of the job referred
    to. *)
Inductive LogEntry :=
| JobAdded (r : ref) (priority : Z)
| JobStarted (r : ref) (attempt : nat)
| JobCompleted (r : ref) (duration : Z)
| JobAttemptFailed (r : ref) (attempt : nat) (msg : string)
| JobFailedPermanently (r : ref) (totalAttempts : nat)
| JobRetryScheduled (r : ref) (delay : Z) (nextAttempt : nat)
| CleanupCompleted (cleaned completedCount failedCount : nat).

(** The queue object ([name] to [handlers]) together with the part of the
    runtime it talks to: the job store, the pending [setTimeout] callbacks
    (job and delay), the [processJob] activations suspended at [await], and
    the log. *)
Record JobQueue := {
  name : string;
  concurrency : nat;
  jobs : list ref;
  processing : list ref;
  completed : list ref;
  failed : list ref;
  isProcessing : bool;
  handlers : gmap string Handler;
  heap : ref -> Job;
  nextRef : ref;
  timers : list (ref * Z);
  awaiting : list ref;
  log : list LogEntry
}.

(** *** Field updates *)

Definition set_status (s : Status) (j : Job) : Job :=
  {| job_id := job_id j; job_type := job_type j; job_data := job_data j;
     job_status := s; job_priority := job_priority j;
     job_attempts := job_attempts j; job_maxAttempts := job_maxAttempts j;
     job_delay := job_delay j; job_createdAt := job_createdAt j;
     job_startedAt := job_startedAt j; job_result := job_result j;
     job_completedAt := job_completedAt j; job_error := job_error j;
     job_errorStack := job_errorStack j; job_failedAt := job_failedAt j |}.

Definition set_attempts (n : nat) (j : Job) : Job :=
  {| job_id := job_id j; job_type := job_type j; job_data := job_data j;
     job_status := job_status j; job_priority := job_priority j;
     job_attempts := n; job_maxAttempts := job_maxAttempts j;
     job_delay := job_delay j; job_createdAt := job_createdAt j;
     job_startedAt := job_startedAt j; job_result := job_result j;
     job_completedAt := job_completedAt j; job_error := job_error j;
     job_errorStack := job_errorStack j; job_failedAt := job_failedAt j |}.

Definition set_delay (d : Z) (j : Job) : Job :=
  {| job_id := job_id j; job_type := job_type j; job_data := job_data j;
     job_status := job_status j; job_priority := job_priority j;
     job_attempts := job_attempts j; job_maxAttempts := job_maxAttempts j;
     job_delay := d; job_createdAt := job_createdAt j;
     job_startedAt := job_startedAt j; job_result := job_result j;
     job_completedAt := job_completedAt j; job_error := job_error j;
     job_errorStack := job_errorStack j; job_failedAt := job_failedAt j |}.

Definition set_startedAt (t : Z) (j : Job) : Job :=
  {| job_id := job_id j; job_type := job_type j; job_data := job_data j;
     job_status := job_status j; job_priority := job_priority j;
     job_attempts := job_attempts j; job_maxAttempts := job_maxAttempts j;
     job_delay := job_delay j; job_createdAt := job_createdAt j;
     job_startedAt := Some t; job_result := job_result j;
     job_completedAt := job_completedAt j; job_error := job_error j;
     job_errorStack := job_errorStack j; job_failedAt := job_failedAt j |}.

Definition set_result (v : string) (j : Job) : Job :=
  {| job_id := job_id j; job_type := job_type j; job_data := job_data j;
     job_status := job_status j; job_priority := job_priority j;
     job_attempts := job_attempts j; job_maxAttempts := job_maxAttempts j;
     job_delay := job_delay j; job_createdAt := job_createdAt j;
     job_startedAt := job_startedAt j; job_result := Some v;
     job_completedAt := job_completedAt j; job_error := job_error j;
     job_errorStack := job_errorStack j; job_failedAt := job_failedAt j |}.

Definition set_completedAt (t : Z) (j : Job) : Job :=
  {| job_id := job_id j; job_type := job_type j; job_data := job_data j;
     job_status := job_status j; job_priority := job_priority j;
     job_attempts := job_attempts j; job_maxAttempts := job_maxAttempts j;
     job_delay := job_delay j; job_createdAt := job_createdAt j;
     job_startedAt := job_startedAt j; job_result := job_result j;
     job_completedAt := Some t; job_error := job_error j;
     job_errorStack := job_errorStack j; job_failedAt := job_failedAt j |}.

Definition set_error (m : string) (j : Job) : Job :=
  {| job_id := job_id j; job_type := job_type j; job_data := job_data j;
     job_status := job_status j; job_priority := job_priority j;
     job_attempts := job_attempts j; job_maxAttempts := job_maxAttempts j;
     job_delay := job_delay j; job_createdAt := job_createdAt j;
     job_startedAt := job_startedAt j; job_result := job_result j;
     job_completedAt := job_completedAt j; job_error := Some m;
     job_errorStack := job_errorStack j; job_failedAt := job_failedAt j |}.

Definition set_errorStack (s : string) (j : Job) : Job :=
  {| job_id := job_id j; job_type := job_type j; job_data := job_data j;
     job_status := job_status j; job_priority := job_priority j;
     job_attempts := job_attempts j; job_maxAttempts := job_maxAttempts j;
     job_delay := job_delay j; job_createdAt := job_createdAt j;
     job_startedAt := job_startedAt j; job_result := job_result j;
     job_completedAt := job_completedAt j; job_error := job_error j;
     job_errorStack := Some s; job_failedAt := job_failedAt j |}.

Definition set_failedAt (t : Z) (j : Job) : Job :=
  {| job_id := job_id j; job_type := job_type j; job_data := job_data j;
     job_status := job_status j; job_priority := job_priority j;
     job_attempts := job_attempts j; job_maxAttempts := job_maxAttempts j;
     job_delay := job_delay j; job_createdAt := job_createdAt j;
     job_startedAt := job_startedAt j; job_result := job_result j;
     job_completedAt := job_completedAt j; job_error := job_error j;
     job_errorStack := job_errorStack j; job_failedAt := Some t |}.

Definition with_jobs (l : list ref) (q : JobQueue) : JobQueue :=
  {| name := name q; concurrency := concurrency q; jobs := l;
     processing := processing q; completed := completed q;
     failed := failed q; isProcessing := isProcessing q;
     handlers := handlers q; heap := heap q; nextRef := nextRef q;
     timers := timers q; awaiting := awaiting q; log := log q |}.

Definition with_processing (l : list ref) (q : JobQueue) : JobQueue :=
  {| name := name q; concurrency := concurrency q; jobs := jobs q;
     processing := l; completed := completed q;
     failed := failed q; isProcessing := isProcessing q;
     handlers := handlers q; heap := heap q; nextRef := nextRef q;
     timers := timers q; awaiting := awaiting q; log := log q |}.

Definition with_completed (l : list ref) (q : JobQueue) : JobQueue :=
  {| name := name q; concurrency := concurrency q; jobs := jobs q;
     processing := processing q; completed := l;
     failed := failed q; isProcessing := isProcessing q;
     handlers := handlers q; heap := heap q; nextRef := nextRef q;
     timers := timers q; awaiting := awaiting q; log := log q |}.

Definition with_failed (l : list ref) (q : JobQueue) : JobQueue :=
  {| name := name q; concurrency := concurrency q; jobs := jobs q;
     processing := processing q; completed := completed q;
     failed := l; isProcessing := isProcessing q;
     handlers := handlers q; heap := heap q; nextRef := nextRef q;
     timers := timers q; awaiting := awaiting q; log := log q |}.

Definition with_isProcessing (b : bool) (q : JobQueue) : JobQueue :=
  {| name := name q; concurrency := concurrency q; jobs := jobs q;
     processing := processing q; completed := completed q;
     failed := failed q; isProcessing := b;
     handlers := handlers q; heap := heap q; nextRef := nextRef q;
     timers := timers q; awaiting := awaiting q; log := log q |}.

Definition with_handlers (m : gmap string Handler) (q : JobQueue) : JobQueue :=
  {| name := name q; concurrency := concurrency q; jobs := jobs q;
     processing := processing q; completed := completed q;
     failed := failed q; isProcessing := isProcessing q;
     handlers := m; heap := heap q; nextRef := nextRef q;
     timers := timers q; awaiting := awaiting q; log := log q |}.

Definition with_heap (h : ref -> Job) (q : JobQueue) : JobQueue :=
  {| name := name q; concurrency := concurrency q; jobs := jobs q;
     processing := processing q; completed := completed q;
     failed := failed q; isProcessing := isProcessing q;
     handlers := handlers q; heap := h; nextRef := nextRef q;
     timers := timers q; awaiting := awaiting q; log := log q |}.

Definition with_nextRef (n : ref) (q : JobQueue) : JobQueue :=
  {| name := name q; concurrency := concurrency q; jobs := jobs q;
     processing := processing q; completed := completed q;
     failed := failed q; isProcessing := isProcessing q;
     handlers := handlers q; heap := heap q; nextRef := n;
     timers := timers q; awaiting := awaiting q; log := log q |}.

Definition with_timers (l : list (ref * Z)) (q : JobQueue) : JobQueue :=
  {| name := name q; concurrency := concurrency q; jobs := jobs q;
     processing := processing q; completed := completed q;
     failed := failed q; isProcessing := isProcessing q;
     handlers := handlers q; heap := heap q; nextRef := nextRef q;
     timers := l; awaiting := awaiting q; log := log q |}.

Definition with_awaiting (l : list ref) (q : JobQueue) : JobQueue :=
  {| name := name q; concurrency := concurrency q; jobs := jobs q;
     processing := processing q; completed := completed q;
     failed := failed q; isProcessing := isProcessing q;
     handlers := handlers q; heap := heap q; nextRef := nextRef q;
     timers := timers q; awaiting := l; log := log q |}.

Definition with_log (l : list LogEntry) (q : JobQueue) : JobQueue :=
  {| name := name q; concurrency := concurrency q; jobs := jobs q;
     processing := processing q; completed := completed q;
     failed := failed q; isProcessing := isProcessing q;
     handlers := handlers q; heap := heap q; nextRef := nextRef q;
     timers := timers q; awaiting := awaiting q; log := l |}.

(** [logger.info(...)] / [logger.error(...)] *)
Definition logEvent (e : LogEntry) (q : JobQueue) : JobQueue :=
  with_log (e :: log q) q.

(** The store with the object at [r] replaced by [f] of it. *)
Definition upd (r : ref) (f : Job -> Job) (h : ref -> Job) : ref -> Job :=
  fun r' => if Nat.eqb r' r then f (h r') else h r'.

(** An in-place mutation of the job object [r]. *)
Definition mutate (r : ref) (f : Job -> Job) (q : JobQueue) : JobQueue :=
  with_heap (upd r f (heap q)) q.

(** ** Results of running code *)

(** A piece of code returns, throws, or (in the model only) exhausts the
    iteration budget given to its loop. *)
Inductive Outcome (A : Type) :=
| Returned (a : A)
| Threw (e : Error)
| OutOfFuel.
Arguments Returned {A} a.
Arguments Threw {A} e.
Arguments OutOfFuel {A}.

#[global] Instance Outcome_ret : MRet Outcome := fun A a => Returned a.
#[global] Instance Outcome_bind : MBind Outcome := fun A B f m =>
  match m with
  | Returned a => f a
  | Threw e => Threw e
  | OutOfFuel => OutOfFuel
  end.

(** [try { body } catch (error) { handler }] *)
Definition tryCatch {A} (body : Outcome A) (handler : Error -> Outcome A)
  : Outcome A :=
  match body with
  | Threw e => handler e
  | o => o
  end.

(** ** The queue's operations *)

(** [new JobQueue(name, concurrency)] *)
Definition emptyJob : Job :=
  {| job_id := ""; job_type := ""; job_data := ""; job_status := Waiting;
     job_priority := 0; job_attempts := 0; job_maxAttempts := 0;
     job_delay := 0; job_createdAt := 0; job_startedAt := None;
     job_result := None; job_completedAt := None; job_error := None;
     job_errorStack := None; job_failedAt := None |}.

Definition newQueue (queueName : string) (limit : nat) : JobQueue :=
  {| name := queueName; concurrency := limit; jobs := []; processing := [];
     completed := []; failed := []; isProcessing := false; handlers := ∅;
     heap := fun _ => emptyJob; nextRef := 0; timers := []; awaiting := [];
     log := [] |}.

(** [process(jobType, handler)]: [this.handlers.set(jobType, handler)] *)
Definition process (jobType : string) (handler : Handler) (q : JobQueue)
  : JobQueue :=
  with_handlers (<[jobType := handler]> (handlers q)) q.

(** [generateJobId()], from the clock reading and the random suffix. *)
Definition generateJobId (q : JobQueue) (now : Z) (rnd : string) : string :=
  name q +:+ "_" +:+ pretty now +:+ "_" +:+ rnd.

(** [x || d] on a numeric option key: the default replaces an absent key
    and a zero. *)
Definition orDefault (x : option Z) (d : Z) : Z :=
  match x with
  | Some v => if (v =? 0)%Z then d else v
  | None => d
  end.

(** [{ ...job, ...options }]: every key present in [options] replaces the
    field of the same name. *)
Definition keyOr {A} (x : option A) (d : option A) : option A :=
  match x with Some v => Some v | None => d end.

Definition spread (o : Options) (j : Job) : Job :=
  {| job_id := default (job_id j) (o_id o);
     job_type := default (job_type j) (o_type o);
     job_data := default (job_data j) (o_data o);
     job_status := default (job_status j) (o_status o);
     job_priority := default (job_priority j) (o_priority o);
     job_attempts := default (job_attempts j) (o_attempts o);
     job_maxAttempts := default (job_maxAttempts j) (o_maxAttempts o);
     job_delay := default (job_delay j) (o_delay o);
     job_createdAt := default (job_createdAt j) (o_createdAt o);
     job_startedAt := keyOr (o_startedAt o) (job_startedAt j);
     job_result := keyOr (o_result o) (job_result j);
     job_completedAt := keyOr (o_completedAt o) (job_completedAt j);
     job_error := keyOr (o_error o) (job_error j);
     job_errorStack := keyOr (o_errorStack o) (job_errorStack j);
     job_failedAt := keyOr (o_failedAt o) (job_failedAt j) |}.

(** The object literal of [add], lines 28 to 39. *)
Definition newJob (q : JobQueue) (now : Z) (rnd : string)
    (jobType data : string) (o : Options) : Job :=
  spread o
    {| job_id := generateJobId q now rnd;
       job_type := jobType;
       job_data := data;
       job_status := Waiting;
       job_priority := orDefault (o_priority o) 0;
       job_attempts := 0;
       job_maxAttempts := orDefault (o_maxAttempts o) 3;
       job_delay := orDefault (o_delay o) 0;
       job_createdAt := now;
       job_startedAt := None; job_result := None; job_completedAt := None;
       job_error := None; job_errorStack := None; job_failedAt := None |}.

(** [this.jobs.sort((a, b) => b.priority - a.priority)]: the stable sort by
    descending priority ([Array.prototype.sort] is stable), as an insertion
    sort from the right. *)
Fixpoint insertJob (h : ref -> Job) (x : ref) (l : list ref) : list ref :=
  match l with
  | [] => [x]
  | y :: l' =>
      if (job_priority (h y) <=? job_priority (h x))%Z then x :: l
      else y :: insertJob h x l'
  end.

Definition sortJobs (h : ref -> Job) (l : list ref) : list ref :=
  foldr (insertJob h) [] l.

(** Lines 28 to 49 of [add]: build the job, push it, sort, log. *)
Definition enqueue (now : Z) (rnd jobType data : string) (o : Options)
    (q : JobQueue) : JobQueue :=
  let r := nextRef q in
  let job := newJob q now rnd jobType data o in
  let q1 := with_nextRef (S r) (with_heap (upd r (fun _ => job) (heap q)) q) in
  let q2 := with_jobs (jobs q1 ++ [r]) q1 in
  let q3 := with_jobs (sortJobs (heap q2) (jobs q2)) q2 in
  logEvent (JobAdded r (job_priority job)) q3.

(** The assignments to the fields of a job, as functions on the object:
    lines 83 and 84; 101 to 103; 116 to 118; 129 and 130; 143 and 144;
    and line 67. *)
Definition jobStart (now : Z) (j : Job) : Job :=
  set_startedAt now (set_status Processing j).

Definition jobSucceed (now : Z) (res : string) (j : Job) : Job :=
  set_completedAt now (set_result res (set_status Completed j)).

Definition jobCaught (e : Error) (j : Job) : Job :=
  set_errorStack (stack e)
    (set_error (message e) (set_attempts (S (job_attempts j)) j)).

Definition jobFail (now : Z) (j : Job) : Job :=
  set_failedAt now (set_status Failed j).

(** [Math.pow(2, job.attempts) * 1000] *)
Definition backoff (attempts : nat) : Z := (2 ^ Z.of_nat attempts * 1000)%Z.

Definition jobRetry (j : Job) : Job :=
  set_status Waiting (set_delay (backoff (job_attempts j)) j).

Definition jobTimerFired (j : Job) : Job := set_delay 0 j.

(** [this.processing = this.processing.filter(j => j.id !== job.id)] *)
Definition dropFromProcessing (r : ref) (q : JobQueue) : JobQueue :=
  with_processing
    (filter (fun r' => job_id (heap q r') ≠ job_id (heap q r)) (processing q))
    q.

(** [new Error(msg)]; of the stack only its first line is kept. *)
Definition newError (msg : string) : Error :=
  {| message := msg; stack := "Error: " +:+ msg |}.

(** Lines 94 to 99 up to the [await]: look the handler up and call it. *)
Definition callHandler (r : ref) (q : JobQueue) : Outcome unit :=
  let job := heap q r in
  match handlers q !! job_type job with
  | None =>
      Threw (newError ("No handler registered for job type: " +:+ job_type job))
  | Some handler =>
      match handler (job_data job) job with
      | ThrowsSync e => Threw e
      | ReturnsPromise => Returned ()
      end
  end.

(** Lines 101 to 113: the rest of the [try] block once the handler's promise
    is fulfilled with [res]. *)
Definition successBlock (now : Z) (res : string) (r : ref) (q : JobQueue)
  : JobQueue :=
  let q1 := mutate r (jobSucceed now res) q in
  let q2 := dropFromProcessing r q1 in
  let q3 := with_completed (completed q2 ++ [r]) q2 in
  logEvent (JobCompleted r (now - default now (job_startedAt (heap q3 r)))) q3.

(** Lines 116 to 156: the [catch] block. *)
Definition catchBlock (now : Z) (e : Error) (r : ref) (q : JobQueue)
  : JobQueue :=
  let q1 := mutate r (jobCaught e) q in
  let q2 :=
    logEvent (JobAttemptFailed r (job_attempts (heap q1 r)) (message e)) q1 in
  if (job_maxAttempts (heap q2 r) <=? Z.of_nat (job_attempts (heap q2 r)))%Z
  then
    let q3 := mutate r (jobFail now) q2 in
    let q4 := dropFromProcessing r q3 in
    let q5 := with_failed (failed q4 ++ [r]) q4 in
    logEvent (JobFailedPermanently r (job_attempts (heap q5 r))) q5
  else
    let q3 := mutate r jobRetry q2 in
    let q4 := dropFromProcessing r q3 in
    let q5 := with_jobs (r :: jobs q4) q4 in
    logEvent
      (JobRetryScheduled r (job_delay (heap q5 r)) (job_attempts (heap q5 r) + 1))
      q5.

(** Lines 82 to 91 of [processJob]: the job joins [processing]. *)
Definition beginJob (now : Z) (r : ref) (q : JobQueue) : JobQueue :=
  let q1 := with_processing (processing q ++ [r]) q in
  let q2 := mutate r (jobStart now) q1 in
  logEvent (JobStarted r (job_attempts (heap q2 r) + 1)) q2.

(** [processJob(job)] up to the point where it returns to its caller: either
    it is suspended at the [await] (the job joins [awaiting]), or the [try]
    block threw before that and the [catch] block and the final
    [this.startProcessing()] (here [self]) have run. *)
Definition processJob (self : JobQueue -> Outcome JobQueue) (now : Z)
    (r : ref) (q : JobQueue) : Outcome JobQueue :=
  let q1 := beginJob now r q in
  tryCatch
    (callHandler r q1 ≫= fun _ =>
       Returned (true, with_awaiting (awaiting q1 ++ [r]) q1))
    (fun e => Returned (false, catchBlock now e r q1))
  ≫= fun st : bool * JobQueue =>
       if fst st then Returned (snd st) else self (snd st).

(** [setTimeout(() => {...}, job.delay)] *)
Definition setTimeout (r : ref) (d : Z) (q : JobQueue) : JobQueue :=
  with_timers (timers q ++ [(r, d)]) q.

(** The body of the [while] loop for the job [r] just shifted off the
    array, lines 64 to 74. *)
Definition loopBody (self : JobQueue -> Outcome JobQueue) (now : Z)
    (r : ref) (q : JobQueue) : Outcome JobQueue :=
  if (0 <? job_delay (heap q r))%Z
  then Returned (setTimeout r (job_delay (heap q r)) q)
  else processJob self now r q.

(** The [while] loop of [startProcessing], lines 61 to 75; [fuel] bounds the
    number of iterations. *)
Fixpoint whileLoop (self : JobQueue -> Outcome JobQueue) (now : Z)
    (fuel : nat) (q : JobQueue) : Outcome JobQueue :=
  match fuel with
  | O => OutOfFuel
  | S fuel' =>
      match jobs q with
      | [] => Returned q
      | r :: rest =>
          if (length (processing q) <? concurrency q)%nat then
            q2 ← loopBody self now r (with_jobs rest q);
            whileLoop self now fuel' q2
          else Returned q
      end
  end.

(** Iterations that always suffice: a job taken from the array either leaves
    it, or comes back with a positive delay and leaves it the next time. *)
Definition loopFuel (q : JobQueue) : nat := 2 * length (jobs q) + 1.

(** [startProcessing()].  [depth] bounds the nesting of calls: the call made
    at the end of a [processJob] that did not suspend finds [isProcessing]
    set and returns at once. *)
Fixpoint startProcessing (depth : nat) (now : Z) (q : JobQueue)
  : Outcome JobQueue :=
  match depth with
  | O => OutOfFuel
  | S depth' =>
      if isProcessing q then Returned q
      else
        q1 ← whileLoop (startProcessing depth' now) now (loopFuel q)
               (with_isProcessing true q);
        Returned (with_isProcessing false q1)
  end.

Definition callDepth : nat := 2.

(** [add(jobType, data, options)]: the state on return and the job
    returned. *)
Definition add (now : Z) (rnd jobType data : string) (o : Options)
    (q : JobQueue) : Outcome (JobQueue * ref) :=
  let r := nextRef q in
  q' ← startProcessing callDepth now (enqueue now rnd jobType data o q);
  Returned (q', r).

(** The timer at position [i] has fired: lines 67 and 68 of its callback. *)
Definition reinsert (i : nat) (r : ref) (q : JobQueue) : JobQueue :=
  let q1 := with_timers (delete i (timers q)) q in
  let q2 := mutate r jobTimerFired q1 in
  with_jobs (r :: jobs q2) q2.

(** The callback of the timer at position [i], lines 67 to 69. *)
Definition timerCallback (now : Z) (i : nat) (r : ref) (q : JobQueue)
  : Outcome JobQueue :=
  startProcessing callDepth now (reinsert i r q).

(** The activation at position [i] of [awaiting] is resumed. *)
Definition resumed (i : nat) (q : JobQueue) : JobQueue :=
  with_awaiting (delete i (awaiting q)) q.

(** [processJob] resumed with the handler's promise fulfilled: the rest of
    the [try] block, then line 160. *)
Definition resumeFulfilled (now : Z) (i : nat) (res : string) (r : ref)
    (q : JobQueue) : Outcome JobQueue :=
  q2 ← tryCatch (Returned (successBlock now res r (resumed i q)))
         (fun e => Returned (catchBlock now e r (resumed i q)));
  startProcessing callDepth now q2.

(** [processJob] resumed with the handler's promise rejected: the [await]
    throws, the [catch] block runs, then line 160. *)
Definition resumeRejected (now : Z) (i : nat) (e : Error) (r : ref)
    (q : JobQueue) : Outcome JobQueue :=
  q2 ← tryCatch (Threw e) (fun e' => Returned (catchBlock now e' r (resumed i q)));
  startProcessing callDepth now q2.

(** [getStats()] *)
Record Stats := {
  stats_name : string;
  stats_waiting : nat;
  stats_processing : nat;
  stats_completed : nat;
  stats_failed : nat;
  stats_concurrency : nat
}.

Definition getStats (q : JobQueue) : Stats :=
  {| stats_name := name q;
     stats_waiting := length (jobs q);
     stats_processing := length (processing q);
     stats_completed := length (completed q);
     stats_failed := length (failed q);
     stats_concurrency := concurrency q |}.

(** [getJob(jobId)] *)
Definition getJob (jobId : string) (q : JobQueue) : option ref :=
  List.find (fun r => bool_decide (job_id (heap q r) = jobId))
    (jobs q ++ processing q ++ completed q ++ failed q).

(** [date < cutoff] and [date >= cutoff] where [date] may be [undefined]:
    both are false then. *)
Definition dateBefore (cutoff : Z) (d : option Z) : Prop :=
  match d with Some t => (t < cutoff)%Z | None => False end.

Definition dateNotBefore (cutoff : Z) (d : option Z) : Prop :=
  match d with Some t => (cutoff <= t)%Z | None => False end.

#[global] Instance dateBefore_dec c d : Decision (dateBefore c d).
Proof. destruct d; simpl; apply _. Defined.

#[global] Instance dateNotBefore_dec c d : Decision (dateNotBefore c d).
Proof. destruct d; simpl; apply _. Defined.

(** [cleanup(maxAge)]: the state afterwards and the number returned. *)
Definition cleanup (now maxAge : Z) (q : JobQueue) : JobQueue * nat :=
  let cutoff := (now - maxAge)%Z in
  let oldCompleted :=
    filter (fun r => dateBefore cutoff (job_completedAt (heap q r))) (completed q) in
  let oldFailed :=
    filter (fun r => dateBefore cutoff (job_failedAt (heap q r))) (failed q) in
  let q1 :=
    with_completed
      (filter (fun r => dateNotBefore cutoff (job_completedAt (heap q r))) (completed q)) q in
  let q2 :=
    with_failed
      (filter (fun r => dateNotBefore cutoff (job_failedAt (heap q r))) (failed q1)) q1 in
  let cleaned := length oldCompleted + length oldFailed in
  (if (0 <? cleaned)%nat
   then logEvent (CleanupCompleted cleaned (length oldCompleted) (length oldFailed)) q2
   else q2,
   cleaned).

(** ** The event loop *)

(** What can happen to a queue: a call of [process], [add] or [cleanup] by
    the application, the firing of the timer at position [i] of [timers],
    and the settling of the handler promise that the activation at position
    [i] of [awaiting] waits for.  [now] is the clock reading of the run and
    [rnd] the random suffix drawn by [generateJobId]. *)
Inductive Event :=
| EvProcess (jobType : string) (handler : Handler)
| EvAdd (now : Z) (rnd jobType data : string) (o : Options)
| EvTimer (now : Z) (i : nat)
| EvFulfil (now : Z) (i : nat) (res : string)
| EvReject (now : Z) (i : nat) (e : Error)
| EvCleanup (now maxAge : Z).

(** The run an event triggers; [None] when the event cannot happen in this
    state (no such timer or suspended activation). *)
Definition exec (ev : Event) (q : JobQueue) : option (Outcome JobQueue) :=
  match ev with
  | EvProcess jobType handler => Some (Returned (process jobType handler q))
  | EvAdd now rnd jobType data o =>
      Some (add now rnd jobType data o q ≫= fun res => Returned (fst res))
  | EvTimer now i =>
      match timers q !! i with
      | Some (r, _) => Some (timerCallback now i r q)
      | None => None
      end
  | EvFulfil now i res =>
      match awaiting q !! i with
      | Some r => Some (resumeFulfilled now i res r q)
      | None => None
      end
  | EvReject now i e =>
      match awaiting q !! i with
      | Some r => Some (resumeRejected now i e r q)
      | None => None
      end
  | EvCleanup now maxAge => Some (Returned (cleanup now maxAge q).1)
  end.

Definition step (q : JobQueue) (ev : Event) (q' : JobQueue) : Prop :=
  exec ev q = Some (Returned q').


(** ** The scheduler seen from inside its loop *)

(** The state in which [processJob] hands control back to the loop. *)
Definition afterProcessJob (now : Z) (r : ref) (q : JobQueue) : JobQueue :=
  let q1 := beginJob now r q in
  match callHandler r q1 with
  | Threw e => catchBlock now e r q1
  | _ => with_awaiting (awaiting q1 ++ [r]) q1
  end.

(** The state after one iteration of the loop on the job [r]. *)
Definition afterLoopBody (now : Z) (r : ref) (q : JobQueue) : JobQueue :=
  if (0 <? job_delay (heap q r))%Z
  then setTimeout r (job_delay (heap q r)) q
  else afterProcessJob now r q.

(** What a job in the waiting array still costs the loop: two iterations if
    it may come back after a failed attempt, one if it will be deferred. *)
Fixpoint weight (h : ref -> Job) (l : list ref) : nat :=
  match l with
  | [] => 0
  | r :: l' => (if (0 <? job_delay (h r))%Z then 1 else 2) + weight h l'
  end.

(** ** Reachable states *)

(** The states a queue can be in between two runs, starting from [q0], when
    only events satisfying [allowed] happen. *)
Inductive reachFrom (allowed : JobQueue -> Event -> Prop) (q0 : JobQueue)
  : JobQueue -> Prop :=
| reachFrom_refl : reachFrom allowed q0 q0
| reachFrom_step q ev q' :
    reachFrom allowed q0 q -> allowed q ev -> step q ev q' ->
    reachFrom allowed q0 q'.

(** The states of a queue created by [new JobQueue(queueName, limit)]. *)
Definition reach (allowed : JobQueue -> Event -> Prop) (q : JobQueue) : Prop :=
  exists queueName limit, reachFrom allowed (newQueue queueName limit) q.

Definition anyEvent : JobQueue -> Event -> Prop := fun _ _ => True.

Definition reachable : JobQueue -> Prop := reach anyEvent.

(** *** Restrictions on the calls of [add] *)

(** The id of the new job differs from the id of every job created
    before. *)
Definition freshId (q : JobQueue) (ev : Event) : Prop :=
  match ev with
  | EvAdd now rnd jobType data o =>
      Forall
        (fun r => job_id (heap q r) ≠ job_id (newJob q now rnd jobType data o))
        (seq 0 (nextRef q))
  | _ => True
  end.

(** [options] has no [status] key. *)
Definition keepsStatus (q : JobQueue) (ev : Event) : Prop :=
  match ev with
  | EvAdd _ _ _ _ o => o_status o = None
  | _ => True
  end.

(** [options] has no [attempts] key. *)
Definition keepsAttempts (q : JobQueue) (ev : Event) : Prop :=
  match ev with
  | EvAdd _ _ _ _ o => o_attempts o = None
  | _ => True
  end.


(** ** Observations used in the statements *)

(** Where the queue or the runtime holds a reference to a job. *)
Definition live (q : JobQueue) : list ref :=
  jobs q ++ (timers q).*1 ++ awaiting q ++ completed q ++ failed q.

(** The scheduler has nothing left to admit. *)
Definition quiescent (q : JobQueue) : Prop :=
  jobs q = [] ∨ concurrency q <= length (processing q).

(** Counting log entries. *)
Definition isStarted (r : ref) (e : LogEntry) : bool :=
  match e with JobStarted r' _ => bool_decide (r' = r) | _ => false end.

Definition isAttemptFailed (r : ref) (e : LogEntry) : bool :=
  match e with JobAttemptFailed r' _ _ => bool_decide (r' = r) | _ => false end.

Definition isCompleted (r : ref) (e : LogEntry) : bool :=
  match e with JobCompleted r' _ => bool_decide (r' = r) | _ => false end.

Definition isFailedPermanently (r : ref) (e : LogEntry) : bool :=
  match e with JobFailedPermanently r' _ => bool_decide (r' = r) | _ => false end.

Definition countLog (p : LogEntry -> bool) (l : list LogEntry) : nat :=
  length (List.filter p l).

(** How often the handler of job [r] has been invoked, has failed, has
    succeeded. *)
Definition invocations (r : ref) (q : JobQueue) : nat :=
  countLog (isStarted r) (log q).

Definition failures (r : ref) (q : JobQueue) : nat :=
  countLog (isAttemptFailed r) (log q).

Definition successes (r : ref) (q : JobQueue) : nat :=
  countLog (isCompleted r) (log q).

(** The job a log entry is about. *)
Definition entryRef (e : LogEntry) : option ref :=
  match e with
  | JobAdded r _ | JobStarted r _ | JobCompleted r _ | JobAttemptFailed r _ _
  | JobFailedPermanently r _ | JobRetryScheduled r _ _ => Some r
  | CleanupCompleted _ _ _ => None
  end.

(** The jobs started, oldest first. *)
Definition startedRef (e : LogEntry) : option ref :=
  match e with JobStarted r _ => Some r | _ => None end.

Definition startOrder (q : JobQueue) : list ref :=
  rev (omap startedRef (log q)).



(** ** The life of one job *)

(** Where a job is held: in the waiting array, by a pending timer set with
    delay [d], by a [processJob] activation awaiting the handler, in the
    completed array, in the failed array; or nowhere any more, once
    [cleanup] has removed it. *)
Inductive Place :=
| InJobs | OnTimer (d : Z) | InHandler | InCompleted | InFailed | Removed.

#[global] Instance Place_eq_dec : EqDecision Place.
Proof. solve_decision. Defined.

Definition located (q : JobQueue) (r : ref) (p : Place) : Prop :=
  match p with
  | InJobs => r ∈ jobs q
  | OnTimer d => (r, d) ∈ timers q
  | InHandler => r ∈ awaiting q
  | InCompleted => r ∈ completed q
  | InFailed => r ∈ failed q
  | Removed => r < nextRef q ∧ r ∉ live q
  end.

(** What is known of a job: its fields and what the log says of it. *)
Record View := {
  v_job : Job;
  v_invocations : nat;
  v_failures : nat;
  v_successes : nat
}.

Definition view (q : JobQueue) (r : ref) : View :=
  {| v_job := heap q r;
     v_invocations := invocations r q;
     v_failures := failures r q;
     v_successes := successes r q |}.

(** The moves the queue makes with a job: deferral by the loop, the timer
    firing, an invocation that suspends, fails for good or is to be
    retried before the handler has returned, the handler's promise
    settling, and the removal of a finished job by [cleanup]. *)
Inductive jobStep : Place * View -> Place * View -> Prop :=
| js_defer (j : Job) (i f s : nat) :
    (0 < job_delay j)%Z ->
    jobStep (InJobs, Build_View j i f s) (OnTimer (job_delay j), Build_View j i f s)
| js_fire (d : Z) (j : Job) (i f s : nat) :
    jobStep (OnTimer d, Build_View j i f s)
            (InJobs, Build_View (jobTimerFired j) i f s)
| js_suspend (now : Z) (j : Job) (i f s : nat) :
    (job_delay j <= 0)%Z ->
    jobStep (InJobs, Build_View j i f s)
            (InHandler, Build_View (jobStart now j) (S i) f s)
| js_throw_fail (now : Z) (e : Error) (j : Job) (i f s : nat) :
    (job_delay j <= 0)%Z ->
    (job_maxAttempts j <= Z.of_nat (S (job_attempts j)))%Z ->
    jobStep (InJobs, Build_View j i f s)
            (InFailed,
             Build_View (jobFail now (jobCaught e (jobStart now j))) (S i) (S f) s)
| js_throw_retry (now : Z) (e : Error) (j : Job) (i f s : nat) :
    (job_delay j <= 0)%Z ->
    (Z.of_nat (S (job_attempts j)) < job_maxAttempts j)%Z ->
    jobStep (InJobs, Build_View j i f s)
            (InJobs,
             Build_View (jobRetry (jobCaught e (jobStart now j))) (S i) (S f) s)
| js_fulfil (now : Z) (res : string) (j : Job) (i f s : nat) :
    jobStep (InHandler, Build_View j i f s)
            (InCompleted, Build_View (jobSucceed now res j) i f (S s))
| js_reject_fail (now : Z) (e : Error) (j : Job) (i f s : nat) :
    (job_maxAttempts j <= Z.of_nat (S (job_attempts j)))%Z ->
    jobStep (InHandler, Build_View j i f s)
            (InFailed, Build_View (jobFail now (jobCaught e j)) i (S f) s)
| js_reject_retry (now : Z) (e : Error) (j : Job) (i f s : nat) :
    (Z.of_nat (S (job_attempts j)) < job_maxAttempts j)%Z ->
    jobStep (InHandler, Build_View j i f s)
            (InJobs, Build_View (jobRetry (jobCaught e j)) i (S f) s)
| js_sweep_completed (v : View) : jobStep (InCompleted, v) (Removed, v)
| js_sweep_failed (v : View) : jobStep (InFailed, v) (Removed, v).

(** ** Well-formed states *)

Record wellFormed (q : JobQueue) : Prop := {
  wf_nodup : NoDup (live q);
  wf_alloc : forall r, r ∈ live q -> r < nextRef q;
  wf_slots : forall r, r ∈ processing q -> r ∈ awaiting q;
  wf_slots_nodup : NoDup (processing q);
  wf_bound : length (processing q) <= concurrency q;
  wf_log : forall e r, e ∈ log q -> entryRef e = Some r -> r < nextRef q
}.

(** A property of jobs and their places that holds of every job the queue
    holds. *)
Definition jobsSatisfy (Φ : Place -> View -> Prop) (q : JobQueue) : Prop :=
  forall r p, located q r p -> Φ p (view q r).

(** ** The queues of the module, and runs used as examples *)

(** An [async] handler: the call returns a promise without throwing. *)
Definition asyncHandler : Handler := fun _ _ => ReturnsPromise.

(** Lines 215 to 300: the four queues with their handlers registered. *)
Definition storyQueue : JobQueue :=
  process "generate_story" asyncHandler (newQueue "story_generation" 2).

Definition imageQueue : JobQueue :=
  process "generate_image" asyncHandler (newQueue "image_generation" 3).

Definition audioQueue : JobQueue :=
  process "generate_audio" asyncHandler (newQueue "audio_generation" 2).

Definition emailQueue : JobQueue :=
  process "send_email" asyncHandler (newQueue "email_notifications" 5).

(** [options] objects with a single key. *)
Definition withId (i : string) : Options :=
  {| o_id := Some i; o_type := None; o_data := None; o_status := None;
     o_priority := None; o_attempts := None; o_maxAttempts := None;
     o_delay := None; o_createdAt := None; o_startedAt := None;
     o_result := None; o_completedAt := None; o_error := None;
     o_errorStack := None; o_failedAt := None |}.

Definition withPriority (p : Z) : Options :=
  {| o_id := None; o_type := None; o_data := None; o_status := None;
     o_priority := Some p; o_attempts := None; o_maxAttempts := None;
     o_delay := None; o_createdAt := None; o_startedAt := None;
     o_result := None; o_completedAt := None; o_error := None;
     o_errorStack := None; o_failedAt := None |}.

Definition withMaxAttempts (m : Z) : Options :=
  {| o_id := None; o_type := None; o_data := None; o_status := None;
     o_priority := None; o_attempts := None; o_maxAttempts := Some m;
     o_delay := None; o_createdAt := None; o_startedAt := None;
     o_result := None; o_completedAt := None; o_error := None;
     o_errorStack := None; o_failedAt := None |}.

Definition withDelay (d : Z) : Options :=
  {| o_id := None; o_type := None; o_data := None; o_status := None;
     o_priority := None; o_attempts := None; o_maxAttempts := None;
     o_delay := Some d; o_createdAt := None; o_startedAt := None;
     o_result := None; o_completedAt := None; o_error := None;
     o_errorStack := None; o_failedAt := None |}.

Definition withStatus (s : Status) : Options :=
  {| o_id := None; o_type := None; o_data := None; o_status := Some s;
     o_priority := None; o_attempts := None; o_maxAttempts := None;
     o_delay := None; o_createdAt := None; o_startedAt := None;
     o_result := None; o_completedAt := None; o_error := None;
     o_errorStack := None; o_failedAt := None |}.


(** The state after a sequence of events (up to the first that cannot
    happen). *)
Fixpoint after (evs : list Event) (q : JobQueue) : JobQueue :=
  match evs with
  | [] => q
  | ev :: evs' =>
      match exec ev q with
      | Some (Returned q') => after evs' q'
      | _ => q
      end
  end.

(** Every event of the sequence is allowed when it happens. *)
Fixpoint allowedAlong (allowed : JobQueue -> Event -> Prop)
    (evs : list Event) (q : JobQueue) : Prop :=
  match evs with
  | [] => True
  | ev :: evs' =>
      match exec ev q with
      | Some (Returned q') => allowed q ev ∧ allowedAlong allowed evs' q'
      | _ => True
      end
  end.

(** A story is generated at the second attempt while another waits for its
    backoff delay and a third for a free slot; then the hourly sweep. *)
Definition busyDay : list Event :=
  [ EvAdd 1000 "k3x9" "generate_story" "story-1" noOptions;
    EvAdd 1010 "p0q2" "generate_story" "story-2" (withPriority 5);
    EvAdd 1020 "a7b1" "generate_story" "story-3" (withPriority 1);
    EvReject 1500 0 {| message := "timeout"; stack := "Error: timeout" |};
    EvFulfil 2000 0 "story-2 text";
    EvTimer 3500 0;
    EvReject 4000 0 {| message := "timeout"; stack := "Error: timeout" |};
    EvFulfil 4100 0 "story-1 text";
    EvCleanup 90000000 86400000 ].

(** ** Properties of jobs by place *)

(** What the place of a job says about its fields, whatever [options] were
    passed to [add]. *)
Definition placeFields (p : Place) (v : View) : Prop :=
  match p with
  | InJobs => True
  | OnTimer d => d = job_delay (v_job v) ∧ (0 < d)%Z
  | InHandler => job_status (v_job v) = Processing
  | InCompleted =>
      job_status (v_job v) = Completed ∧ is_Some (job_completedAt (v_job v))
  | InFailed =>
      job_status (v_job v) = Failed ∧ is_Some (job_failedAt (v_job v))
  | Removed =>
      job_status (v_job v) = Completed ∨ job_status (v_job v) = Failed
  end.

(** What the place of a job says about its attempts, when [add] did not
    override the counter: it counts the failed invocations; a job not yet
    failed for good is below its ceiling (or has not failed at all), a
    failed one has just reached it; and a job that has failed at least
    once waits with the backoff delay of its attempt count, until its
    timer fires. *)
Definition attemptsCounted (p : Place) (v : View) : Prop :=
  let j := v_job v in
  job_attempts j = v_failures v
  ∧ (p ≠ Removed -> v_successes v = match p with InCompleted => 1 | _ => 0 end)
  ∧ v_invocations v
    = v_failures v + v_successes v + match p with InHandler => 1 | _ => 0 end
  ∧ match p with
    | InFailed => Z.of_nat (job_attempts j) = Z.max 1 (job_maxAttempts j)
    | Removed => True
    | _ =>
        job_attempts j = 0 ∨ (Z.of_nat (job_attempts j) < job_maxAttempts j)%Z
    end
  ∧ match p with
    | OnTimer d =>
        d = job_delay j
        ∧ (1 <= job_attempts j -> d = backoff (job_attempts j))
    | InJobs =>
        1 <= job_attempts j ->
        job_delay j = backoff (job_attempts j) ∨ job_delay j = 0%Z
    | _ => True
    end.


(** A job that fails twice and then succeeds, alone in its queue. *)
Definition twoFailuresThenSuccess : list Event :=
  [ EvAdd 1000 "k3x9" "generate_story" "story-1" noOptions;
    EvReject 1500 0 {| message := "timeout"; stack := "Error: timeout" |};
    EvTimer 3500 0;
    EvReject 4000 0 {| message := "timeout"; stack := "Error: timeout" |};
    EvTimer 8000 0;
    EvFulfil 8500 0 "story-1 text" ].

(** A job added with [{maxAttempts: 0}] whose handler fails. *)
Definition zeroCeilingFailure : list Event :=
  [ EvAdd 1000 "k3x9" "generate_story" "story-1" (withMaxAttempts 0);
    EvReject 1500 0 {| message := "timeout"; stack := "Error: timeout" |} ].

(** The ids of the jobs created so far are pairwise distinct. *)
Definition idsDistinct (q : JobQueue) : Prop :=
  forall r1 r2, r1 < nextRef q -> r2 < nextRef q ->
    job_id (heap q r1) = job_id (heap q r2) -> r1 = r2.

(** The four arrays that [getJob] searches and [getStats] counts. *)
Definition inArrays (q : JobQueue) : list ref :=
  jobs q ++ processing q ++ completed q ++ failed q.

(** A job waiting in the array or for its timer has status [waiting], when
    [add] did not override the status. *)
Definition waitingStatus (p : Place) (v : View) : Prop :=
  match p with
  | InJobs | OnTimer _ => job_status (v_job v) = Waiting
  | _ => True
  end.

(** [add] is called with distinct ids and without a [status] key. *)
Definition plainAdd (q : JobQueue) (ev : Event) : Prop :=
  freshId q ev ∧ keepsStatus q ev.

(** A job added with an initial delay of five seconds. *)
Definition delayedJob : list Event :=
  [ EvAdd 1000 "k3x9" "generate_story" "story-1" (withDelay 5000) ].

(** ** The four queues together *)

Inductive QueueName := Story | Image | Audio | Email.

#[global] Instance QueueName_eq_dec : EqDecision QueueName.
Proof. solve_decision. Defined.

Record Queues := {
  q_story : JobQueue;
  q_image : JobQueue;
  q_audio : JobQueue;
  q_email : JobQueue
}.

Definition moduleQueues : Queues :=
  {| q_story := storyQueue; q_image := imageQueue; q_audio := audioQueue;
     q_email := emailQueue |}.

Definition getQueue (k : QueueName) (s : Queues) : JobQueue :=
  match k with
  | Story => q_story s
  | Image => q_image s
  | Audio => q_audio s
  | Email => q_email s
  end.

Definition setQueue (k : QueueName) (q : JobQueue) (s : Queues) : Queues :=
  match k with
  | Story => {| q_story := q; q_image := q_image s; q_audio := q_audio s;
                q_email := q_email s |}
  | Image => {| q_story := q_story s; q_image := q; q_audio := q_audio s;
                q_email := q_email s |}
  | Audio => {| q_story := q_story s; q_image := q_image s; q_audio := q;
                q_email := q_email s |}
  | Email => {| q_story := q_story s; q_image := q_image s;
                q_audio := q_audio s; q_email := q |}
  end.


(** A queue with one slot and an [echo] handler. *)
Definition echoQueue : JobQueue :=
  process "echo" asyncHandler (newQueue "echo" 1).



(** The same three jobs enqueued while the only slot is busy. *)
Definition oneFiveThreeBehindBlocker : list Event :=
  [ EvAdd 900 "z" "echo" "blocker" noOptions;
    EvAdd 1000 "a" "echo" "one" (withPriority 1);
    EvAdd 1001 "b" "echo" "five" (withPriority 5);
    EvAdd 1002 "c" "echo" "three" (withPriority 3);
    EvFulfil 1003 0 "blocker";
    EvFulfil 1004 0 "five";
    EvFulfil 1005 0 "three";
    EvFulfil 1006 0 "one" ].

(** ** Further observations of a queue *)





(** The fields of a job that [add] sets and no other line assigns. *)
Definition fixedFields (j : Job) : string * string * string * Z * Z * Z :=
  (job_id j, job_type j, job_data j, job_priority j, job_maxAttempts j,
   job_createdAt j).


(** ** Generated ids *)

(** The string has no underscore. *)
Fixpoint noUnderscore (s : string) : Prop :=
  match s with
  | EmptyString => True
  | String c s' => c ≠ "_"%char ∧ noUnderscore s'
  end.

(** The clock reading and the random suffix that [generateJobId] uses in
    a call of [add]. *)
Definition stampOf (ev : Event) : option (Z * string) :=
  match ev with EvAdd now rnd _ _ _ => Some (now, rnd) | _ => None end.

Definition stamps (evs : list Event) : list (Z * string) := omap stampOf evs.

(** A call of [add] whose [options] have no [id] key: the job keeps the
    generated id. *)
Definition generatesId (ev : Event) : Prop :=
  match ev with EvAdd _ _ _ _ o => o_id o = None | _ => True end.

(** Every job created so far has the id generated from one of the stamps
    [seen]. *)
Definition idsFrom (seen : list (Z * string)) (q : JobQueue) : Prop :=
  forall r, r < nextRef q ->
    ∃ now rnd, (now, rnd) ∈ seen ∧ job_id (heap q r) = generateJobId q now rnd.

(** ** The module's queues in use *)

(** No handler is registered after the module has been loaded. *)
Definition noProcess (q : JobQueue) (ev : Event) : Prop :=
  match ev with EvProcess _ _ => False | _ => True end.

(** The states of the four queues once the module is loaded: each queue
    has gone through runs of its own. *)
Definition moduleReach (s : Queues) : Prop :=
  forall k, reachFrom noProcess (getQueue k moduleQueues) (getQueue k s).

(** Lines 303 to 317, the functions that add a job to one of the queues.
    [data] is the payload object that the function builds from its first
    arguments ([{ storyId }] and so on), which the queue passes on as it
    is.  [priority] is [None] when the argument is left out: the default
    of the parameter is 0.  The result is the state of the queues on
    return and the job returned. *)
Definition addStoryGenerationJob (now : Z) (rnd data : string)
    (priority : option Z) (s : Queues) : Outcome (Queues * ref) :=
  res ← add now rnd "generate_story" data (withPriority (default 0%Z priority))
          (q_story s);
  Returned (setQueue Story res.1 s, res.2).

Definition addImageGenerationJob (now : Z) (rnd data : string)
    (priority : option Z) (s : Queues) : Outcome (Queues * ref) :=
  res ← add now rnd "generate_image" data (withPriority (default 0%Z priority))
          (q_image s);
  Returned (setQueue Image res.1 s, res.2).

Definition addAudioGenerationJob (now : Z) (rnd data : string)
    (priority : option Z) (s : Queues) : Outcome (Queues * ref) :=
  res ← add now rnd "generate_audio" data (withPriority (default 0%Z priority))
          (q_audio s);
  Returned (setQueue Audio res.1 s, res.2).

Definition addEmailJob (now : Z) (rnd data : string)
    (priority : option Z) (s : Queues) : Outcome (Queues * ref) :=
  res ← add now rnd "send_email" data (withPriority (default 0%Z priority))
          (q_email s);
  Returned (setQueue Email res.1 s, res.2).

(** The function that adds to the queue [k], and the job type it uses. *)
Definition addJobTo (k : QueueName)
  : Z -> string -> string -> option Z -> Queues -> Outcome (Queues * ref) :=
  match k with
  | Story => addStoryGenerationJob
  | Image => addImageGenerationJob
  | Audio => addAudioGenerationJob
  | Email => addEmailJob
  end.

Definition jobTypeOf (k : QueueName) : string :=
  match k with
  | Story => "generate_story"
  | Image => "generate_image"
  | Audio => "generate_audio"
  | Email => "send_email"
  end.






(** ** The logger, [app/lib/utils/logger.js] *)

(** A value in the [meta] object of a log call. *)
Inductive Value := VString (s : string) | VNumber (z : Z) | VNull.

(** The three methods of [console] that the logger writes with. *)
Inductive Console := ConsoleError | ConsoleWarn | ConsoleLog.

#[global] Instance Console_eq_dec : EqDecision Console.
Proof. solve_decision. Defined.

(** [toUpperCase()] on a character: the letters a to z are mapped to A to
    Z.  Strings are byte strings here; a character outside a to z is left
    as it is. *)
Definition upperChar (c : ascii) : ascii :=
  let n := nat_of_ascii c in
  if ((97 <=? n) && (n <=? 122))%nat then ascii_of_nat (n - 32) else c.

Fixpoint toUpperCase (s : string) : string :=
  match s with
  | EmptyString => EmptyString
  | String c s' => String (upperChar c) (toUpperCase s')
  end.

Module Logger.

(** [LOG_LEVELS[levelName]]; [None] is [undefined]. *)
Definition LOG_LEVELS (levelName : string) : option nat :=
  if decide (levelName = "ERROR") then Some 0
  else if decide (levelName = "WARN") then Some 1
  else if decide (levelName = "INFO") then Some 2
  else if decide (levelName = "DEBUG") then Some 3
  else None.

(** [LOG_LEVEL_NAMES[level]] *)
Definition LOG_LEVEL_NAMES (level : nat) : option string :=
  match level with
  | 0 => Some "ERROR"
  | 1 => Some "WARN"
  | 2 => Some "INFO"
  | 3 => Some "DEBUG"
  | _ => None
  end.

(** A [Logger] object. *)
Record t := { context : string; level : option nat }.

(** [new Logger(context)]; [env] is [process.env.LOG_LEVEL], [None] when
    the variable is not set.  An empty value is falsy. *)
Definition new (env : option string) (ctx : string) : t :=
  {| context := ctx;
     level := match env with
              | None | Some EmptyString => LOG_LEVELS "INFO"
              | Some v => LOG_LEVELS (toUpperCase v)
              end |}.

(** The object that [formatMessage] builds and passes to
    [JSON.stringify], as a map from its keys to their values: the four
    standard keys, then the keys of [meta], which replace them.  A key
    whose value is [undefined] is left out, as [JSON.stringify] does. *)
Definition formatMessage (lg : t) (timestamp : string) (lvl : nat)
    (message : string) (meta : gmap string Value) : gmap string Value :=
  meta ∪
  <["timestamp" := VString timestamp]>
    (from_option (fun n => <["level" := VString n]>) id (LOG_LEVEL_NAMES lvl)
       (<["context" := VString (context lg)]>
          (<["message" := VString message]> ∅))).

(** [log(level, message, meta)]: where the line goes and what it holds,
    or [None] when nothing is written. *)
Definition log (lg : t) (timestamp : string) (lvl : nat) (message : string)
    (meta : gmap string Value) : option (Console * gmap string Value) :=
  match level lg with
  | Some threshold =>
      if (lvl <=? threshold)%nat then
        Some (if (lvl =? 0)%nat then ConsoleError
              else if (lvl =? 1)%nat then ConsoleWarn
              else ConsoleLog,
              formatMessage lg timestamp lvl message meta)
      else None
  | None => None
  end.

Definition error (lg : t) (timestamp message : string)
    (meta : gmap string Value) : option (Console * gmap string Value) :=
  log lg timestamp 0 message meta.

Definition warn (lg : t) (timestamp message : string)
    (meta : gmap string Value) : option (Console * gmap string Value) :=
  log lg timestamp 1 message meta.

Definition info (lg : t) (timestamp message : string)
    (meta : gmap string Value) : option (Console * gmap string Value) :=
  log lg timestamp 2 message meta.

Definition debug (lg : t) (timestamp message : string)
    (meta : gmap string Value) : option (Console * gmap string Value) :=
  log lg timestamp 3 message meta.

End Logger.

(** [export const logger = new Logger('app')] *)
Definition logger (env : option string) : Logger.t := Logger.new env "app".

(** The calls of the logger that the queue makes: the level, the message
    and the keys of the [meta] object of each entry of its log (lines 44,
    86, 108, 120, 133, 148 and 203 of [queue.js]). *)
Definition entryLevel (e : LogEntry) : nat :=
  match e with
  | JobAttemptFailed _ _ _ | JobFailedPermanently _ _ => 0
  | _ => 2
  end.

Definition entryMessage (e : LogEntry) : string :=
  match e with
  | JobAdded _ _ => "Job added to queue"
  | JobStarted _ _ => "Job processing started"
  | JobCompleted _ _ => "Job completed successfully"
  | JobAttemptFailed _ _ _ => "Job processing failed"
  | JobFailedPermanently _ _ => "Job failed permanently"
  | JobRetryScheduled _ _ _ => "Job scheduled for retry"
  | CleanupCompleted _ _ _ => "Queue cleanup completed"
  end.

Definition entryMetaKeys (e : LogEntry) : list string :=
  match e with
  | JobAdded _ _ => ["queue"; "jobId"; "jobType"; "priority"]
  | JobStarted _ _ => ["queue"; "jobId"; "jobType"; "attempt"]
  | JobCompleted _ _ => ["queue"; "jobId"; "jobType"; "duration"]
  | JobAttemptFailed _ _ _ => ["queue"; "jobId"; "jobType"; "attempt"; "error"]
  | JobFailedPermanently _ _ => ["queue"; "jobId"; "jobType"; "totalAttempts"]
  | JobRetryScheduled _ _ _ =>
      ["queue"; "jobId"; "jobType"; "delay"; "nextAttempt"]
  | CleanupCompleted _ _ _ => ["queue"; "cleaned"; "completed"; "failed"]
  end.

(** The [console] method each entry of the queue's log was written with,
    oldest first; entries below the threshold are not written. *)
Definition consoleOf (lg : Logger.t) (e : LogEntry) : option Console :=
  fst <$> Logger.log lg "" (entryLevel e) (entryMessage e) ∅.

Definition written (lg : Logger.t) (q : JobQueue) : list (Console * LogEntry) :=
  omap (fun e => (fun c => (c, e)) <$> consoleOf lg e) (rev (log q)).

(** The entries of the log about failures. *)
Definition isFailure (e : LogEntry) : bool :=
  match e with
  | JobAttemptFailed _ _ _ | JobFailedPermanently _ _ => true
  | _ => false
  end.

(** ** The handlers of the module's queues *)















(** ** The cache, [app/lib/utils/logger.js] from line 214 *)

(** A call of a method of [logger]: the level, the message and the [meta]
    object. *)
Record LogCall := {
  lc_level : nat;
  lc_message : string;
  lc_meta : gmap string Value
}.

(** The outcome of [await fetcher()]: the data, where [None] is [null], or
    the error that the fetcher threw or rejected with. *)
Inductive Fetch (A : Type) :=
| FetchReturns (data : option A)
| FetchFails (e : Error).
Arguments FetchReturns {A} _.
Arguments FetchFails {A} _.

(** An [async] function with one [await] on the fetcher, run on a state
    [S]: it has returned [result] without calling the fetcher, or it has
    called the fetcher and is suspended.  [resume] is the rest of the
    function; it runs when the fetcher has settled, at the time and in the
    state of that moment. *)
Inductive Async (S A : Type) :=
| Done (result : option A) (s : S)
| Await (s : S) (resume : Z -> Fetch A -> S -> Outcome (option A) * S).
Arguments Done {S A} _ _.
Arguments Await {S A} _ _.

(** An [async] function on a part of the state, as one on the whole. *)
Definition within {S T A : Type} (part : S -> T) (put : T -> S -> S)
    (f : T -> Async T A) (s : S) : Async S A :=
  match f (part s) with
  | Done result c => Done result (put c s)
  | Await c resume =>
      Await (put c s)
        (fun later fetched s' =>
           let '(o, c') := resume later fetched (part s') in (o, put c' s'))
  end.

(** [parts.join(sep)] *)
Fixpoint joinParts (sep : string) (parts : list string) : string :=
  match parts with
  | [] => ""
  | p :: rest =>
      match rest with
      | [] => p
      | _ => p +:+ sep +:+ joinParts sep rest
      end
  end.

Module MemoryCache.

(** An entry of the map [this.cache]; the [value] [None] is [null]. *)
Record Item (A : Type) := { value : option A; expiresAt : Z }.
Arguments Build_Item {A} _ _.
Arguments value {A} _.
Arguments expiresAt {A} _.

(** A [MemoryCache] object, with the calls of [logger] that its methods
    made, newest first. *)
Record t (A : Type) := {
  cache : gmap string (Item A);
  defaultTTL : Z;
  calls : list LogCall
}.
Arguments Build_t {A} _ _ _.
Arguments cache {A} _.
Arguments defaultTTL {A} _.
Arguments calls {A} _.

Definition with_cache {A} (m : gmap string (Item A)) (c : t A) : t A :=
  {| cache := m; defaultTTL := defaultTTL c; calls := calls c |}.

Definition logs {A} (lvl : nat) (message : string) (meta : gmap string Value)
    (c : t A) : t A :=
  {| cache := cache c; defaultTTL := defaultTTL c;
     calls := {| lc_level := lvl; lc_message := message; lc_meta := meta |}
              :: calls c |}.

(** Lines 220 to 223: [constructor(defaultTTL = 300)]. *)
Definition new {A} (ttl : option Z) : t A :=
  {| cache := ∅; defaultTTL := (default 300 ttl * 1000)%Z; calls := [] |}.

(** Lines 225 to 233: [set(key, value, ttl = this.defaultTTL)], with
    [now] for [Date.now()]. *)
Definition set {A} (now : Z) (key : string) (v : option A) (ttl : option Z)
    (c : t A) : t A :=
  let ttl := default (defaultTTL c) ttl in
  let expiresAt := (now + ttl)%Z in
  logs 3 "Cache set" {[ "key" := VString key; "ttl" := VNumber ttl ]}
    (with_cache (<[key := Build_Item v expiresAt]> (cache c)) c).

(** Lines 235 to 251: [get(key)]. *)
Definition get {A} (now : Z) (key : string) (c : t A) : option A * t A :=
  match cache c !! key with
  | None => (None, logs 3 "Cache miss" {[ "key" := VString key ]} c)
  | Some item =>
      if (now >? expiresAt item)%Z then
        (None, logs 3 "Cache expired" {[ "key" := VString key ]}
                 (with_cache (base.delete key (cache c)) c))
      else (value item, logs 3 "Cache hit" {[ "key" := VString key ]} c)
  end.

(** Lines 253 to 259: [delete(key)]. *)
Definition delete {A} (key : string) (c : t A) : bool * t A :=
  match cache c !! key with
  | Some _ =>
      (true, logs 3 "Cache deleted" {[ "key" := VString key ]}
               (with_cache (base.delete key (cache c)) c))
  | None => (false, c)
  end.

(** Lines 261 to 265: [clear()]. *)
Definition clear {A} (c : t A) : t A :=
  let size := base.size (cache c) in
  logs 2 "Cache cleared" {[ "itemsCleared" := VNumber (Z.of_nat size) ]}
    (with_cache ∅ c).

(** Lines 271 to 277: the loop of [cleanup] over the entries of the map,
    from the map and the count it has reached. *)
Definition cleanupLoop {A} (now : Z) (entries : gmap string (Item A))
    (start : gmap string (Item A) * nat) : gmap string (Item A) * nat :=
  map_fold
    (fun key item '(m, cleaned) =>
       if (now >? expiresAt item)%Z then (base.delete key m, S cleaned)
       else (m, cleaned))
    start entries.

(** Lines 268 to 282: [cleanup()]. *)
Definition cleanup {A} (now : Z) (c : t A) : t A :=
  let '(m, cleaned) := cleanupLoop now (cache c) (cache c, 0) in
  if (0 <? cleaned)%nat then
    logs 3 "Cache cleanup" {[ "itemsCleaned" := VNumber (Z.of_nat cleaned) ]}
      (with_cache m c)
  else with_cache m c.

(** Lines 284 to 286: [size()]. *)
Definition size {A} (c : t A) : nat := base.size (cache c).

End MemoryCache.

(** Lines 290 to 293: the caches of the module, with the calls of [logger]
    that the functions of the module made themselves, newest first. *)
Record Caches (A : Type) := {
  appCache : MemoryCache.t A;
  userCache : MemoryCache.t A;
  storyCache : MemoryCache.t A;
  templateCache : MemoryCache.t A;
  moduleCalls : list LogCall
}.
Arguments Build_Caches {A} _ _ _ _ _.
Arguments appCache {A} _.
Arguments userCache {A} _.
Arguments storyCache {A} _.
Arguments templateCache {A} _.
Arguments moduleCalls {A} _.

Definition moduleCaches {A} : Caches A :=
  {| appCache := MemoryCache.new (Some 600%Z);
     userCache := MemoryCache.new (Some 300%Z);
     storyCache := MemoryCache.new (Some 1800%Z);
     templateCache := MemoryCache.new (Some 3600%Z);
     moduleCalls := [] |}.

Definition with_userCache {A} (c : MemoryCache.t A) (s : Caches A) : Caches A :=
  {| appCache := appCache s; userCache := c; storyCache := storyCache s;
     templateCache := templateCache s; moduleCalls := moduleCalls s |}.

Definition with_storyCache {A} (c : MemoryCache.t A) (s : Caches A) : Caches A :=
  {| appCache := appCache s; userCache := userCache s; storyCache := c;
     templateCache := templateCache s; moduleCalls := moduleCalls s |}.

Definition moduleLogs {A} (lvl : nat) (message : string)
    (meta : gmap string Value) (s : Caches A) : Caches A :=
  {| appCache := appCache s; userCache := userCache s;
     storyCache := storyCache s; templateCache := templateCache s;
     moduleCalls := {| lc_level := lvl; lc_message := message; lc_meta := meta |}
                    :: moduleCalls s |}.

(** Lines 296 to 301: the callback of the five-minute interval; each cache
    reads the clock for itself. *)
Definition cleanupCaches {A} (now1 now2 now3 now4 : Z) (s : Caches A)
    : Caches A :=
  {| appCache := MemoryCache.cleanup now1 (appCache s);
     userCache := MemoryCache.cleanup now2 (userCache s);
     storyCache := MemoryCache.cleanup now3 (storyCache s);
     templateCache := MemoryCache.cleanup now4 (templateCache s);
     moduleCalls := moduleCalls s |}.

(** Lines 304 to 318: the keys.  [None] for [suffix] is the argument left
    out. *)
Definition generateCacheKey (prefix : string) (parts : list string) : string :=
  prefix +:+ ":" +:+ joinParts ":" parts.

Definition userCacheKey (userId : string) (suffix : option string) : string :=
  generateCacheKey "user" [userId; default "" suffix].

Definition storyCacheKey (storyId : string) (suffix : option string) : string :=
  generateCacheKey "story" [storyId; default "" suffix].

Definition shopCacheKey (shopDomain : string) (suffix : option string) : string :=
  generateCacheKey "shop" [shopDomain; default "" suffix].

(** Lines 321 to 335: [withCache(cache, key, fetcher, ttl)], up to the
    [await] and after it. *)
Definition withCache {A} (now : Z) (key : string) (ttl : option Z)
    (c : MemoryCache.t A) : Async (MemoryCache.t A) A :=
  let '(cached, c1) := MemoryCache.get now key c in
  match cached with
  | Some v => Done (Some v) c1
  | None =>
      Await c1
        (fun later fetched c2 =>
           match fetched with
           | FetchReturns data =>
               (Returned data, MemoryCache.set later key data ttl c2)
           | FetchFails e => (Threw e, c2)
           end)
  end.

(** Lines 338 to 351. *)
Definition getCachedUser {A} (now : Z) (userId : string) (s : Caches A)
    : Async (Caches A) A :=
  let key := userCacheKey userId None in
  within userCache with_userCache (withCache now key (Some 300%Z)) s.

Definition getCachedStory {A} (now : Z) (storyId : string) (s : Caches A)
    : Async (Caches A) A :=
  let key := storyCacheKey storyId None in
  within storyCache with_storyCache (withCache now key (Some 1800%Z)) s.

(** [filters] is the string [JSON.stringify(filters)]. *)
Definition getCachedStoryList {A} (now : Z) (userId filters : string)
    (s : Caches A) : Async (Caches A) A :=
  let key := userCacheKey userId (Some ("stories:" +:+ filters)) in
  within userCache with_userCache (withCache now key (Some 300%Z)) s.

(** Lines 354 to 368: [invalidateUserCache(userId)]. *)
Definition invalidateUserCache {A} (userId : string) (s : Caches A) : Caches A :=
  let patterns :=
    [ userCacheKey userId None;
      userCacheKey userId (Some "stories");
      userCacheKey userId (Some "preferences") ] in
  let s1 :=
    foldl (fun s0 pattern =>
             with_userCache (MemoryCache.delete pattern (userCache s0)).2 s0)
          s patterns in
  moduleLogs 2 "User cache invalidated" {[ "userId" := VString userId ]} s1.

(** Lines 370 to 380: [invalidateStoryCache(storyId, userId = null)];
    [None] is [null], and the empty string is as falsy as [null]. *)
Definition invalidateStoryCache {A} (storyId : string) (userId : option string)
    (s : Caches A) : Caches A :=
  let s1 :=
    with_storyCache
      (MemoryCache.delete (storyCacheKey storyId None) (storyCache s)).2 s in
  let s2 :=
    match userId with
    | Some u =>
        if decide (u = "") then s1
        else
          let userStoriesKey := userCacheKey u (Some "stories") in
          with_userCache (MemoryCache.delete userStoriesKey (userCache s1)).2 s1
    | None => s1
    end in
  moduleLogs 2 "Story cache invalidated"
    {[ "storyId" := VString storyId;
       "userId" := from_option VString VNull userId ]}
    s2.


(** Lines 392 to 410: the [get] and [set] of the object that
    [createResponseCache()] returns, on its cache [new MemoryCache(60)].
    [status] reads [response.status], a number or [None] for
    [undefined]; [None] and zero are falsy. *)
Definition responseCache {A} : MemoryCache.t A := MemoryCache.new (Some 60%Z).

Definition responseGet {A} (now : Z) (key : string) (c : MemoryCache.t A)
    : option A * MemoryCache.t A :=
  MemoryCache.get now key c.

Definition responseSet {A} (status : A -> option Z) (now : Z) (key : string)
    (response : A) (ttl : option Z) (c : MemoryCache.t A) : MemoryCache.t A :=
  match status response with
  | Some st =>
      if negb (st =? 0)%Z && (st >=? 400)%Z then c
      else MemoryCache.set now key (Some response)
             (Some (default 60 ttl * 1000)%Z) c
  | None =>
      MemoryCache.set now key (Some response) (Some (default 60 ttl * 1000)%Z) c
  end.

(** A call of a method of the object that [createResponseCache()] returns,
    and the cache after a sequence of such calls; the cache itself is not
    reachable from outside the object. *)
Inductive ResponseCall (A : Type) :=
| CallGet (now : Z) (key : string)
| CallSet (now : Z) (key : string) (response : A) (ttl : option Z).
Arguments CallGet {A} _ _.
Arguments CallSet {A} _ _ _ _.

Definition responseCall {A} (status : A -> option Z) (call : ResponseCall A)
    (c : MemoryCache.t A) : MemoryCache.t A :=
  match call with
  | CallGet now key => (responseGet now key c).2
  | CallSet now key response ttl => responseSet status now key response ttl c
  end.

Definition afterCalls {A} (status : A -> option Z)
    (calls : list (ResponseCall A)) : MemoryCache.t A :=
  foldl (fun c call => responseCall status call c) responseCache calls.

Local Close Scope string_scope.

(** * Proofs *)

(** ** The store *)

Lemma upd_eq r f h : upd r f h r = f (h r).
Proof. unfold upd. by rewrite Nat.eqb_refl. Qed.

Lemma upd_ne r r' f h : r' ≠ r -> upd r f h r' = h r'.
Proof. unfold upd. intros H. by apply Nat.eqb_neq in H as ->. Qed.

Ltac upd_cases :=
  repeat match goal with
  | |- context [upd ?r ?f ?h ?r'] =>
      unfold upd at 1; destruct (Nat.eqb_spec r' r); subst
  | H : context [upd ?r ?f ?h ?r'] |- _ =>
      unfold upd in H at 1; destruct (Nat.eqb_spec r' r); subst
  end.

(** ** The scheduler terminates and hands back control *)

Lemma callHandler_cases r q :
  callHandler r q = Returned () ∨ ∃ e, callHandler r q = Threw e.
Proof.
  unfold callHandler. destruct (handlers q !! _) as [h|]; [|eauto].
  destruct (h _ _); eauto.
Qed.

Lemma isProcessing_catchBlock now e r q :
  isProcessing (catchBlock now e r q) = isProcessing q.
Proof. unfold catchBlock. cbn. by destruct (_ <=? _)%Z. Qed.

Lemma isProcessing_afterProcessJob now r q :
  isProcessing (afterProcessJob now r q) = isProcessing q.
Proof.
  unfold afterProcessJob. destruct (callHandler _ _); cbn; try done.
  by rewrite isProcessing_catchBlock.
Qed.

Lemma isProcessing_afterLoopBody now r q :
  isProcessing (afterLoopBody now r q) = isProcessing q.
Proof.
  unfold afterLoopBody. destruct (0 <? _)%Z; [done|].
  apply isProcessing_afterProcessJob.
Qed.

Lemma startProcessing_unfold d now q :
  startProcessing (S d) now q =
  if isProcessing q then Returned q
  else whileLoop (startProcessing d now) now (loopFuel q) (with_isProcessing true q)
         ≫= fun q1 => Returned (with_isProcessing false q1).
Proof. done. Qed.

Lemma startProcessing_busy d now q :
  isProcessing q = true -> startProcessing (S d) now q = Returned q.
Proof. intros H. cbn. by rewrite H. Qed.

(** Called from the loop, [processJob] always returns: an exception of the
    [try] block is caught, and the nested [startProcessing] is a no-op. *)
Lemma processJob_in_loop now r q :
  isProcessing q = true ->
  processJob (startProcessing 1 now) now r q = Returned (afterProcessJob now r q).
Proof.
  intros Hb. unfold processJob, afterProcessJob.
  destruct (callHandler_cases r (beginJob now r q)) as [->|[e ->]];
    cbn [tryCatch mbind Outcome_bind fst snd]; [done|].
  apply startProcessing_busy. by rewrite isProcessing_catchBlock.
Qed.

Lemma loopBody_in_loop now r q :
  isProcessing q = true ->
  loopBody (startProcessing 1 now) now r q = Returned (afterLoopBody now r q).
Proof.
  intros Hb. unfold loopBody, afterLoopBody.
  destruct (0 <? _)%Z; [done|]. by apply processJob_in_loop.
Qed.

Lemma whileLoop_unfold self now fuel q :
  whileLoop self now (S fuel) q =
  match jobs q with
  | [] => Returned q
  | r :: rest =>
      if (length (processing q) <? concurrency q)%nat then
        loopBody self now r (with_jobs rest q) ≫= whileLoop self now fuel
      else Returned q
  end.
Proof. done. Qed.

(** The loop as a rule: a property kept by every iteration holds when the
    loop ends, and then nothing more can be admitted. *)
Lemma whileLoop_rule (I : JobQueue -> Prop) now :
  (forall q r rest,
     I q -> jobs q = r :: rest -> length (processing q) < concurrency q ->
     I (afterLoopBody now r (with_jobs rest q))) ->
  forall fuel q q',
    isProcessing q = true -> I q ->
    whileLoop (startProcessing 1 now) now fuel q = Returned q' ->
    I q' ∧ isProcessing q' = true ∧ quiescent q'.
Proof.
  intros Hbody fuel. induction fuel as [|fuel IH]; intros q q' Hb HI Hrun; [done|].
  rewrite whileLoop_unfold in Hrun. destruct (jobs q) as [|r rest] eqn:Hj.
  { injection Hrun as <-. unfold quiescent. auto. }
  destruct (Nat.ltb_spec (length (processing q)) (concurrency q)) as [Hlt|Hge].
  - rewrite loopBody_in_loop in Hrun by done.
    cbn [mbind Outcome_bind] in Hrun.
    eapply IH in Hrun; eauto.
    by rewrite isProcessing_afterLoopBody.
  - injection Hrun as <-. unfold quiescent. auto.
Qed.

Lemma weight_le_length h l : weight h l <= 2 * length l.
Proof. induction l as [|r l IH]; cbn [weight length]; [lia|]. destruct (0 <? _)%Z; lia. Qed.

Lemma weight_mono h h' l :
  (forall r, r ∈ l -> (0 < job_delay (h r))%Z -> (0 < job_delay (h' r))%Z) ->
  weight h' l <= weight h l.
Proof.
  induction l as [|r l IH]; intros H; cbn [weight]; [lia|].
  assert (weight h' l <= weight h l) by (apply IH; intros; apply H; [set_solver|done]).
  specialize (H r ltac:(set_solver)).
  destruct (Z.ltb_spec 0 (job_delay (h r))), (Z.ltb_spec 0 (job_delay (h' r))); lia.
Qed.

Lemma backoff_pos n : (0 < backoff n)%Z.
Proof. unfold backoff. assert (0 < 2 ^ Z.of_nat n)%Z by (apply Z.pow_pos_nonneg; lia). lia. Qed.

Lemma weight_afterLoopBody now r rest q :
  weight (heap (afterLoopBody now r (with_jobs rest q)))
         (jobs (afterLoopBody now r (with_jobs rest q)))
  < weight (heap q) (r :: rest).
Proof.
  unfold afterLoopBody. cbn [heap jobs with_jobs weight].
  destruct (Z.ltb_spec 0 (job_delay (heap q r))) as [Hd|Hd]; cbn; [lia|].
  unfold afterProcessJob.
  destruct (callHandler r _) as [[]|e|]; cbn.
  - apply Nat.lt_succ_r, Nat.le_le_succ_r, weight_mono.
    intros r' _. unfold upd. by destruct (Nat.eqb r' r).
  - unfold catchBlock. cbn. rewrite !upd_eq. cbn.
    destruct (_ <=? _)%Z; cbn.
    + apply Nat.lt_succ_r, Nat.le_le_succ_r, weight_mono.
      intros r' _. unfold upd. by destruct (Nat.eqb r' r).
    + rewrite !upd_eq. cbn.
      destruct (Z.ltb_spec 0 (backoff (S (job_attempts (heap q r))))) as [_|Hn];
        [|pose proof (backoff_pos (S (job_attempts (heap q r)))); lia].
      apply Nat.lt_succ_r, le_n_S, weight_mono.
      intros r' _. unfold upd. destruct (Nat.eqb r' r); cbn; [|done].
      intros _. apply backoff_pos.
  - apply Nat.lt_succ_r, Nat.le_le_succ_r, weight_mono.
    intros r' _. unfold upd. by destruct (Nat.eqb r' r).
Qed.

Lemma whileLoop_returns now fuel : forall q,
  isProcessing q = true -> weight (heap q) (jobs q) < fuel ->
  ∃ q', whileLoop (startProcessing 1 now) now fuel q = Returned q'.
Proof.
  induction fuel as [|fuel IH]; intros q Hb Hw; [lia|].
  rewrite whileLoop_unfold. destruct (jobs q) as [|r rest] eqn:Hj; [eauto|].
  destruct (_ <? _)%nat; [|eauto].
  rewrite loopBody_in_loop by done. cbn [mbind Outcome_bind].
  apply IH; [by rewrite isProcessing_afterLoopBody|].
  pose proof (weight_afterLoopBody now r rest q). lia.
Qed.

(** [startProcessing] on an idle queue: the loop runs to its end. *)
Lemma startProcessing_returns now q :
  isProcessing q = false ->
  ∃ q1, whileLoop (startProcessing 1 now) now (loopFuel q) (with_isProcessing true q)
          = Returned q1
        ∧ startProcessing callDepth now q = Returned (with_isProcessing false q1).
Proof.
  intros Hi.
  destruct (whileLoop_returns now (loopFuel q) (with_isProcessing true q)) as [q1 H1];
    [done| |].
  { cbn. unfold loopFuel. pose proof (weight_le_length (heap q) (jobs q)). lia. }
  exists q1. split; [done|]. unfold callDepth.
  by rewrite startProcessing_unfold, Hi, H1.
Qed.

(** ** Proof rules for runs and reachable states *)

Section Rules.
Variable I : JobQueue -> Prop.

Hypothesis I_flag : forall q b, I q -> I (with_isProcessing b q).
Hypothesis I_body : forall now q r rest,
  I q -> jobs q = r :: rest -> length (processing q) < concurrency q ->
  I (afterLoopBody now r (with_jobs rest q)).

Lemma startProcessing_rule now q q' :
  isProcessing q = false -> I q ->
  startProcessing callDepth now q = Returned q' ->
  I q' ∧ isProcessing q' = false ∧ quiescent q'.
Proof.
  intros Hi HI Hrun.
  destruct (startProcessing_returns now q Hi) as (q1 & Hloop & Heq).
  rewrite Heq in Hrun. injection Hrun as <-.
  eapply (whileLoop_rule I) in Hloop as (H1 & _ & H3); eauto.
Qed.

Variable allowed : JobQueue -> Event -> Prop.

Hypothesis I_process : forall q jobType h,
  I q -> allowed q (EvProcess jobType h) -> I (process jobType h q).
Hypothesis I_enqueue : forall q now rnd jobType data o,
  I q -> allowed q (EvAdd now rnd jobType data o) ->
  I (enqueue now rnd jobType data o q).
Hypothesis I_reinsert : forall q now i r d,
  I q -> allowed q (EvTimer now i) -> timers q !! i = Some (r, d) ->
  I (reinsert i r q).
Hypothesis I_success : forall q now i r res,
  I q -> allowed q (EvFulfil now i res) -> awaiting q !! i = Some r ->
  I (successBlock now res r (resumed i q)).
Hypothesis I_catch : forall q now i r e,
  I q -> allowed q (EvReject now i e) -> awaiting q !! i = Some r ->
  I (catchBlock now e r (resumed i q)).
Hypothesis I_cleanup : forall q now maxAge,
  I q -> allowed q (EvCleanup now maxAge) -> I (cleanup now maxAge q).1.

Lemma step_rule q ev q' :
  isProcessing q = false -> I q -> allowed q ev -> step q ev q' ->
  I q' ∧ isProcessing q' = false.
Proof using All.
  intros Hi HI Hal Hstep. unfold step in Hstep.
  destruct ev as [t h|now rnd t d o|now i|now i res|now i e|now maxAge];
    cbn [exec] in Hstep.
  - injection Hstep as <-. split; [by apply I_process|done].
  - unfold add in Hstep.
    destruct (startProcessing callDepth now (enqueue now rnd t d o q)) eqn:Hsp;
      cbn in Hstep; try done.
    injection Hstep as <-.
    apply startProcessing_rule in Hsp as (?&?&?); eauto.
  - destruct (timers q !! i) as [[r d]|] eqn:Ht; [|done].
    injection Hstep as Hstep. unfold timerCallback in Hstep.
    apply startProcessing_rule in Hstep as (?&?&?); eauto.
  - destruct (awaiting q !! i) as [r|] eqn:Ha; [|done].
    injection Hstep as Hstep. unfold resumeFulfilled in Hstep.
    cbn [tryCatch mbind Outcome_bind] in Hstep.
    apply startProcessing_rule in Hstep as (?&?&?); eauto.
  - destruct (awaiting q !! i) as [r|] eqn:Ha; [|done].
    injection Hstep as Hstep. unfold resumeRejected in Hstep.
    cbn [tryCatch mbind Outcome_bind] in Hstep.
    apply startProcessing_rule in Hstep as (?&?&?); eauto.
    by rewrite isProcessing_catchBlock.
  - injection Hstep as <-. split; [by apply I_cleanup|].
    unfold cleanup. cbn [fst].
    by match goal with |- context [if ?b then _ else _] => destruct b end.
Qed.
End Rules.

Lemma step_idle q ev q' :
  isProcessing q = false -> step q ev q' -> isProcessing q' = false.
Proof.
  intros Hi Hs.
  by eapply (step_rule (fun _ => True) _ _ anyEvent) in Hs as [_ ?].
  Unshelve. all: done.
Qed.

Lemma reach_new allowed queueName limit : reach allowed (newQueue queueName limit).
Proof. exists queueName, limit. constructor. Qed.

Lemma reach_step allowed q ev q' :
  reach allowed q -> allowed q ev -> step q ev q' -> reach allowed q'.
Proof. intros (n&c&H) ??. exists n, c. by eapply reachFrom_step. Qed.

Lemma reach_reachFrom allowed q q' :
  reach allowed q -> reachFrom allowed q q' -> reach allowed q'.
Proof. induction 2; [done|]. by eapply reach_step. Qed.

Lemma reachFrom_idle allowed q0 q :
  isProcessing q0 = false -> reachFrom allowed q0 q -> isProcessing q = false.
Proof. induction 2; [done|]. by eapply step_idle. Qed.

Lemma reach_idle allowed q : reach allowed q -> isProcessing q = false.
Proof. intros (n&c&H). by eapply reachFrom_idle in H. Qed.

Lemma reachFrom_weaken (allowed allowed' : JobQueue -> Event -> Prop) q0 q :
  (forall q ev, allowed q ev -> allowed' q ev) ->
  reachFrom allowed q0 q -> reachFrom allowed' q0 q.
Proof. intros Hw. induction 1; [constructor|]. eapply reachFrom_step; eauto. Qed.

Lemma reach_weaken (allowed allowed' : JobQueue -> Event -> Prop) q :
  (forall q ev, allowed q ev -> allowed' q ev) ->
  reach allowed q -> reach allowed' q.
Proof. intros Hw (n&c&H). exists n, c. by eapply reachFrom_weaken. Qed.

Lemma reach_reachable allowed q : reach allowed q -> reachable q.
Proof. by apply reach_weaken. Qed.

(** A property that holds of the first state and is kept by the preludes of
    the runs and by every iteration of the scheduler's loop holds in every
    state reached. *)
Lemma reachFrom_rule (I : JobQueue -> Prop) (allowed : JobQueue -> Event -> Prop) :
  (forall q b, I q -> I (with_isProcessing b q)) ->
  (forall now q r rest,
     I q -> jobs q = r :: rest -> length (processing q) < concurrency q ->
     I (afterLoopBody now r (with_jobs rest q))) ->
  (forall q jobType h,
     I q -> allowed q (EvProcess jobType h) -> I (process jobType h q)) ->
  (forall q now rnd jobType data o,
     I q -> allowed q (EvAdd now rnd jobType data o) ->
     I (enqueue now rnd jobType data o q)) ->
  (forall q now i r d,
     I q -> allowed q (EvTimer now i) -> timers q !! i = Some (r, d) ->
     I (reinsert i r q)) ->
  (forall q now i r res,
     I q -> allowed q (EvFulfil now i res) -> awaiting q !! i = Some r ->
     I (successBlock now res r (resumed i q))) ->
  (forall q now i r e,
     I q -> allowed q (EvReject now i e) -> awaiting q !! i = Some r ->
     I (catchBlock now e r (resumed i q))) ->
  (forall q now maxAge,
     I q -> allowed q (EvCleanup now maxAge) -> I (cleanup now maxAge q).1) ->
  forall q0 q, isProcessing q0 = false -> I q0 -> reachFrom allowed q0 q -> I q.
Proof.
  intros Hflag Hbody Hp He Hr Hs Hc Hcl q0 q Hi H0 Hreach.
  induction Hreach as [|q ev q' Hreach IH Hal Hstep]; [done|].
  eapply (step_rule I Hflag Hbody allowed) in Hstep as [? _];
    eauto using reachFrom_idle.
Qed.

Lemma reach_rule (I : JobQueue -> Prop) (allowed : JobQueue -> Event -> Prop) :
  (forall queueName limit, I (newQueue queueName limit)) ->
  (forall q b, I q -> I (with_isProcessing b q)) ->
  (forall now q r rest,
     I q -> jobs q = r :: rest -> length (processing q) < concurrency q ->
     I (afterLoopBody now r (with_jobs rest q))) ->
  (forall q jobType h,
     I q -> allowed q (EvProcess jobType h) -> I (process jobType h q)) ->
  (forall q now rnd jobType data o,
     I q -> allowed q (EvAdd now rnd jobType data o) ->
     I (enqueue now rnd jobType data o q)) ->
  (forall q now i r d,
     I q -> allowed q (EvTimer now i) -> timers q !! i = Some (r, d) ->
     I (reinsert i r q)) ->
  (forall q now i r res,
     I q -> allowed q (EvFulfil now i res) -> awaiting q !! i = Some r ->
     I (successBlock now res r (resumed i q))) ->
  (forall q now i r e,
     I q -> allowed q (EvReject now i e) -> awaiting q !! i = Some r ->
     I (catchBlock now e r (resumed i q))) ->
  (forall q now maxAge,
     I q -> allowed q (EvCleanup now maxAge) -> I (cleanup now maxAge q).1) ->
  forall q, reach allowed q -> I q.
Proof.
  intros Hnew Hflag Hbody Hp He Hr Hs Hc Hcl q (n&c&Hreach).
  by eapply (reachFrom_rule I allowed Hflag Hbody Hp He Hr Hs Hc Hcl
               (newQueue n c)).
Qed.

(** Every event that can happen runs to completion. *)
Lemma exec_returns ev q o :
  isProcessing q = false -> exec ev q = Some o -> ∃ q', o = Returned q'.
Proof.
  intros Hi Hex.
  destruct ev as [t h|now rnd t d o'|now i|now i res|now i e|now maxAge];
    cbn [exec] in Hex.
  - injection Hex as <-. eauto.
  - injection Hex as <-. unfold add.
    destruct (startProcessing_returns now (enqueue now rnd t d o' q)) as (q1&_&->);
      [by destruct q|]. cbn. eauto.
  - destruct (timers q !! i) as [[r d]|]; [|done]. injection Hex as <-.
    unfold timerCallback.
    destruct (startProcessing_returns now (reinsert i r q)) as (q1&_&->);
      [by destruct q|]. eauto.
  - destruct (awaiting q !! i) as [r|]; [|done]. injection Hex as <-.
    unfold resumeFulfilled. cbn [tryCatch mbind Outcome_bind].
    destruct (startProcessing_returns now (successBlock now res r (resumed i q)))
      as (q1&_&->); [by destruct q|]. eauto.
  - destruct (awaiting q !! i) as [r|]; [|done]. injection Hex as <-.
    unfold resumeRejected. cbn [tryCatch mbind Outcome_bind].
    destruct (startProcessing_returns now (catchBlock now e r (resumed i q)))
      as (q1&_&->); [by rewrite isProcessing_catchBlock|]. eauto.
  - injection Hex as <-. eauto.
Qed.

(** ** Example runs are reachable states *)

Lemma reach_after allowed evs : forall q,
  reach allowed q -> allowedAlong allowed evs q -> reach allowed (after evs q).
Proof.
  induction evs as [|ev evs IH]; intros q Hr Hal; [done|].
  cbn [after allowedAlong] in *.
  destruct (exec ev q) as [[q'| |]|] eqn:Hex; try done.
  destruct Hal as [Hev Hal]. apply IH; [|done]. by eapply reach_step.
Qed.

Lemma reach_module_queue allowed jobType h queueName limit :
  allowed (newQueue queueName limit) (EvProcess jobType h) ->
  reach allowed (process jobType h (newQueue queueName limit)).
Proof. intros Hal. eapply reach_step; [apply reach_new|exact Hal|done]. Qed.

(** ** Well-formedness is invariant *)

Ltac qsimpl :=
  cbn [name concurrency jobs processing completed failed isProcessing handlers
       heap nextRef timers awaiting log
       with_jobs with_processing with_completed with_failed with_isProcessing
       with_handlers with_heap with_nextRef with_timers with_awaiting with_log
       logEvent mutate setTimeout dropFromProcessing resumed reinsert beginJob
       process fst snd] in *.

Lemma insertJob_perm h x l : insertJob h x l ≡ₚ x :: l.
Proof.
  induction l as [|y l IH]; cbn; [done|].
  destruct (_ <=? _)%Z; [done|]. rewrite IH. apply Permutation_swap.
Qed.

Lemma sortJobs_perm h l : sortJobs h l ≡ₚ l.
Proof.
  induction l as [|x l IH]; cbn; [done|].
  by rewrite insertJob_perm, IH.
Qed.

Lemma live_unfold q :
  live q = jobs q ++ (timers q).*1 ++ awaiting q ++ completed q ++ failed q.
Proof. done. Qed.

(** A job is held in one place at a time. *)
Lemma head_elsewhere q r rest :
  NoDup (live q) -> jobs q = r :: rest ->
  (r ∉ rest) ∧ (r ∉ (timers q).*1) ∧ (r ∉ awaiting q) ∧ (r ∉ completed q) ∧ r ∉ failed q.
Proof.
  rewrite live_unfold. intros Hnd Hj. rewrite Hj in Hnd. cbn in Hnd.
  apply NoDup_cons in Hnd as [Hni _].
  rewrite !elem_of_app in Hni. tauto.
Qed.

Lemma timer_elsewhere q i r d :
  NoDup (live q) -> timers q !! i = Some (r, d) ->
  (r ∉ jobs q) ∧ (r ∉ (delete i (timers q)).*1) ∧ (r ∉ awaiting q)
  ∧ (r ∉ completed q) ∧ r ∉ failed q.
Proof.
  rewrite live_unfold. intros Hnd Ht.
  rewrite (delete_Permutation _ _ _ Ht) in Hnd. cbn in Hnd.
  assert (Hp : jobs q ++ (r :: (delete i (timers q)).*1) ++ awaiting q ++ completed q ++ failed q
          ≡ₚ r :: jobs q ++ (delete i (timers q)).*1 ++ awaiting q ++ completed q ++ failed q)
    by solve_Permutation.
  cbn in Hp. rewrite Hp in Hnd.
  apply NoDup_cons in Hnd as [Hni _].
  rewrite !elem_of_app in Hni. tauto.
Qed.

Lemma awaiting_elsewhere q i r :
  NoDup (live q) -> awaiting q !! i = Some r ->
  (r ∉ jobs q) ∧ (r ∉ (timers q).*1) ∧ (r ∉ delete i (awaiting q))
  ∧ (r ∉ completed q) ∧ r ∉ failed q.
Proof.
  rewrite live_unfold. intros Hnd Ha.
  rewrite (delete_Permutation _ _ _ Ha) in Hnd.
  assert (Hp : jobs q ++ (timers q).*1 ++ (r :: delete i (awaiting q)) ++ completed q ++ failed q
          ≡ₚ r :: jobs q ++ (timers q).*1 ++ delete i (awaiting q) ++ completed q ++ failed q)
    by solve_Permutation.
  rewrite Hp in Hnd.
  apply NoDup_cons in Hnd as [Hni _].
  rewrite !elem_of_app in Hni. tauto.
Qed.



Lemma live_enqueue now rnd t d o q :
  live (enqueue now rnd t d o q) ≡ₚ nextRef q :: live q.
Proof.
  unfold enqueue. rewrite !live_unfold. qsimpl.
  rewrite sortJobs_perm. solve_Permutation.
Qed.

Lemma live_reinsert q i r d :
  timers q !! i = Some (r, d) -> live (reinsert i r q) ≡ₚ live q.
Proof.
  intros Ht. rewrite !live_unfold. qsimpl.
  rewrite (delete_Permutation (timers q) _ _ Ht) at 2. cbn. solve_Permutation.
Qed.

Lemma live_successBlock now res r i q :
  awaiting q !! i = Some r ->
  live (successBlock now res r (resumed i q)) ≡ₚ live q.
Proof.
  intros Ha. unfold successBlock. rewrite !live_unfold. qsimpl.
  rewrite (delete_Permutation (awaiting q) _ _ Ha) at 2. solve_Permutation.
Qed.

Lemma live_catchBlock_moved now e r q l :
  live q ≡ₚ l -> live (catchBlock now e r q) ≡ₚ r :: l.
Proof.
  intros Hl. unfold catchBlock. destruct (_ <=? _)%Z.
  - rewrite <- Hl. rewrite !live_unfold. qsimpl. solve_Permutation.
  - rewrite <- Hl. rewrite !live_unfold. qsimpl. solve_Permutation.
Qed.

Lemma live_catchBlock now e r i q :
  awaiting q !! i = Some r ->
  live (catchBlock now e r (resumed i q)) ≡ₚ live q.
Proof.
  intros Ha.
  rewrite (live_catchBlock_moved now e r (resumed i q)
             (jobs q ++ (timers q).*1 ++ delete i (awaiting q) ++ completed q ++ failed q));
    [|done].
  rewrite !live_unfold.
  rewrite (delete_Permutation (awaiting q) _ _ Ha) at 2. solve_Permutation.
Qed.

Lemma live_afterLoopBody now q r rest :
  jobs q = r :: rest ->
  live (afterLoopBody now r (with_jobs rest q)) ≡ₚ live q.
Proof.
  intros Hj. unfold afterLoopBody.
  destruct (0 <? _)%Z.
  - rewrite !live_unfold. qsimpl. rewrite Hj, fmap_app. cbn. solve_Permutation.
  - unfold afterProcessJob. destruct (callHandler _ _).
    + rewrite !live_unfold. qsimpl. rewrite Hj. solve_Permutation.
    + rewrite (live_catchBlock_moved now e r _
                 (rest ++ (timers q).*1 ++ awaiting q ++ completed q ++ failed q));
        [|done].
      rewrite live_unfold, Hj. done.
    + rewrite !live_unfold. qsimpl. rewrite Hj. solve_Permutation.
Qed.

Lemma live_cleanup now maxAge q :
  live (cleanup now maxAge q).1 `sublist_of` live q.
Proof.
  unfold cleanup. cbn [fst].
  match goal with |- context [if ?b then _ else _] => destruct b end;
    rewrite !live_unfold; qsimpl;
    repeat (apply sublist_app; [done|]);
    apply sublist_app; apply sublist_filter.
Qed.

(** What the blocks of [processJob] do to the fields of the queue. *)
Lemma dropped_elem r q x :
  x ∈ processing (dropFromProcessing r q) -> x ∈ processing q ∧ x ≠ r.
Proof.
  qsimpl. rewrite list_elem_of_filter. intros [Hid ?]. split; [done|].
  by intros ->.
Qed.

Lemma catchBlock_processing now e r q x :
  x ∈ processing (catchBlock now e r q) -> x ∈ processing q ∧ x ≠ r.
Proof.
  unfold catchBlock. destruct (_ <=? _)%Z; qsimpl;
    rewrite list_elem_of_filter; intros [Hid ?]; (split; [done|]); by intros ->.
Qed.

Lemma catchBlock_processing_sublist now e r q :
  processing (catchBlock now e r q) `sublist_of` processing q.
Proof. unfold catchBlock. destruct (_ <=? _)%Z; qsimpl; apply sublist_filter. Qed.

Lemma successBlock_processing now res r q x :
  x ∈ processing (successBlock now res r q) -> x ∈ processing q ∧ x ≠ r.
Proof.
  unfold successBlock. qsimpl.
  rewrite list_elem_of_filter; intros [Hid ?]; (split; [done|]); by intros ->.
Qed.

Lemma successBlock_processing_sublist now res r q :
  processing (successBlock now res r q) `sublist_of` processing q.
Proof. unfold successBlock. qsimpl. apply sublist_filter. Qed.

Lemma catchBlock_frame now e r q :
  name (catchBlock now e r q) = name q
  ∧ concurrency (catchBlock now e r q) = concurrency q
  ∧ handlers (catchBlock now e r q) = handlers q
  ∧ nextRef (catchBlock now e r q) = nextRef q
  ∧ timers (catchBlock now e r q) = timers q
  ∧ awaiting (catchBlock now e r q) = awaiting q
  ∧ completed (catchBlock now e r q) = completed q.
Proof. unfold catchBlock. by destruct (_ <=? _)%Z. Qed.

Lemma catchBlock_log now e r q x :
  x ∈ log (catchBlock now e r q) -> x ∈ log q ∨ entryRef x = Some r.
Proof.
  unfold catchBlock. destruct (_ <=? _)%Z; qsimpl;
    rewrite !elem_of_cons; intros [->|[->|?]]; auto.
Qed.

Lemma catchBlock_heap_other now e r q r' :
  r' ≠ r -> heap (catchBlock now e r q) r' = heap q r'.
Proof.
  intros Hne. unfold catchBlock. destruct (_ <=? _)%Z; qsimpl;
    by rewrite !upd_ne.
Qed.

Lemma afterLoopBody_frame now r q :
  name (afterLoopBody now r q) = name q
  ∧ concurrency (afterLoopBody now r q) = concurrency q
  ∧ handlers (afterLoopBody now r q) = handlers q
  ∧ nextRef (afterLoopBody now r q) = nextRef q
  ∧ completed (afterLoopBody now r q) = completed q.
Proof.
  unfold afterLoopBody. destruct (0 <? _)%Z; [done|].
  unfold afterProcessJob. destruct (callHandler _ _); try done.
  destruct (catchBlock_frame now e r (beginJob now r q)) as (->&->&->&->&_&_&->).
  done.
Qed.

Lemma afterLoopBody_heap_other now r q r' :
  r' ≠ r -> heap (afterLoopBody now r q) r' = heap q r'.
Proof.
  intros Hne. unfold afterLoopBody. destruct (0 <? _)%Z; [done|].
  unfold afterProcessJob. destruct (callHandler _ _); qsimpl;
    rewrite ?catchBlock_heap_other by done; qsimpl; by rewrite ?upd_ne.
Qed.

Lemma afterLoopBody_log now r q x :
  x ∈ log (afterLoopBody now r q) -> x ∈ log q ∨ entryRef x = Some r.
Proof.
  unfold afterLoopBody. destruct (0 <? _)%Z; [auto|].
  unfold afterProcessJob. destruct (callHandler _ _); qsimpl.
  - rewrite elem_of_cons. intros [->|?]; auto.
  - intros [H|?]%catchBlock_log; [|auto]. qsimpl.
    apply elem_of_cons in H as [->|?]; auto.
  - rewrite elem_of_cons. intros [->|?]; auto.
Qed.

Lemma wellFormed_new queueName limit : wellFormed (newQueue queueName limit).
Proof.
  split; cbn; try (intros; set_solver); try constructor. lia.
Qed.

Lemma wellFormed_flag q b : wellFormed q -> wellFormed (with_isProcessing b q).
Proof. by intros []. Qed.

Lemma wellFormed_process q t h : wellFormed q -> wellFormed (process t h q).
Proof. by intros []. Qed.

Lemma wellFormed_enqueue q now rnd t d o :
  wellFormed q -> wellFormed (enqueue now rnd t d o q).
Proof.
  intros [Hnd Hal Hsl Hsn Hb Hlog]. split.
  - rewrite live_enqueue. apply NoDup_cons. split; [|done].
    intros Hin%Hal. lia.
  - intros r. rewrite live_enqueue, elem_of_cons. unfold enqueue. qsimpl.
    intros [->|?%Hal]; lia.
  - done.
  - done.
  - done.
  - intros e r. unfold enqueue. qsimpl. rewrite elem_of_cons.
    intros [->|He] Hr.
    + cbn in Hr. injection Hr as <-. lia.
    + specialize (Hlog _ _ He Hr). lia.
Qed.

Lemma wellFormed_reinsert q i r d :
  wellFormed q -> timers q !! i = Some (r, d) -> wellFormed (reinsert i r q).
Proof.
  intros [Hnd Hal Hsl Hsn Hb Hlog] Ht. split.
  - by rewrite live_reinsert.
  - intros r'. rewrite live_reinsert by done. apply Hal.
  - done.
  - done.
  - done.
  - done.
Qed.

Lemma wellFormed_successBlock q now res i r :
  wellFormed q -> awaiting q !! i = Some r ->
  wellFormed (successBlock now res r (resumed i q)).
Proof.
  intros [Hnd Hal Hsl Hsn Hb Hlog] Ha.
  assert (Hr : r < nextRef q).
  { apply Hal. rewrite live_unfold, !elem_of_app.
    right; right; left. by eapply list_elem_of_lookup_2. }
  split.
  - by rewrite live_successBlock.
  - intros r'. rewrite live_successBlock by done. apply Hal.
  - intros x [Hx Hne]%successBlock_processing. qsimpl.
    apply Hsl in Hx. rewrite (delete_Permutation _ _ _ Ha) in Hx.
    apply elem_of_cons in Hx as [?|?]; done.
  - eapply sublist_NoDup; [|apply successBlock_processing_sublist]; done.
  - etrans; [apply sublist_length, successBlock_processing_sublist|done].
  - intros e r'. unfold successBlock. qsimpl. rewrite elem_of_cons.
    intros [->|He] Hr'; [cbn in Hr'; by injection Hr' as <-|eauto].
Qed.

Lemma wellFormed_catchBlock q now e i r :
  wellFormed q -> awaiting q !! i = Some r ->
  wellFormed (catchBlock now e r (resumed i q)).
Proof.
  intros [Hnd Hal Hsl Hsn Hb Hlog] Ha.
  assert (Hr : r < nextRef q).
  { apply Hal. rewrite live_unfold, !elem_of_app.
    right; right; left. by eapply list_elem_of_lookup_2. }
  destruct (catchBlock_frame now e r (resumed i q)) as (_&Hc&_&Hn&_&Haw&_).
  split.
  - by rewrite live_catchBlock.
  - intros r'. rewrite live_catchBlock, Hn by done. apply Hal.
  - intros x [Hx Hne]%catchBlock_processing. rewrite Haw. qsimpl.
    apply Hsl in Hx. rewrite (delete_Permutation _ _ _ Ha) in Hx.
    apply elem_of_cons in Hx as [?|?]; done.
  - eapply sublist_NoDup; [|apply catchBlock_processing_sublist]; done.
  - rewrite Hc. etrans; [apply sublist_length, catchBlock_processing_sublist|done].
  - intros x r' [Hx|Hx]%catchBlock_log Hr'; rewrite Hn; qsimpl; [eauto|].
    rewrite Hx in Hr'. by injection Hr' as <-.
Qed.

Lemma wellFormed_cleanup q now maxAge :
  wellFormed q -> wellFormed (cleanup now maxAge q).1.
Proof.
  intros [Hnd Hal Hsl Hsn Hb Hlog].
  pose proof (live_cleanup now maxAge q) as Hsub.
  split.
  - eapply sublist_NoDup; [|exact Hsub]; done.
  - intros r Hr. eapply elem_of_sublist in Hr; [|done].
    apply Hal in Hr. unfold cleanup. cbn [fst].
    by match goal with |- context [if ?b then _ else _] => destruct b end.
  - unfold cleanup. cbn [fst].
    by match goal with |- context [if ?b then _ else _] => destruct b end.
  - unfold cleanup. cbn [fst].
    by match goal with |- context [if ?b then _ else _] => destruct b end.
  - unfold cleanup. cbn [fst].
    by match goal with |- context [if ?b then _ else _] => destruct b end.
  - intros e r. unfold cleanup. cbn [fst].
    match goal with |- context [if ?b then _ else _] => destruct b end;
      qsimpl; [|apply Hlog].
    rewrite elem_of_cons. intros [->|?]; [done|eauto].
Qed.

Lemma wellFormed_afterLoopBody now q r rest :
  wellFormed q -> jobs q = r :: rest ->
  length (processing q) < concurrency q ->
  wellFormed (afterLoopBody now r (with_jobs rest q)).
Proof.
  intros [Hnd Hal Hsl Hsn Hb Hlog] Hj Hlt.
  destruct (head_elsewhere q r rest Hnd Hj) as (Hr1&Hr2&Hr3&Hr4&Hr5).
  assert (Hr : r < nextRef q).
  { apply Hal. rewrite live_unfold, Hj. set_solver. }
  destruct (afterLoopBody_frame now r (with_jobs rest q)) as (_&Hc&_&Hn&_).
  split.
  - by rewrite live_afterLoopBody.
  - intros r'. rewrite live_afterLoopBody, Hn by done. apply Hal.
  - unfold afterLoopBody. destruct (0 <? _)%Z; [done|].
    unfold afterProcessJob. destruct (callHandler _ _); qsimpl.
    + intros x. rewrite !elem_of_app. intros [?|?]; auto.
    + intros x [Hx Hne]%catchBlock_processing.
      destruct (catchBlock_frame now e r (beginJob now r (with_jobs rest q)))
        as (_&_&_&_&_&->&_).
      qsimpl. apply elem_of_app in Hx as [?|?]; [auto|set_solver].
    + intros x. rewrite !elem_of_app. intros [?|?]; auto.
  - assert (NoDup (processing q ++ [r])).
    { apply NoDup_app. split_and!; [done| |apply NoDup_singleton].
      intros x Hx ->%list_elem_of_singleton. auto. }
    unfold afterLoopBody. destruct (0 <? _)%Z; [done|].
    unfold afterProcessJob. destruct (callHandler _ _); qsimpl; try done.
    eapply sublist_NoDup; [|apply catchBlock_processing_sublist]; done.
  - rewrite Hc. qsimpl.
    unfold afterLoopBody. destruct (0 <? _)%Z; [done|].
    unfold afterProcessJob. destruct (callHandler _ _); qsimpl;
      rewrite ?length_app; cbn; try lia.
    etrans; [apply sublist_length, catchBlock_processing_sublist|].
    qsimpl. rewrite length_app. cbn. lia.
  - intros x r' [Hx|Hx]%afterLoopBody_log Hr'; rewrite Hn; qsimpl; [eauto|].
    rewrite Hx in Hr'. by injection Hr' as <-.
Qed.

Lemma reach_wellFormed allowed q : reach allowed q -> wellFormed q.
Proof.
  revert q. apply reach_rule; intros.
  - apply wellFormed_new.
  - by apply wellFormed_flag.
  - by eapply wellFormed_afterLoopBody.
  - by apply wellFormed_process.
  - by apply wellFormed_enqueue.
  - by eapply wellFormed_reinsert.
  - by apply wellFormed_successBlock.
  - by apply wellFormed_catchBlock.
  - by apply wellFormed_cleanup.
Qed.

(** ** Every job follows [jobStep] *)

Lemma countLog_cons p e l :
  countLog p (e :: l) = (if p e then 1 else 0) + countLog p l.
Proof. unfold countLog. cbn. by destruct (p e). Qed.

Lemma countLog_fresh (p : ref -> LogEntry -> bool) l n :
  (forall e r, p r e = true -> entryRef e = Some r) ->
  (forall e r, e ∈ l -> entryRef e = Some r -> r < n) ->
  countLog (p n) l = 0.
Proof.
  intros Hp. induction l as [|e l IH]; intros Hl; [done|].
  rewrite countLog_cons, IH by (intros; eapply Hl; [by right|done]).
  destruct (p n e) eqn:He; [|done].
  apply Hp in He. apply Hl in He; [lia|by left].
Qed.

Lemma isStarted_ref e r : isStarted r e = true -> entryRef e = Some r.
Proof. destruct e; cbn; try done. by intros ->%bool_decide_eq_true. Qed.

Lemma isAttemptFailed_ref e r : isAttemptFailed r e = true -> entryRef e = Some r.
Proof. destruct e; cbn; try done. by intros ->%bool_decide_eq_true. Qed.

Lemma isCompleted_ref e r : isCompleted r e = true -> entryRef e = Some r.
Proof. destruct e; cbn; try done. by intros ->%bool_decide_eq_true. Qed.

Lemma isFailedPermanently_ref e r :
  isFailedPermanently r e = true -> entryRef e = Some r.
Proof. destruct e; cbn; try done. by intros ->%bool_decide_eq_true. Qed.

Ltac count_simpl :=
  unfold view, invocations, failures, successes; qsimpl;
  rewrite ?countLog_cons;
  cbn [isStarted isAttemptFailed isCompleted isFailedPermanently];
  rewrite ?bool_decide_eq_true_2 by done;
  rewrite ?bool_decide_eq_false_2 by (by intros ?; subst);
  cbn [Nat.add].

Lemma view_fresh q :
  wellFormed q ->
  invocations (nextRef q) q = 0 ∧ failures (nextRef q) q = 0
  ∧ successes (nextRef q) q = 0.
Proof.
  intros Hwf. unfold invocations, failures, successes.
  split_and!; apply countLog_fresh; eauto using isStarted_ref,
    isAttemptFailed_ref, isCompleted_ref, wf_log.
Qed.

Lemma view_flag q b r : view (with_isProcessing b q) r = view q r.
Proof. done. Qed.

Lemma view_process q t h r : view (process t h q) r = view q r.
Proof. done. Qed.

Lemma view_cleanup q now maxAge r : view (cleanup now maxAge q).1 r = view q r.
Proof.
  unfold cleanup. cbn [fst].
  match goal with |- context [if ?b then _ else _] => destruct b end; [|done].
  by count_simpl.
Qed.

Lemma view_enqueue_other q now rnd t d o r :
  r ≠ nextRef q -> view (enqueue now rnd t d o q) r = view q r.
Proof. intros Hne. unfold enqueue. count_simpl. by rewrite upd_ne. Qed.

Lemma view_enqueue_new q now rnd t d o :
  wellFormed q ->
  view (enqueue now rnd t d o q) (nextRef q)
  = Build_View (newJob q now rnd t d o) 0 0 0.
Proof.
  intros (Hi&Hf&Hs)%view_fresh. unfold enqueue. count_simpl.
  rewrite upd_eq. unfold invocations, failures, successes in *.
  by rewrite Hi, Hf, Hs.
Qed.

Lemma view_reinsert_other q i r r' :
  r' ≠ r -> view (reinsert i r q) r' = view q r'.
Proof. intros Hne. count_simpl. by rewrite upd_ne. Qed.

Lemma view_reinsert q i r :
  view (reinsert i r q) r
  = Build_View (jobTimerFired (heap q r)) (invocations r q) (failures r q)
      (successes r q).
Proof. count_simpl. by rewrite upd_eq. Qed.

Lemma view_successBlock_other q now res r r' :
  r' ≠ r -> view (successBlock now res r q) r' = view q r'.
Proof. intros Hne. unfold successBlock. count_simpl. by rewrite upd_ne. Qed.

Lemma view_successBlock q now res r :
  view (successBlock now res r q) r
  = Build_View (jobSucceed now res (heap q r)) (invocations r q) (failures r q)
      (S (successes r q)).
Proof. unfold successBlock. count_simpl. by rewrite upd_eq. Qed.

Lemma view_catchBlock_other q now e r r' :
  r' ≠ r -> view (catchBlock now e r q) r' = view q r'.
Proof.
  intros Hne. unfold catchBlock. destruct (_ <=? _)%Z; count_simpl;
    by rewrite !upd_ne.
Qed.

(** The two ways out of the [catch] block. *)
Lemma catchBlock_cases q now e r :
  let j := heap q r in
  ((job_maxAttempts j <= Z.of_nat (S (job_attempts j)))%Z
   ∧ jobs (catchBlock now e r q) = jobs q
   ∧ failed (catchBlock now e r q) = failed q ++ [r]
   ∧ view (catchBlock now e r q) r
     = Build_View (jobFail now (jobCaught e j)) (invocations r q)
         (S (failures r q)) (successes r q))
  ∨ ((Z.of_nat (S (job_attempts j)) < job_maxAttempts j)%Z
     ∧ jobs (catchBlock now e r q) = r :: jobs q
     ∧ failed (catchBlock now e r q) = failed q
     ∧ view (catchBlock now e r q) r
       = Build_View (jobRetry (jobCaught e j)) (invocations r q)
           (S (failures r q)) (successes r q)).
Proof.
  intros j. unfold catchBlock. qsimpl. rewrite !upd_eq.
  change (job_maxAttempts (jobCaught e (heap q r))) with (job_maxAttempts j).
  change (job_attempts (jobCaught e (heap q r))) with (S (job_attempts j)).
  destruct (Z.leb_spec (job_maxAttempts j) (Z.of_nat (S (job_attempts j))));
    [left|right]; (split; [done|]); split_and!; try done;
    count_simpl; by rewrite !upd_eq.
Qed.

Lemma located_live q r p : p ≠ Removed -> located q r p -> r ∈ live q.
Proof.
  rewrite live_unfold, !elem_of_app.
  destruct p; cbn; auto; [|done].
  intros _ H. right; left. apply list_elem_of_fmap. by exists (r, d).
Qed.

Lemma timer_fst (l : list (ref * Z)) r d : (r, d) ∈ l -> r ∈ l.*1.
Proof. intros H. apply list_elem_of_fmap. by exists (r, d). Qed.

Lemma located_removed_perm q q' r :
  live q' ≡ₚ live q -> nextRef q' = nextRef q ->
  located q' r Removed -> located q r Removed.
Proof. cbn. intros -> ->. done. Qed.

Section JobInvariant.
Variable Φ : Place -> View -> Prop.
Variable allowed : JobQueue -> Event -> Prop.

Hypothesis Φ_new : forall q now rnd t d o,
  allowed q (EvAdd now rnd t d o) ->
  Φ InJobs (Build_View (newJob q now rnd t d o) 0 0 0).
Hypothesis Φ_step : forall p v p' v',
  Φ p v -> jobStep (p, v) (p', v') -> Φ p' v'.

Lemma jobsSatisfy_enqueue q now rnd t d o :
  wellFormed q -> jobsSatisfy Φ q -> allowed q (EvAdd now rnd t d o) ->
  jobsSatisfy Φ (enqueue now rnd t d o q).
Proof.
  intros Hwf HI Hal r p Hloc.
  assert (Hfresh : nextRef q ∉ live q).
  { intros H%(wf_alloc _ Hwf). lia. }
  destruct (decide (r = nextRef q)) as [->|Hne].
  - rewrite view_enqueue_new by done.
    destruct p; [by apply Φ_new|..]; exfalso;
      try (apply Hfresh;
           match type of Hloc with
           | located _ ?r ?p => by apply (located_live q r p); [|exact Hloc]
           end).
    destruct Hloc as [_ Hn]. apply Hn. rewrite live_enqueue. by left.
  - rewrite view_enqueue_other by done. apply HI.
    destruct p; try done.
    + unfold enqueue in Hloc. cbn [located] in *. qsimpl.
      rewrite sortJobs_perm in Hloc. set_solver.
    + destruct Hloc as [Hlt Hn]. rewrite live_enqueue in Hn.
      unfold enqueue in Hlt. qsimpl. split; [lia|set_solver].
Qed.

Lemma jobsSatisfy_reinsert q i r d :
  wellFormed q -> jobsSatisfy Φ q -> timers q !! i = Some (r, d) ->
  jobsSatisfy Φ (reinsert i r q).
Proof.
  intros Hwf HI Ht r' p Hloc.
  destruct (timer_elsewhere q i r d (wf_nodup _ Hwf) Ht) as (H1&H2&H3&H4&H5).
  destruct (decide (r' = r)) as [->|Hne].
  - rewrite view_reinsert.
    destruct p; cbn [located] in Hloc; qsimpl; try done.
    + eapply Φ_step; [|apply js_fire].
      apply (HI r (OnTimer d)). by eapply list_elem_of_lookup_2.
    + by apply timer_fst in Hloc.
    + destruct Hloc as [_ Hn]. destruct Hn. rewrite live_unfold. qsimpl.
      set_solver.
  - rewrite view_reinsert_other by done. apply HI.
    destruct p; cbn [located] in *; qsimpl; try done.
    + set_solver.
    + by eapply list_elem_of_delete_inv.
    + by rewrite live_reinsert in Hloc.
Qed.

Lemma jobsSatisfy_successBlock q now res i r :
  wellFormed q -> jobsSatisfy Φ q -> awaiting q !! i = Some r ->
  jobsSatisfy Φ (successBlock now res r (resumed i q)).
Proof.
  intros Hwf HI Ha r' p Hloc.
  destruct (awaiting_elsewhere q i r (wf_nodup _ Hwf) Ha) as (H1&H2&H3&H4&H5).
  destruct (decide (r' = r)) as [->|Hne].
  - rewrite view_successBlock.
    destruct p; try (unfold successBlock in Hloc; cbn [located] in Hloc; qsimpl;
      done).
    + unfold successBlock in Hloc; cbn [located] in Hloc; qsimpl.
      by apply timer_fst in Hloc.
    + eapply Φ_step; [|apply js_fulfil].
      apply (HI r InHandler). by eapply list_elem_of_lookup_2.
    + destruct Hloc as [_ Hn]. destruct Hn. unfold successBlock.
      rewrite live_unfold. qsimpl. set_solver.
  - rewrite view_successBlock_other by done. apply HI.
    destruct p; try (unfold successBlock in Hloc; cbn [located] in *; qsimpl;
      done).
    + unfold successBlock in Hloc; cbn [located] in *; qsimpl.
      by eapply list_elem_of_delete_inv.
    + unfold successBlock in Hloc; cbn [located] in *; qsimpl. set_solver.
    + destruct Hloc as [Hlt Hn]. rewrite live_successBlock in Hn by done.
      done.
Qed.

(** The [catch] block for a job [r] that is held nowhere else. *)
Lemma jobsSatisfy_catch_moved (q0 q : JobQueue) now e r (p0 : Place) v0 :
  (forall r' p, r' ≠ r -> located q r' p -> located q0 r' p) ->
  (forall r', r' ≠ r -> view q r' = view q0 r') ->
  (forall p, p ≠ Removed -> ¬ located q r p) ->
  jobsSatisfy Φ q0 ->
  Φ p0 v0 ->
  (forall p' j',
     (p' = InFailed ∧ j' = jobFail now (jobCaught e (heap q r))
      ∧ (job_maxAttempts (heap q r) <= Z.of_nat (S (job_attempts (heap q r))))%Z)
     ∨ (p' = InJobs ∧ j' = jobRetry (jobCaught e (heap q r))
        ∧ (Z.of_nat (S (job_attempts (heap q r))) < job_maxAttempts (heap q r))%Z) ->
     jobStep (p0, v0)
       (p', Build_View j' (invocations r q) (S (failures r q)) (successes r q))) ->
  jobsSatisfy Φ (catchBlock now e r q).
Proof.
  intros Hloc0 Hview Hnot HI Hv0 Hstep r' p Hloc.
  destruct (catchBlock_frame now e r q) as (_&_&_&Hn&Ht&Ha&Hc).
  destruct (decide (r' = r)) as [->|Hne].
  - destruct (catchBlock_cases q now e r) as [(Hle&Hj&Hf&->)|(Hlt&Hj&Hf&->)].
    + destruct p; cbn [located] in Hloc.
      * rewrite Hj in Hloc. by destruct (Hnot InJobs).
      * rewrite Ht in Hloc. by destruct (Hnot (OnTimer d)).
      * rewrite Ha in Hloc. by destruct (Hnot InHandler).
      * rewrite Hc in Hloc. by destruct (Hnot InCompleted).
      * eapply Φ_step; [exact Hv0|]. apply Hstep. left. done.
      * destruct Hloc as [_ Hl]. destruct Hl.
        rewrite live_unfold, Hf. set_solver.
    + destruct p; cbn [located] in Hloc.
      * eapply Φ_step; [exact Hv0|]. apply Hstep. right. done.
      * rewrite Ht in Hloc. by destruct (Hnot (OnTimer d)).
      * rewrite Ha in Hloc. by destruct (Hnot InHandler).
      * rewrite Hc in Hloc. by destruct (Hnot InCompleted).
      * rewrite Hf in Hloc. by destruct (Hnot InFailed).
      * destruct Hloc as [_ Hl]. destruct Hl.
        rewrite live_unfold, Hj. set_solver.
  - rewrite view_catchBlock_other, Hview by done. apply HI, Hloc0; [done|].
    destruct (decide (p = Removed)) as [->|Hp].
    { destruct Hloc as [Hlt Hl]. rewrite Hn in Hlt. split; [done|].
      rewrite (live_catchBlock_moved now e r q (live q)) in Hl by done.
      intros Hin. apply Hl. by right. }
    destruct (catchBlock_cases q now e r) as [(Hle&Hj&Hf&_)|(Hlt&Hj&Hf&_)];
      destruct p; cbn [located] in *; rewrite ?Hj, ?Ht, ?Ha, ?Hc, ?Hf in Hloc;
      try done.
    + apply elem_of_app in Hloc as [?|Hl]; [done|].
      by apply list_elem_of_singleton in Hl.
    + apply elem_of_cons in Hloc as [?|?]; done.
Qed.

Lemma jobsSatisfy_catchBlock q now e i r :
  wellFormed q -> jobsSatisfy Φ q -> awaiting q !! i = Some r ->
  jobsSatisfy Φ (catchBlock now e r (resumed i q)).
Proof.
  intros Hwf HI Ha.
  destruct (awaiting_elsewhere q i r (wf_nodup _ Hwf) Ha) as (H1&H2&H3&H4&H5).
  eapply (jobsSatisfy_catch_moved q (resumed i q) now e r InHandler (view q r));
    try done.
  - intros r' p Hne. destruct p; cbn [located]; qsimpl; try done.
    + apply list_elem_of_delete_inv.
    + intros [Hlt Hl]. split; [done|]. intros Hin. apply Hl.
      rewrite live_unfold in *. qsimpl.
      rewrite (delete_Permutation _ _ _ Ha) in Hin. set_solver.
  - intros p Hp. destruct p; cbn [located]; qsimpl; try done.
    by intros ?%timer_fst.
  - apply (HI r InHandler). by eapply list_elem_of_lookup_2.
  - intros p' j' [(->&->&?)|(->&->&?)]; qsimpl.
    + by apply js_reject_fail.
    + by apply js_reject_retry.
Qed.

Lemma jobsSatisfy_afterLoopBody now q r rest :
  wellFormed q -> jobsSatisfy Φ q -> jobs q = r :: rest ->
  jobsSatisfy Φ (afterLoopBody now r (with_jobs rest q)).
Proof.
  intros Hwf HI Hj.
  destruct (head_elsewhere q r rest (wf_nodup _ Hwf) Hj) as (H1&H2&H3&H4&H5).
  assert (Hr : Φ InJobs (view q r)).
  { apply (HI r InJobs). cbn. rewrite Hj. by left. }
  assert (Hother : forall r' p, r' ≠ r -> located (with_jobs rest q) r' p -> located q r' p).
  { intros r' p Hne. destruct p; cbn [located]; qsimpl; try done.
    - rewrite Hj. by right.
    - intros [Hlt Hl]. split; [done|]. rewrite live_unfold in *. qsimpl.
      rewrite Hj. set_solver. }
  intros r' p Hloc.
  destruct (decide (p = Removed)) as [->|Hp].
  { (* a job removed earlier stays removed and untouched *)
    destruct Hloc as [Hlt Hl].
    destruct (afterLoopBody_frame now r (with_jobs rest q)) as (_&_&_&Hn&_).
    rewrite live_afterLoopBody in Hl by done. rewrite Hn in Hlt.
    assert (Hne : r' ≠ r).
    { intros ->. apply Hl. rewrite live_unfold, Hj. by left. }
    assert (Hv : view (afterLoopBody now r (with_jobs rest q)) r' = view q r').
    { unfold afterLoopBody. destruct (0 <? _)%Z; [done|].
      unfold afterProcessJob. destruct (callHandler _ _).
      - count_simpl. by rewrite upd_ne.
      - rewrite view_catchBlock_other by done. count_simpl. by rewrite upd_ne.
      - count_simpl. by rewrite upd_ne. }
    rewrite Hv. by apply (HI r' Removed). }
  revert r' p Hloc Hp.
  unfold afterLoopBody. destruct (Z.ltb_spec 0 (job_delay (heap (with_jobs rest q) r))) as [Hd|Hd].
  { (* deferred *)
    intros r' p Hloc Hp. change (view (setTimeout r _ (with_jobs rest q)) r') with (view q r').
    destruct (decide (r' = r)) as [->|Hne].
    - destruct p; cbn [located] in Hloc; qsimpl; try done.
      apply elem_of_app in Hloc as [?%timer_fst|Hl]; [done|].
      apply list_elem_of_singleton in Hl. injection Hl as ->.
      eapply Φ_step; [exact Hr|]. by apply js_defer.
    - apply HI, Hother; [done|].
      destruct p; cbn [located] in *; qsimpl; try done.
      apply elem_of_app in Hloc as [?|Hl]; [done|].
      apply list_elem_of_singleton in Hl. by injection Hl as -> ->. }
  unfold afterProcessJob.
  assert (Hsusp : forall r' p,
    located (with_awaiting (awaiting (beginJob now r (with_jobs rest q)) ++ [r])
       (beginJob now r (with_jobs rest q))) r' p -> p ≠ Removed ->
    Φ p (view (with_awaiting (awaiting (beginJob now r (with_jobs rest q)) ++ [r])
       (beginJob now r (with_jobs rest q))) r')).
  { intros r' p Hloc Hp. destruct (decide (r' = r)) as [->|Hne].
    - assert (Hv : view (with_awaiting (awaiting (beginJob now r (with_jobs rest q)) ++ [r])
                      (beginJob now r (with_jobs rest q))) r
              = Build_View (jobStart now (heap q r)) (S (invocations r q))
                  (failures r q) (successes r q)).
      { count_simpl. by rewrite upd_eq. }
      rewrite Hv.
      destruct p; cbn [located] in Hloc; qsimpl; try done.
      + by apply timer_fst in Hloc.
      + eapply Φ_step; [exact Hr|]. by apply js_suspend.
    - assert (Hv : view (with_awaiting (awaiting (beginJob now r (with_jobs rest q)) ++ [r])
                      (beginJob now r (with_jobs rest q))) r' = view q r').
      { count_simpl. by rewrite upd_ne. }
      rewrite Hv. apply HI, Hother; [done|].
      destruct p; cbn [located] in *; qsimpl; try done. set_solver. }
  destruct (callHandler _ _); [done| |done].
  intros r' p Hloc _. revert r' p Hloc.
  eapply (jobsSatisfy_catch_moved q (beginJob now r (with_jobs rest q)) now e r
            InJobs (view q r)); try done.
  - intros r' Hne. count_simpl. by rewrite upd_ne.
  - intros p Hp. destruct p; cbn [located]; qsimpl; try done.
    by intros ?%timer_fst.
  - intros p' j' [(->&->&?)|(->&->&?)]; qsimpl; rewrite !upd_eq in *;
      count_simpl.
    + by apply js_throw_fail.
    + by apply js_throw_retry.
Qed.

Lemma jobsSatisfy_cleanup q now maxAge :
  jobsSatisfy Φ q -> jobsSatisfy Φ (cleanup now maxAge q).1.
Proof.
  intros HI r p Hloc. rewrite view_cleanup.
  assert (Hn : nextRef (cleanup now maxAge q).1 = nextRef q).
  { unfold cleanup. cbn [fst].
    by match goal with |- context [if ?b then _ else _] => destruct b end. }
  assert (Hparts : jobs (cleanup now maxAge q).1 = jobs q
    ∧ timers (cleanup now maxAge q).1 = timers q
    ∧ awaiting (cleanup now maxAge q).1 = awaiting q
    ∧ completed (cleanup now maxAge q).1
      = filter (fun r => dateNotBefore (now - maxAge) (job_completedAt (heap q r)))
          (completed q)
    ∧ failed (cleanup now maxAge q).1
      = filter (fun r => dateNotBefore (now - maxAge) (job_failedAt (heap q r)))
          (failed q)).
  { unfold cleanup. cbn [fst].
    by match goal with |- context [if ?b then _ else _] => destruct b end. }
  destruct Hparts as (Ej&Et&Ea&Ec&Ef).
  destruct p; cbn [located] in Hloc; rewrite ?Ej, ?Et, ?Ea, ?Ec, ?Ef in Hloc.
  - by apply (HI r InJobs).
  - by apply (HI r (OnTimer d)).
  - by apply (HI r InHandler).
  - apply list_elem_of_filter in Hloc as [_ ?]. by apply (HI r InCompleted).
  - apply list_elem_of_filter in Hloc as [_ ?]. by apply (HI r InFailed).
  - destruct Hloc as [Hlt Hl]. rewrite Hn in Hlt.
    rewrite live_unfold, Ej, Et, Ea, Ec, Ef in Hl.
    destruct (decide (r ∈ completed q)) as [Hc|Hc].
    { eapply Φ_step; [by apply (HI r InCompleted)|apply js_sweep_completed]. }
    destruct (decide (r ∈ failed q)) as [Hf|Hf].
    { eapply Φ_step; [by apply (HI r InFailed)|apply js_sweep_failed]. }
    apply (HI r Removed). split; [done|].
    rewrite live_unfold. rewrite !elem_of_app in *.
    rewrite !list_elem_of_filter in Hl. tauto.
Qed.
End JobInvariant.

(** A property of a job and its place that holds when the job is built and
    is kept by every move of [jobStep] holds of every job ever enqueued,
    in every reachable state. *)
Theorem job_invariant (Φ : Place -> View -> Prop)
    (allowed : JobQueue -> Event -> Prop) :
  (forall q now rnd t d o,
     allowed q (EvAdd now rnd t d o) ->
     Φ InJobs (Build_View (newJob q now rnd t d o) 0 0 0)) ->
  (forall p v p' v', Φ p v -> jobStep (p, v) (p', v') -> Φ p' v') ->
  forall q, reach allowed q -> jobsSatisfy Φ q.
Proof.
  intros Hnew Hstep q Hreach.
  cut (wellFormed q ∧ jobsSatisfy Φ q); [tauto|].
  revert q Hreach. apply reach_rule.
  - intros. split; [apply wellFormed_new|].
    intros r p Hloc. destruct p; cbn in Hloc; try set_solver. lia.
  - intros q b [? HI]. split; [by apply wellFormed_flag|].
    intros r p Hloc. apply (HI r p). by destruct p.
  - intros now q r rest [? HI] Hj Hlt.
    split; [by eapply wellFormed_afterLoopBody|].
    by eapply jobsSatisfy_afterLoopBody.
  - intros q t h [? HI] _. split; [by apply wellFormed_process|].
    intros r p Hloc. apply (HI r p). by destruct p.
  - intros q now rnd t d o [? HI] Hal. split; [by apply wellFormed_enqueue|].
    by eapply jobsSatisfy_enqueue.
  - intros q now i r d [? HI] _ Ht. split; [by eapply wellFormed_reinsert|].
    by eapply jobsSatisfy_reinsert.
  - intros q now i r res [? HI] _ Ha.
    split; [by apply wellFormed_successBlock|].
    by eapply jobsSatisfy_successBlock.
  - intros q now i r e [? HI] _ Ha. split; [by apply wellFormed_catchBlock|].
    by eapply jobsSatisfy_catchBlock.
  - intros q now maxAge [? HI] _. split; [by apply wellFormed_cleanup|].
    by eapply jobsSatisfy_cleanup.
Qed.

(** Every job ever enqueued has a place. *)
Lemma located_total q r :
  r < nextRef q -> ∃ p, located q r p.
Proof.
  intros Hlt. destruct (decide (r ∈ live q)) as [Hl|Hl];
    [|by exists Removed].
  rewrite live_unfold, !elem_of_app in Hl.
  destruct Hl as [?|[Ht|[?|[?|?]]]];
    [by exists InJobs| |by exists InHandler|by exists InCompleted|by exists InFailed].
  apply list_elem_of_fmap in Ht as ([r' d]&->&?). by exists (OnTimer d).
Qed.

(** The job built by [add] is the one placed in the waiting array. *)
Lemma enqueue_places_job q now rnd jobType data o :
  nextRef q ∈ jobs (enqueue now rnd jobType data o q)
  ∧ heap (enqueue now rnd jobType data o q) (nextRef q)
    = newJob q now rnd jobType data o.
Proof.
  unfold enqueue. qsimpl. rewrite upd_eq. split; [|done].
  rewrite sortJobs_perm. set_solver.
Qed.

(** ** What a run leaves alone *)





(** ** Fields of a job and its place *)

Lemma placeFields_step p v p' v' :
  placeFields p v -> jobStep (p, v) (p', v') -> placeFields p' v'.
Proof. intros Hp Hs. inversion Hs; subst; cbn in *; eauto; tauto. Qed.

Lemma reach_placeFields allowed q :
  reach allowed q -> jobsSatisfy placeFields q.
Proof.
  apply job_invariant; [done|]. apply placeFields_step.
Qed.

(** ** Attempts are counted *)

Lemma attemptsCounted_step p v p' v' :
  attemptsCounted p v -> jobStep (p, v) (p', v') -> attemptsCounted p' v'.
Proof.
  unfold attemptsCounted. intros (Ha&Hs&Hi&Hb&Hd) Hstep.
  inversion Hstep; subst; cbn in *; split_and!; try done; try lia; auto;
    intros; try lia; try (rewrite Hs in * by done; lia).
Qed.

Lemma reach_attemptsCounted allowed q :
  (forall q ev, allowed q ev -> keepsAttempts q ev) ->
  reach allowed q -> jobsSatisfy attemptsCounted q.
Proof.
  intros Hal. apply job_invariant; [|apply attemptsCounted_step].
  intros q0 now rnd t d o Ho%Hal. cbn in Ho.
  unfold attemptsCounted, newJob, spread. cbn. rewrite Ho. cbn.
  split_and!; try done; [auto|lia].
Qed.


(** ** Bounded concurrency *)

(** C5.  In every reachable state of a queue constructed with concurrency
    [N], the processing array holds at most [N] jobs, and a job whose
    delay timer is pending is not in the processing array: it holds no
    slot while it waits. *)
Theorem concurrency_bound q :
  reachable q ->
  length (processing q) <= concurrency q
  ∧ forall r d, (r, d) ∈ timers q -> r ∉ processing q.
Proof.
  intros Hwf%reach_wellFormed. split; [apply Hwf|].
  intros r d Ht Hp.
  apply (wf_slots _ Hwf) in Hp.
  pose proof (wf_nodup _ Hwf) as Hnd. rewrite live_unfold in Hnd.
  apply NoDup_app in Hnd as (_&_&Hnd).
  apply NoDup_app in Hnd as (_&Hdis&_).
  apply (Hdis r); [by eapply timer_fst|]. set_solver.
Qed.

Lemma concurrency_bound_witness :
  reachable (after (take 5 busyDay) storyQueue)
  ∧ length (processing (after (take 5 busyDay) storyQueue)) <= 2
  ∧ forall r d, (r, d) ∈ timers (after (take 5 busyDay) storyQueue) ->
      r ∉ processing (after (take 5 busyDay) storyQueue).
Proof.
  assert (H : reachable (after (take 5 busyDay) storyQueue)).
  { apply reach_after; [by apply reach_module_queue|]. vm_compute. tauto. }
  split; [exact H|]. exact (concurrency_bound _ H).
Defined.

(** ** Cleanup *)







(** ** Construction of a job *)




(** ** A job without a handler *)




(** ** The job returned by [add] *)

(** C10, as stated, fails: with no handler registered and
    [{maxAttempts: 1}], the job that [add] returns is already failed; and
    with [{status: 'completed'}], added while the only slot is busy, the
    job that [add] returns has status [completed]. *)
Lemma add_returns_failed_job_counterexample :
  match add 1000 "k3x9" "unregistered" "x" (withMaxAttempts 1) (newQueue "q" 1) with
  | Returned (q', r) =>
      job_status (heap q' r) = Failed
      ∧ ¬ (job_status (heap q' r) = Waiting ∨ job_status (heap q' r) = Processing)
  | _ => False
  end
  ∧ match add 1001 "b" "echo" "y" (withStatus Completed)
            (after [EvAdd 1000 "a" "echo" "x" noOptions] echoQueue) with
    | Returned (q', r) => job_status (heap q' r) = Completed
    | _ => False
    end.
Proof. vm_compute. split; [|done]. split; [done|]. by intros [|]. Qed.

Lemma afterLoopBody_handlers now r q :
  handlers (afterLoopBody now r q) = handlers q.
Proof. by destruct (afterLoopBody_frame now r q) as (_&_&->&_). Qed.

Lemma catchBlock_status now e r q :
  job_status (heap (catchBlock now e r q) r) = Failed
  ∨ job_status (heap (catchBlock now e r q) r) = Waiting.
Proof.
  destruct (catchBlock_cases q now e r) as [(_&_&_&Hv)|(_&_&_&Hv)];
    apply (f_equal v_job) in Hv; cbn [v_job view] in Hv; rewrite Hv; auto.
Qed.

Lemma catchBlock_fixed now e r q :
  job_type (heap (catchBlock now e r q) r) = job_type (heap q r)
  ∧ job_data (heap (catchBlock now e r q) r) = job_data (heap q r)
  ∧ job_id (heap (catchBlock now e r q) r) = job_id (heap q r)
  ∧ job_priority (heap (catchBlock now e r q) r) = job_priority (heap q r)
  ∧ job_maxAttempts (heap (catchBlock now e r q) r) = job_maxAttempts (heap q r).
Proof.
  destruct (catchBlock_cases q now e r) as [(_&_&_&Hv)|(_&_&_&Hv)];
    apply (f_equal v_job) in Hv; cbn [v_job view] in Hv; by rewrite Hv.
Qed.

(** One iteration of the loop leaves the status of any job at [waiting],
    [processing] or [failed] if it was so. *)
Lemma afterLoopBody_unfinished now r q r0 :
  (job_status (heap q r0) = Waiting ∨ job_status (heap q r0) = Processing
   ∨ job_status (heap q r0) = Failed) ->
  let q' := afterLoopBody now r q in
  job_status (heap q' r0) = Waiting ∨ job_status (heap q' r0) = Processing
  ∨ job_status (heap q' r0) = Failed.
Proof.
  intros H q'. subst q'. destruct (decide (r0 = r)) as [->|Hne];
    [|by rewrite afterLoopBody_heap_other].
  unfold afterLoopBody. destruct (0 <? _)%Z; [done|].
  unfold afterProcessJob. destruct (callHandler _ _).
  - qsimpl. rewrite upd_eq. auto.
  - destruct (catchBlock_status now e r (beginJob now r q)) as [->| ->]; auto.
  - qsimpl. rewrite upd_eq. auto.
Qed.

(** With a handler for its type that does not throw before returning, a
    job is never failed by an iteration of the loop. *)
Lemma afterLoopBody_not_failed now r q r0 h :
  handlers q !! job_type (heap q r0) = Some h ->
  (forall d j, h d j = ReturnsPromise) ->
  (job_status (heap q r0) = Waiting ∨ job_status (heap q r0) = Processing) ->
  let q' := afterLoopBody now r q in
  handlers q' !! job_type (heap q' r0) = Some h
  ∧ (job_status (heap q' r0) = Waiting ∨ job_status (heap q' r0) = Processing).
Proof.
  intros Hh Hasync H q'. subst q'. rewrite afterLoopBody_handlers.
  destruct (decide (r0 = r)) as [->|Hne];
    [|by rewrite afterLoopBody_heap_other].
  unfold afterLoopBody. destruct (0 <? _)%Z; [done|].
  unfold afterProcessJob.
  assert (Hcall : callHandler r (beginJob now r q) = Returned ()).
  { unfold callHandler.
    replace (heap (beginJob now r q) r) with (jobStart now (heap q r))
      by (qsimpl; by rewrite upd_eq).
    change (handlers (beginJob now r q)) with (handlers q).
    cbn [job_type jobStart set_startedAt set_status].
    by rewrite Hh, Hasync. }
  rewrite Hcall. qsimpl. rewrite upd_eq. cbn. auto.
Qed.

Lemma startProcessing_keeps (I : JobQueue -> Prop) now q :
  (forall q b, I q -> I (with_isProcessing b q)) ->
  (forall q r rest, I q -> jobs q = r :: rest ->
     I (afterLoopBody now r (with_jobs rest q))) ->
  I q ->
  ∃ q', startProcessing callDepth now q = Returned q' ∧ I q'.
Proof.
  intros Hflag Hbody HI.
  destruct (isProcessing q) eqn:Hb.
  { exists q. split; [|done]. by apply startProcessing_busy. }
  destruct (startProcessing_returns now q Hb) as (q1&Hloop&Hsp).
  eexists. split; [exact Hsp|].
  apply Hflag.
  eapply (whileLoop_rule I) in Hloop as (?&_); eauto.
Qed.

(** C10, amended.  [add] runs the scheduler before it returns.  When
    [options] has no [status] key, the job it returns has status [waiting],
    [processing] or [failed] at that moment, never [completed]; it is
    [waiting] or [processing] whenever a handler is registered for its type
    that does not throw before returning its promise; and it is
    [processing] with [startedAt] set when moreover the queue was idle with
    a free slot and the job has no delay. *)
Theorem add_returns_unfinished_job q now rnd jobType data o :
  o_status o = None ->
  let job := newJob q now rnd jobType data o in
  ∃ q', add now rnd jobType data o q = Returned (q', nextRef q)
    ∧ (job_status (heap q' (nextRef q)) = Waiting
       ∨ job_status (heap q' (nextRef q)) = Processing
       ∨ job_status (heap q' (nextRef q)) = Failed)
    ∧ (forall h,
         handlers q !! job_type job = Some h ->
         (forall d j, h d j = ReturnsPromise) ->
         (job_status (heap q' (nextRef q)) = Waiting
          ∨ job_status (heap q' (nextRef q)) = Processing)
         ∧ (isProcessing q = false -> jobs q = [] ->
            length (processing q) < concurrency q ->
            (job_delay job <= 0)%Z ->
            job_status (heap q' (nextRef q)) = Processing
            ∧ job_startedAt (heap q' (nextRef q)) = Some now)).
Proof.
  intros Hst job.
  assert (H0 : heap (enqueue now rnd jobType data o q) (nextRef q) = job)
    by apply enqueue_places_job.
  assert (Hw : job_status job = Waiting).
  { subst job. unfold newJob, spread. cbn. by rewrite Hst. }
  destruct (startProcessing_keeps
    (fun q1 =>
       (job_status (heap q1 (nextRef q)) = Waiting
        ∨ job_status (heap q1 (nextRef q)) = Processing
        ∨ job_status (heap q1 (nextRef q)) = Failed)
       ∧ forall h, handlers q !! job_type job = Some h ->
           (forall d j, h d j = ReturnsPromise) ->
           handlers q1 !! job_type (heap q1 (nextRef q)) = Some h
           ∧ (job_status (heap q1 (nextRef q)) = Waiting
              ∨ job_status (heap q1 (nextRef q)) = Processing))
    now (enqueue now rnd jobType data o q)) as (q'&Hsp&HA&HB).
  { intros q1 b. done. }
  { intros q1 r rest [HA HB] Hj. split.
    - by apply afterLoopBody_unfinished.
    - intros h Hh Hasync. destruct (HB h Hh Hasync) as [H1 H2].
      by apply afterLoopBody_not_failed. }
  { rewrite H0, Hw. split; [auto|]. intros h Hh _. split; [|auto]. done. }
  exists q'. split; [unfold add; by rewrite Hsp|]. split; [done|].
  intros h Hh Hasync. split; [by apply (HB h)|].
  intros Hidle Hjobs Hfree Hdelay.
  (* the run, step by step *)
  set (q0 := enqueue now rnd jobType data o q) in *.
  assert (Hj0 : jobs q0 = [nextRef q]).
  { subst q0. unfold enqueue. qsimpl. by rewrite Hjobs. }
  destruct (startProcessing_returns now q0) as (q1&Hloop&Hsp'); [done|].
  rewrite Hsp in Hsp'. injection Hsp' as ->.
  unfold loopFuel in Hloop. rewrite Hj0 in Hloop. cbn [length Nat.mul Nat.add] in Hloop.
  rewrite whileLoop_unfold in Hloop. cbn [jobs with_isProcessing] in Hloop.
  rewrite Hj0 in Hloop.
  assert (Hfree' : (length (processing (with_isProcessing true q0)) <?
                    concurrency (with_isProcessing true q0))%nat = true)
    by (apply Nat.ltb_lt; exact Hfree).
  rewrite Hfree' in Hloop.
  rewrite loopBody_in_loop in Hloop by done. cbn [mbind Outcome_bind] in Hloop.
  assert (Hbody : afterLoopBody now (nextRef q) (with_jobs [] (with_isProcessing true q0))
                  = with_awaiting (awaiting q0 ++ [nextRef q])
                      (beginJob now (nextRef q) (with_jobs [] (with_isProcessing true q0)))).
  { unfold afterLoopBody. cbn [heap with_jobs with_isProcessing]. rewrite H0.
    apply Z.ltb_ge in Hdelay as ->. unfold afterProcessJob.
    assert (Hcall : callHandler (nextRef q)
              (beginJob now (nextRef q) (with_jobs [] (with_isProcessing true q0)))
              = Returned ()).
    { unfold callHandler.
      replace (heap (beginJob now (nextRef q) (with_jobs [] (with_isProcessing true q0)))
                 (nextRef q)) with (jobStart now job)
        by (qsimpl; by rewrite upd_eq, H0).
      change (handlers (beginJob now (nextRef q) (with_jobs [] (with_isProcessing true q0))))
        with (handlers q).
      cbn [job_type jobStart set_startedAt set_status].
      by rewrite Hh, Hasync. }
    by rewrite Hcall. }
  rewrite Hbody in Hloop. rewrite whileLoop_unfold in Hloop.
  cbn [jobs with_awaiting beginJob logEvent mutate with_heap with_processing
       with_log with_jobs] in Hloop.
  injection Hloop as <-. qsimpl. rewrite upd_eq, H0. done.
Qed.

Lemma add_returns_unfinished_job_witness :
  o_status noOptions = None
  ∧ ∃ q', add 1000 "k3x9" "generate_story" "story-1" noOptions storyQueue
          = Returned (q', 0)
     ∧ job_status (heap q' 0) = Processing
     ∧ job_startedAt (heap q' 0) = Some 1000%Z.
Proof.
  split; [done|].
  destruct (add_returns_unfinished_job storyQueue 1000 "k3x9" "generate_story"
              "story-1" noOptions eq_refl) as (q'&Hadd&_&Hh).
  exists q'. split; [exact Hadd|].
  apply (Hh asyncHandler); try done. cbn. lia.
Defined.

(** ** Attempts, failures and backoff *)




(** ** Permanent failure *)




(** ** Job ids *)

Lemma catchBlock_id now e r q x :
  job_id (heap (catchBlock now e r q) x) = job_id (heap q x).
Proof.
  unfold catchBlock. destruct (_ <=? _)%Z; qsimpl; unfold upd;
    by destruct (Nat.eqb x r).
Qed.

Lemma successBlock_id now res r q x :
  job_id (heap (successBlock now res r q) x) = job_id (heap q x).
Proof. unfold successBlock. qsimpl. unfold upd. by destruct (Nat.eqb x r). Qed.

Lemma afterLoopBody_id now r q x :
  job_id (heap (afterLoopBody now r q) x) = job_id (heap q x).
Proof.
  unfold afterLoopBody. destruct (0 <? _)%Z; [done|].
  unfold afterProcessJob. destruct (callHandler _ _); rewrite ?catchBlock_id;
    qsimpl; unfold upd; by destruct (Nat.eqb x r).
Qed.

Lemma idsDistinct_kept q q' :
  nextRef q' = nextRef q ->
  (forall x, job_id (heap q' x) = job_id (heap q x)) ->
  idsDistinct q -> idsDistinct q'.
Proof.
  intros Hn Hid HI r1 r2. rewrite Hn, !Hid. apply HI.
Qed.

Lemma idsDistinct_afterLoopBody now r q :
  idsDistinct q -> idsDistinct (afterLoopBody now r q).
Proof.
  apply idsDistinct_kept; [|apply afterLoopBody_id].
  by destruct (afterLoopBody_frame now r q) as (_&_&_&->&_).
Qed.

Lemma idsDistinct_enqueue q now rnd t d o :
  freshId q (EvAdd now rnd t d o) ->
  idsDistinct q -> idsDistinct (enqueue now rnd t d o q).
Proof.
  intros Hfresh HI r1 r2. cbn in Hfresh.
  rewrite Forall_forall in Hfresh.
  unfold enqueue. qsimpl. unfold upd. intros H1 H2.
  destruct (Nat.eqb_spec r1 (nextRef q)), (Nat.eqb_spec r2 (nextRef q));
    subst; try done.
  - intros Hid. destruct (Hfresh r2); [|done]. apply elem_of_seq. lia.
  - intros Hid. destruct (Hfresh r1); [|done]. apply elem_of_seq. lia.
  - apply HI; lia.
Qed.

Lemma idsDistinct_reinsert i r q :
  idsDistinct q -> idsDistinct (reinsert i r q).
Proof.
  apply idsDistinct_kept; [done|]. intros x. qsimpl. unfold upd.
  by destruct (Nat.eqb x r).
Qed.

Lemma idsDistinct_successBlock now res r q :
  idsDistinct q -> idsDistinct (successBlock now res r q).
Proof. apply idsDistinct_kept; [done|]. apply successBlock_id. Qed.

Lemma idsDistinct_catchBlock now e r q :
  idsDistinct q -> idsDistinct (catchBlock now e r q).
Proof.
  apply idsDistinct_kept; [|apply catchBlock_id].
  by destruct (catchBlock_frame now e r q) as (_&_&_&->&_).
Qed.

Lemma idsDistinct_cleanup now maxAge q :
  idsDistinct q -> idsDistinct (cleanup now maxAge q).1.
Proof.
  apply idsDistinct_kept; [|intros x]; unfold cleanup; cbn [fst];
    by match goal with |- context [if ?b then _ else _] => destruct b end.
Qed.

(** With distinct ids, leaving the processing array takes no other job
    along. *)
Lemma catchBlock_processing_keeps now e r q x :
  x ∈ processing q -> job_id (heap q x) ≠ job_id (heap q r) ->
  x ∈ processing (catchBlock now e r q).
Proof.
  intros Hx Hid. unfold catchBlock. destruct (_ <=? _)%Z; qsimpl;
    apply list_elem_of_filter; (split; [|done]);
    unfold upd; destruct (Nat.eqb x r), (Nat.eqb r r); done.
Qed.

Lemma successBlock_processing_keeps now res r q x :
  x ∈ processing q -> job_id (heap q x) ≠ job_id (heap q r) ->
  x ∈ processing (successBlock now res r q).
Proof.
  intros Hx Hid. unfold successBlock. qsimpl.
  apply list_elem_of_filter; (split; [|done]).
  unfold upd; destruct (Nat.eqb x r), (Nat.eqb r r); done.
Qed.

(** With distinct ids, the processing array holds exactly the jobs whose
    handler is running. *)
Lemma reach_slots allowed q :
  (forall q ev, allowed q ev -> freshId q ev) ->
  reach allowed q ->
  idsDistinct q ∧ forall r, r ∈ awaiting q -> r ∈ processing q.
Proof.
  intros Hal Hreach.
  cut (wellFormed q ∧ idsDistinct q ∧ forall r, r ∈ awaiting q -> r ∈ processing q);
    [tauto|].
  revert q Hreach. apply reach_rule.
  - intros n c. split; [apply wellFormed_new|]. split.
    + intros r1 r2 H1. cbn in H1. lia.
    + cbn. set_solver.
  - intros q b (?&?&?). split; [by apply wellFormed_flag|done].
  - intros now q r rest (Hwf&Hid&Hs) Hj Hfree.
    split; [by eapply wellFormed_afterLoopBody|].
    split; [by apply idsDistinct_afterLoopBody|].
    destruct (head_elsewhere q r rest (wf_nodup _ Hwf) Hj) as (_&_&Hna&_&_).
    assert (Hr : r < nextRef q).
    { apply (wf_alloc _ Hwf). rewrite live_unfold, Hj. set_solver. }
    unfold afterLoopBody. destruct (0 <? _)%Z; [done|].
    unfold afterProcessJob. destruct (callHandler _ _).
    + qsimpl. set_solver.
    + destruct (catchBlock_frame now e r (beginJob now r (with_jobs rest q)))
        as (_&_&_&_&_&->&_).
      qsimpl. intros x Hx. apply catchBlock_processing_keeps; [qsimpl; set_solver|].
      assert (Hne : x ≠ r) by (by intros ->).
      qsimpl. rewrite upd_eq, upd_ne by done. cbn. intros Heq. apply Hne.
      apply Hid; [|done|done]. apply (wf_alloc _ Hwf). rewrite live_unfold.
      set_solver.
    + qsimpl. set_solver.
  - intros q t h (?&?&?) _. split; [by apply wellFormed_process|done].
  - intros q now rnd t d o (Hwf&Hid&Hs) Hfresh%Hal.
    split; [by apply wellFormed_enqueue|].
    split; [by apply idsDistinct_enqueue|done].
  - intros q now i r d (Hwf&Hid&Hs) _ Ht.
    split; [by eapply wellFormed_reinsert|].
    split; [by apply idsDistinct_reinsert|done].
  - intros q now i r res (Hwf&Hid&Hs) _ Ha.
    split; [by apply wellFormed_successBlock|].
    split; [by apply idsDistinct_successBlock|].
    destruct (awaiting_elsewhere q i r (wf_nodup _ Hwf) Ha) as (_&_&Hnd&_&_).
    assert (Hr : r < nextRef q).
    { apply (wf_alloc _ Hwf). rewrite live_unfold.
      apply list_elem_of_lookup_2 in Ha. set_solver. }
    intros x Hx. unfold successBlock in Hx. qsimpl.
    apply successBlock_processing_keeps.
    + qsimpl. by apply Hs, (list_elem_of_delete_inv _ i).
    + assert (Hne : x ≠ r) by (by intros ->).
      qsimpl. intros Heq. apply Hne.
      apply Hid; [|done|done]. apply (wf_alloc _ Hwf). rewrite live_unfold.
      apply list_elem_of_delete_inv in Hx. set_solver.
  - intros q now i r e (Hwf&Hid&Hs) _ Ha.
    split; [by apply wellFormed_catchBlock|].
    split; [by apply idsDistinct_catchBlock|].
    destruct (awaiting_elsewhere q i r (wf_nodup _ Hwf) Ha) as (_&_&Hnd&_&_).
    destruct (catchBlock_frame now e r (resumed i q)) as (_&_&_&_&_&->&_).
    intros x Hx. qsimpl.
    apply catchBlock_processing_keeps.
    + qsimpl. by apply Hs, (list_elem_of_delete_inv _ i).
    + assert (Hne : x ≠ r) by (by intros ->).
      qsimpl. intros Heq. apply Hne.
      apply Hid; [| |done]; apply (wf_alloc _ Hwf); rewrite live_unfold.
      * apply list_elem_of_delete_inv in Hx. set_solver.
      * apply list_elem_of_lookup_2 in Ha. set_solver.
  - intros q now maxAge (Hwf&Hid&Hs) _.
    split; [by apply wellFormed_cleanup|].
    split; [by apply idsDistinct_cleanup|].
    unfold cleanup. cbn [fst].
    by match goal with |- context [if ?b then _ else _] => destruct b end.
Qed.

(** ** Places and statuses *)

Lemma waitingStatus_step p v p' v' :
  waitingStatus p v -> jobStep (p, v) (p', v') -> waitingStatus p' v'.
Proof. intros Hp Hs. inversion Hs; subst; cbn in *; eauto. Qed.

Lemma reach_waitingStatus allowed q :
  (forall q ev, allowed q ev -> keepsStatus q ev) ->
  reach allowed q -> jobsSatisfy waitingStatus q.
Proof.
  intros Hal. apply job_invariant; [|apply waitingStatus_step].
  intros q0 now rnd t d o Ho%Hal. cbn in Ho.
  unfold waitingStatus, newJob, spread. cbn. by rewrite Ho.
Qed.

Lemma NoDup_submseteq_inv {A} (l k : list A) : l ⊆+ k -> NoDup k -> NoDup l.
Proof.
  intros [k' ->]%submseteq_Permutation Hnd. by apply NoDup_app in Hnd as [? _].
Qed.

Lemma inArrays_live q :
  wellFormed q -> inArrays q ⊆+ live q.
Proof.
  intros Hwf. unfold inArrays. rewrite live_unfold.
  apply submseteq_skips_l, submseteq_inserts_l, submseteq_app; [|done].
  apply NoDup_submseteq; [apply Hwf|]. apply (wf_slots _ Hwf).
Qed.

Lemma getJob_found q r :
  r ∈ inArrays q ->
  (forall x, x ∈ inArrays q -> job_id (heap q x) = job_id (heap q r) -> x = r) ->
  getJob (job_id (heap q r)) q = Some r.
Proof.
  unfold getJob. fold (inArrays q).
  induction (inArrays q) as [|x l IH]; intros Hin Huniq; [by apply elem_of_nil in Hin|].
  cbn. destruct (bool_decide_reflect (job_id (heap q x) = job_id (heap q r))) as [Heq|Hne].
  - f_equal. apply Huniq; [by left|done].
  - apply IH.
    + apply elem_of_cons in Hin as [->|?]; done.
    + intros y Hy. apply Huniq. by right.
Qed.

Lemma getJob_not_found q jobId :
  (forall x, x ∈ inArrays q -> job_id (heap q x) ≠ jobId) ->
  getJob jobId q = None.
Proof.
  unfold getJob. fold (inArrays q).
  induction (inArrays q) as [|x l IH]; intros Hno; [done|].
  cbn. rewrite bool_decide_eq_false_2 by (apply Hno; by left).
  apply IH. intros y Hy. apply Hno. by right.
Qed.

(** C4, as stated, fails: a job added with a delay of five seconds to an
    idle queue has been enqueued and not removed, has status [waiting], and
    is in none of the four arrays: [getJob] does not find it and
    [getStats] counts no waiting job.  Besides, a job added with
    [{status: 'completed'}] while the slot is busy is in the waiting array
    with status [completed]; and of two jobs added with the same [id], the
    completion of the first removes the second from the processing array
    while its handler runs: it has status [processing] and is in no
    array. *)
Lemma delayed_job_is_in_no_array_counterexample :
  (let q := after delayedJob storyQueue in
   nextRef q = 1
   ∧ job_status (heap q 0) = Waiting
   ∧ timers q = [(0, 5000%Z)]
   ∧ jobs q = [] ∧ processing q = [] ∧ completed q = [] ∧ failed q = []
   ∧ getJob (job_id (heap q 0)) q = None
   ∧ stats_waiting (getStats q) = 0)
  ∧ (let q :=
       after [ EvAdd 1000 "a" "echo" "x" noOptions;
               EvAdd 1001 "b" "echo" "y" (withStatus Completed) ] echoQueue in
     jobs q = [1] ∧ completed q = []
     ∧ job_status (heap q 1) = Completed)
  ∧ (let q :=
       after [ EvAdd 1000 "a" "generate_story" "x" (withId "job");
               EvAdd 1001 "b" "generate_story" "y" (withId "job");
               EvFulfil 1500 0 "x text" ] storyQueue in
     awaiting q = [1]
     ∧ job_status (heap q 1) = Processing
     ∧ jobs q = [] ∧ processing q = [] ∧ completed q = [0] ∧ failed q = []
     ∧ getJob (job_id (heap q 1)) q = Some 0).
Proof. vm_compute. by split_and!. Qed.

(** C4, amended.  When the jobs are added with distinct ids and without a
    [status] key: no job is in two of the four arrays or twice in one; a
    job in an array has the status of that array; every job ever enqueued
    with status [waiting] is either in the waiting array or held by a
    pending delay timer, every one with status [processing] is in the
    processing array, and every one with status [completed] or [failed] is
    in the array of that name unless [cleanup] has removed it.  A job held
    by a timer has status [waiting] but is in none of the arrays: [getJob]
    does not find it and [getStats] does not count it, until the timer
    fires.  [getJob] finds every job that is in an array, and [getStats]
    counts it once. *)
Theorem job_is_in_one_place q :
  reach plainAdd q ->
  NoDup (inArrays q)
  ∧ (forall r,
       (r ∈ jobs q -> job_status (heap q r) = Waiting)
       ∧ (r ∈ processing q -> job_status (heap q r) = Processing)
       ∧ (r ∈ completed q -> job_status (heap q r) = Completed)
       ∧ (r ∈ failed q -> job_status (heap q r) = Failed))
  ∧ (forall r, r < nextRef q ->
       match job_status (heap q r) with
       | Waiting => r ∈ jobs q ∨ r ∈ (timers q).*1
       | Processing => r ∈ processing q
       | Completed => r ∈ completed q ∨ located q r Removed
       | Failed => r ∈ failed q ∨ located q r Removed
       end)
  ∧ (forall r, r ∈ (timers q).*1 ->
       job_status (heap q r) = Waiting
       ∧ (r ∉ inArrays q)
       ∧ getJob (job_id (heap q r)) q = None)
  ∧ (forall r, r ∈ inArrays q -> getJob (job_id (heap q r)) q = Some r)
  ∧ stats_waiting (getStats q) + stats_processing (getStats q)
    + stats_completed (getStats q) + stats_failed (getStats q)
    = length (inArrays q).
Proof.
  intros Hreach.
  assert (Hwf := reach_wellFormed _ _ Hreach).
  pose proof (reach_placeFields _ _ Hreach) as Hpf.
  pose proof (reach_waitingStatus _ _ (fun _ _ H => proj2 H) Hreach) as Hws.
  destruct (reach_slots _ _ (fun _ _ H => proj1 H) Hreach) as [Hid Hsl].
  assert (Hnd : NoDup (inArrays q)).
  { eapply NoDup_submseteq_inv; [by apply inArrays_live|apply Hwf]. }
  assert (Hinlive : forall x, x ∈ inArrays q -> x ∈ live q).
  { intros x Hx. eapply elem_of_submseteq; [exact Hx|]. by apply inArrays_live. }
  assert (Hstatus : forall r,
       (r ∈ jobs q -> job_status (heap q r) = Waiting)
       ∧ (r ∈ processing q -> job_status (heap q r) = Processing)
       ∧ (r ∈ completed q -> job_status (heap q r) = Completed)
       ∧ (r ∈ failed q -> job_status (heap q r) = Failed)).
  { intros r. split_and!.
    - intros Hr. apply (Hws r InJobs Hr).
    - intros Hr%(wf_slots _ Hwf). apply (Hpf r InHandler Hr).
    - intros Hr. apply (Hpf r InCompleted Hr).
    - intros Hr. apply (Hpf r InFailed Hr). }
  assert (Htimer : forall r, r ∈ (timers q).*1 ->
            job_status (heap q r) = Waiting ∧ r ∉ inArrays q).
  { intros r Hr. assert (Hr' := Hr).
    apply list_elem_of_fmap in Hr' as ([r' d]&->&Ht). cbn in *.
    split; [apply (Hws r' (OnTimer d) Ht)|].
    pose proof (wf_nodup _ Hwf) as Hl. rewrite live_unfold in Hl.
    apply NoDup_app in Hl as (_&Hj&Hl). apply NoDup_app in Hl as (_&Ht'&_).
    unfold inArrays. rewrite !elem_of_app. intros [H|[H%(wf_slots _ Hwf)|[H|H]]].
    - apply (Hj r' H). set_solver.
    - apply (Ht' r' Hr). set_solver.
    - apply (Ht' r' Hr). set_solver.
    - apply (Ht' r' Hr). set_solver. }
  split_and!; try done.
  - intros r Hlt. destruct (located_total q r Hlt) as [p Hp].
    pose proof (Hpf r p Hp) as H1. pose proof (Hws r p Hp) as H2.
    destruct p; cbn in H1, H2, Hp.
    + rewrite H2. by left.
    + rewrite H2. right. by eapply timer_fst.
    + rewrite H1. by apply Hsl.
    + destruct H1 as [-> _]. by left.
    + destruct H1 as [-> _]. by left.
    + destruct H1 as [-> | ->]; by right.
  - intros r Hr. destruct (Htimer r Hr) as [Hst Hni]. split_and!; try done.
    apply getJob_not_found. intros x Hx Heq.
    assert (x = r); [|by subst].
    apply Hid; [| |done]; apply (wf_alloc _ Hwf); [by apply Hinlive|].
    rewrite live_unfold. set_solver.
  - intros r Hr. apply getJob_found; [done|].
    intros x Hx Heq. apply Hid; [| |done]; apply (wf_alloc _ Hwf); by apply Hinlive.
  - unfold inArrays. cbn. rewrite !length_app. lia.
Qed.

Lemma job_is_in_one_place_witness :
  reach plainAdd (after (take 5 busyDay) storyQueue)
  ∧ NoDup (inArrays (after (take 5 busyDay) storyQueue)).
Proof.
  assert (H : reach plainAdd (after (take 5 busyDay) storyQueue)).
  { apply reach_after; [by apply reach_module_queue|].
    vm_compute. repeat split; repeat constructor; discriminate. }
  split; [exact H|].
  by destruct (job_is_in_one_place _ H) as (Hnd&_).
Defined.

(** ** Handler errors *)



(** ** Dispatch order *)





















(** The three jobs of the scenario, enqueued while the slot is busy, start
    in the order of their priorities 5, 3, 1. *)
Example oneFiveThree_behind_blocker :
  startOrder (after oneFiveThreeBehindBlocker echoQueue) = [0; 2; 3; 1].
Proof. by vm_compute. Qed.



(** * Further properties of the queue *)

(** ** The scheduler leaves no slot idle *)

Lemma quiescent_step q ev q' :
  isProcessing q = false -> quiescent q -> step q ev q' -> quiescent q'.
Proof.
  intros Hi Hq Hstep. unfold step in Hstep.
  destruct ev as [t h|now rnd t d o|now i|now i res|now i e|now maxAge];
    cbn [exec] in Hstep.
  - injection Hstep as <-. exact Hq.
  - unfold add in Hstep.
    destruct (startProcessing callDepth now (enqueue now rnd t d o q)) eqn:Hsp;
      cbn in Hstep; try done.
    injection Hstep as <-.
    by apply (startProcessing_rule (fun _ => True)) in Hsp as (_&_&?).
  - destruct (timers q !! i) as [[r d]|] eqn:Ht; [|done].
    injection Hstep as Hstep. unfold timerCallback in Hstep.
    by apply (startProcessing_rule (fun _ => True)) in Hstep as (_&_&?).
  - destruct (awaiting q !! i) as [r|] eqn:Ha; [|done].
    injection Hstep as Hstep. unfold resumeFulfilled in Hstep.
    cbn [tryCatch mbind Outcome_bind] in Hstep.
    by apply (startProcessing_rule (fun _ => True)) in Hstep as (_&_&?).
  - destruct (awaiting q !! i) as [r|] eqn:Ha; [|done].
    injection Hstep as Hstep. unfold resumeRejected in Hstep.
    cbn [tryCatch mbind Outcome_bind] in Hstep.
    apply (startProcessing_rule (fun _ => True)) in Hstep as (_&_&?); try done.
    by rewrite isProcessing_catchBlock.
  - injection Hstep as <-. unfold cleanup. cbn [fst].
    by match goal with |- context [if ?b then _ else _] => destruct b end.
Qed.

Lemma reach_quiescent allowed q : reach allowed q -> quiescent q.
Proof.
  intros (n&c&Hreach). induction Hreach as [|q ev q' Hreach IH Hal Hstep].
  - by left.
  - eapply quiescent_step; [|exact IH|exact Hstep].
    eapply reachFrom_idle; [|exact Hreach]. done.
Qed.

(** X1.  Between two runs the scheduler has left no slot idle: either no
    job is in the waiting array, or the processing array is full.  So
    whenever [getStats] reports a waiting job, it reports exactly
    [concurrency] jobs in processing. *)
Theorem scheduler_leaves_no_slot_idle q :
  reachable q ->
  (jobs q = [] ∨ length (processing q) = concurrency q)
  ∧ (0 < stats_waiting (getStats q) ->
     stats_processing (getStats q) = stats_concurrency (getStats q)).
Proof.
  intros Hreach.
  pose proof (reach_quiescent _ _ Hreach) as Hq.
  pose proof (wf_bound _ (reach_wellFormed _ _ Hreach)) as Hb.
  assert (H : jobs q = [] ∨ length (processing q) = concurrency q).
  { destruct Hq as [?|?]; [by left|right; lia]. }
  split; [exact H|]. cbn. intros Hw.
  destruct H as [E|E]; [|done]. rewrite E in Hw. cbn in Hw. lia.
Qed.

Lemma scheduler_leaves_no_slot_idle_witness :
  reachable (after (take 3 busyDay) storyQueue)
  ∧ stats_processing (getStats (after (take 3 busyDay) storyQueue)) = 2.
Proof.
  assert (H : reachable (after (take 3 busyDay) storyQueue)).
  { apply reach_after; [by apply reach_module_queue|]. vm_compute. tauto. }
  split; [exact H|].
  destruct (scheduler_leaves_no_slot_idle _ H) as [_ Hfull].
  apply Hfull. vm_compute. lia.
Defined.

(** ** No job is lost *)








(** ** Retries are bounded *)

Lemma live_located q r : r ∈ live q -> ∃ p, p ≠ Removed ∧ located q r p.
Proof.
  rewrite live_unfold, !elem_of_app.
  intros [?|[Ht|[?|[?|?]]]].
  - by exists InJobs.
  - apply list_elem_of_fmap in Ht as ([r' d]&->&Ht). by exists (OnTimer d).
  - by exists InHandler.
  - by exists InCompleted.
  - by exists InFailed.
Qed.

(** X3.  When no call of [add] overrides [attempts]: the handler of a job
    the queue holds has been invoked at most [max(1, maxAttempts)] times,
    whatever has happened; every invocation but a running one, or the
    successful one of a completed job, is a failed attempt counted in
    [attempts]. *)
Theorem handler_invocations_are_bounded q :
  reach keepsAttempts q ->
  forall r, r ∈ live q ->
    (Z.of_nat (invocations r q) <= Z.max 1 (job_maxAttempts (heap q r)))%Z
    ∧ failures r q = job_attempts (heap q r)
    ∧ invocations r q
      = job_attempts (heap q r)
        + (if bool_decide (r ∈ awaiting q ∨ r ∈ completed q) then 1 else 0).
Proof.
  intros Hreach r Hr.
  pose proof (reach_attemptsCounted _ _ (fun _ _ H => H) Hreach) as Hac.
  pose proof (wf_nodup _ (reach_wellFormed _ _ Hreach)) as Hnd.
  destruct (live_located q r Hr) as (p&Hp&Hloc).
  destruct (Hac r p Hloc) as (Ha&Hs&Hi&Hb&_). cbn in Ha, Hs, Hi, Hb.
  specialize (Hs Hp).
  rewrite live_unfold in Hnd.
  apply NoDup_app in Hnd as (_&Hd1&Hnd).
  apply NoDup_app in Hnd as (_&Hd2&Hnd).
  apply NoDup_app in Hnd as (_&Hd3&Hnd).
  apply NoDup_app in Hnd as (_&Hd4&_).
  split_and!; [|done|].
  - destruct p; try done; lia.
  - rewrite Hi, Hs, Ha. destruct p; try done; cbn in Hloc.
    + rewrite bool_decide_eq_false_2; [lia|].
      intros [?|?]; eapply Hd1; eauto; set_solver.
    + apply timer_fst in Hloc. rewrite bool_decide_eq_false_2; [lia|].
      intros [?|?]; eapply Hd2; eauto; set_solver.
    + rewrite bool_decide_eq_true_2; [lia|by left].
    + rewrite bool_decide_eq_true_2; [lia|by right].
    + rewrite bool_decide_eq_false_2; [lia|].
      intros [?|?]; [eapply Hd3|eapply Hd4]; eauto; set_solver.
Qed.

Lemma handler_invocations_are_bounded_witness :
  reach keepsAttempts (after twoFailuresThenSuccess storyQueue)
  ∧ (Z.of_nat (invocations 0 (after twoFailuresThenSuccess storyQueue)) <= 3)%Z.
Proof.
  assert (H : reach keepsAttempts (after twoFailuresThenSuccess storyQueue)).
  { apply reach_after; [by apply reach_module_queue|]. vm_compute. tauto. }
  split; [exact H|].
  assert (H0 : 0 ∈ live (after twoFailuresThenSuccess storyQueue)).
  { vm_compute. by left. }
  by destruct (handler_invocations_are_bounded _ H 0 H0) as (Hb&_).
Defined.

(** ** Fields the queue never touches *)

Lemma fixed_catchBlock now e r q x :
  fixedFields (heap (catchBlock now e r q) x) = fixedFields (heap q x)
  ∧ job_attempts (heap q x) <= job_attempts (heap (catchBlock now e r q) x).
Proof.
  unfold catchBlock. destruct (_ <=? _)%Z; qsimpl; unfold upd;
    destruct (Nat.eqb x r); cbn; split; (done || lia).
Qed.

Lemma fixed_afterLoopBody now r q x :
  fixedFields (heap (afterLoopBody now r q) x) = fixedFields (heap q x)
  ∧ job_attempts (heap q x) <= job_attempts (heap (afterLoopBody now r q) x).
Proof.
  unfold afterLoopBody. destruct (0 <? _)%Z; [done|].
  unfold afterProcessJob.
  assert (Hb : fixedFields (heap (beginJob now r q) x) = fixedFields (heap q x)
               ∧ job_attempts (heap (beginJob now r q) x) = job_attempts (heap q x)).
  { qsimpl. unfold upd. by destruct (Nat.eqb x r). }
  destruct Hb as [Hb1 Hb2].
  destruct (callHandler _ _); [by rewrite <- Hb2| |by rewrite <- Hb2].
  destruct (fixed_catchBlock now e r (beginJob now r q) x) as [-> ?].
  split; [done|lia].
Qed.

(** X4.  The queue never changes the [id], [type], [data], [priority],
    [maxAttempts] or [createdAt] of a job once [add] has built it, and
    its [attempts] never decreases. *)
Theorem identity_fields_are_never_changed q q' r :
  isProcessing q = false -> r < nextRef q -> reachFrom anyEvent q q' ->
  job_id (heap q' r) = job_id (heap q r)
  ∧ job_type (heap q' r) = job_type (heap q r)
  ∧ job_data (heap q' r) = job_data (heap q r)
  ∧ job_priority (heap q' r) = job_priority (heap q r)
  ∧ job_maxAttempts (heap q' r) = job_maxAttempts (heap q r)
  ∧ job_createdAt (heap q' r) = job_createdAt (heap q r)
  ∧ job_attempts (heap q r) <= job_attempts (heap q' r).
Proof.
  intros Hidle Hr Hsteps.
  assert (H : r < nextRef q'
              ∧ fixedFields (heap q' r) = fixedFields (heap q r)
              ∧ job_attempts (heap q r) <= job_attempts (heap q' r)).
  { refine (reachFrom_rule
      (fun q1 => r < nextRef q1
                 ∧ fixedFields (heap q1 r) = fixedFields (heap q r)
                 ∧ job_attempts (heap q r) <= job_attempts (heap q1 r))
      anyEvent _ _ _ _ _ _ _ _ q q' Hidle _ Hsteps); [..|done].
    - by intros q1 b.
    - intros now q1 x rest (H1&H2&H3) _ _.
      destruct (afterLoopBody_frame now x (with_jobs rest q1)) as (_&_&_&->&_).
      destruct (fixed_afterLoopBody now x (with_jobs rest q1) r) as [-> ?].
      split_and!; [done|done|]. cbn in *. lia.
    - by intros q1 t h.
    - intros q1 now rnd t d o (H1&H2&H3) _. unfold enqueue. qsimpl.
      rewrite upd_ne by lia. split_and!; [lia|done|done].
    - intros q1 now i x d (H1&H2&H3) _ _. unfold reinsert. qsimpl.
      unfold upd. by destruct (Nat.eqb r x).
    - intros q1 now i x res (H1&H2&H3) _ _. unfold successBlock. qsimpl.
      unfold upd. by destruct (Nat.eqb r x).
    - intros q1 now i x e (H1&H2&H3) _ _.
      destruct (catchBlock_frame now e x (resumed i q1)) as (_&_&_&->&_).
      destruct (fixed_catchBlock now e x (resumed i q1) r) as [-> ?].
      split_and!; [done|done|]. cbn in *. lia.
    - intros q1 now maxAge (H1&H2&H3) _. unfold cleanup. cbn [fst].
      by match goal with |- context [if ?b then _ else _] => destruct b end. }
  destruct H as (_&H&?). unfold fixedFields in H.
  injection H as -> -> -> -> -> ->. by split_and!.
Qed.

Lemma reachFrom_after allowed evs : forall q0 q,
  reachFrom allowed q0 q -> allowedAlong allowed evs q ->
  reachFrom allowed q0 (after evs q).
Proof.
  induction evs as [|ev evs IH]; intros q0 q Hreach Hal; [done|].
  cbn [after allowedAlong] in *.
  destruct (exec ev q) as [[q1| |]|] eqn:He; try done.
  destruct Hal as [Hev Hal].
  apply IH; [|done]. by eapply reachFrom_step.
Qed.

Lemma identity_fields_are_never_changed_witness :
  job_id (heap (after (drop 1 busyDay) (after (take 1 busyDay) storyQueue)) 0)
  = job_id (heap (after (take 1 busyDay) storyQueue) 0).
Proof.
  assert (Hi : isProcessing (after (take 1 busyDay) storyQueue) = false)
    by (vm_compute; reflexivity).
  assert (Hr : 0 < nextRef (after (take 1 busyDay) storyQueue))
    by (vm_compute; lia).
  assert (H : reachFrom anyEvent (after (take 1 busyDay) storyQueue)
                (after (drop 1 busyDay) (after (take 1 busyDay) storyQueue))).
  { apply reachFrom_after; [constructor|]. vm_compute. tauto. }
  exact (proj1 (identity_fields_are_never_changed _ _ 0 Hi Hr H)).
Defined.

(** ** A completed job *)






(** ** Runs of the scheduler, computed *)

Lemma flag_reset q :
  isProcessing q = false -> with_isProcessing false (with_isProcessing true q) = q.
Proof. destruct q. cbn. by intros ->. Qed.

(** Nothing to admit: the run changes nothing. *)
Lemma run_nothing now q :
  isProcessing q = false -> quiescent q ->
  startProcessing callDepth now q = Returned q.
Proof.
  intros Hi Hq. unfold callDepth. rewrite startProcessing_unfold, Hi.
  unfold loopFuel. rewrite Nat.add_1_r, whileLoop_unfold.
  change (jobs (with_isProcessing true q)) with (jobs q).
  change (processing (with_isProcessing true q)) with (processing q).
  change (concurrency (with_isProcessing true q)) with (concurrency q).
  destruct (jobs q) as [|r rest] eqn:Hj.
  - cbn. by rewrite flag_reset.
  - destruct Hq as [?|Hq]; [congruence|].
    apply Nat.ltb_ge in Hq as ->. cbn. by rewrite flag_reset.
Qed.

(** One job to admit, after which nothing is left to admit. *)
Lemma run_one now q r rest :
  isProcessing q = false -> jobs q = r :: rest ->
  length (processing q) < concurrency q ->
  quiescent (afterLoopBody now r (with_jobs rest (with_isProcessing true q))) ->
  startProcessing callDepth now q
  = Returned (with_isProcessing false
                (afterLoopBody now r (with_jobs rest (with_isProcessing true q)))).
Proof.
  intros Hi Hj Hfree Hq. unfold callDepth. rewrite startProcessing_unfold, Hi.
  unfold loopFuel. rewrite Hj. cbn [length Nat.mul Nat.add].
  rewrite Nat.add_succ_r. cbn [Nat.add]. rewrite whileLoop_unfold.
  change (jobs (with_isProcessing true q)) with (jobs q).
  change (processing (with_isProcessing true q)) with (processing q).
  change (concurrency (with_isProcessing true q)) with (concurrency q).
  rewrite Hj. apply Nat.ltb_lt in Hfree as ->.
  rewrite loopBody_in_loop by done. cbn [mbind Outcome_bind].
  set (q1 := afterLoopBody now r (with_jobs rest (with_isProcessing true q))) in *.
  rewrite whileLoop_unfold.
  destruct (jobs q1) as [|r' rest'] eqn:Hj1; [done|].
  destruct Hq as [Hq|Hq]; [congruence|].
  by apply Nat.ltb_ge in Hq as ->.
Qed.

(** ** When a delay timer fires *)

Lemma started_afterLoopBody now r q h :
  (job_delay (heap q r) <= 0)%Z ->
  handlers q !! job_type (heap q r) = Some h ->
  (forall dt j, h dt j = ReturnsPromise) ->
  afterLoopBody now r q
  = with_awaiting (awaiting q ++ [r]) (beginJob now r q).
Proof.
  intros Hd Hh Hasync. unfold afterLoopBody.
  apply Z.ltb_ge in Hd as ->. unfold afterProcessJob, callHandler.
  replace (heap (beginJob now r q) r) with (jobStart now (heap q r))
    by (qsimpl; by rewrite upd_eq).
  change (handlers (beginJob now r q)) with (handlers q).
  cbn [job_type job_data jobStart set_startedAt set_status].
  by rewrite Hh, Hasync.
Qed.

Lemma timer_run_full q now i r d :
  reachable q -> timers q !! i = Some (r, d) ->
  concurrency q <= length (processing q) ->
  step q (EvTimer now i) (reinsert i r q).
Proof.
  intros Hreach Ht Hfull. unfold step. cbn [exec]. rewrite Ht.
  unfold timerCallback.
  rewrite run_nothing; [done| |by right].
  exact (reach_idle _ _ Hreach).
Qed.

Lemma timer_run_free q now i r d h :
  reachable q -> timers q !! i = Some (r, d) ->
  length (processing q) < concurrency q ->
  handlers q !! job_type (heap q r) = Some h ->
  (forall dt j, h dt j = ReturnsPromise) ->
  ∃ q', step q (EvTimer now i) q'
    ∧ jobs q' = []
    ∧ heap q' r = jobStart now (jobTimerFired (heap q r))
    ∧ timers q' = delete i (timers q)
    ∧ processing q' = processing q ++ [r]
    ∧ awaiting q' = awaiting q ++ [r]
    ∧ invocations r q' = S (invocations r q).
Proof.
  intros Hreach Ht Hfree Hh Hasync.
  assert (Hidle := reach_idle _ _ Hreach).
  assert (Hj : jobs q = []).
  { destruct (reach_quiescent _ _ Hreach); [done|lia]. }
  set (q0 := with_jobs [] (with_isProcessing true (reinsert i r q))).
  assert (Hbody : afterLoopBody now r q0
                  = with_awaiting (awaiting q0 ++ [r]) (beginJob now r q0)).
  { apply (started_afterLoopBody now r q0 h); [| |exact Hasync];
      unfold q0, reinsert; qsimpl; by rewrite upd_eq. }
  exists (with_isProcessing false (afterLoopBody now r q0)). split.
  - unfold step. cbn [exec]. rewrite Ht. unfold timerCallback.
    rewrite (run_one now (reinsert i r q) r []); try done.
    + unfold reinsert. qsimpl. by rewrite Hj.
    + fold q0. rewrite Hbody. by left.
  - rewrite Hbody. unfold q0, reinsert. count_simpl.
    rewrite !upd_eq. by split_and!.
Qed.

(** X6.  When the delay timer of a job fires, the job is put at the head
    of the waiting array with its delay reset to 0.  If every slot is
    taken it stays there, in front of all waiting jobs whatever their
    priority, and nothing else changes.  If a slot is free (the waiting
    array is then empty) and the handler of its type returns a promise,
    the job is started in the same run: it joins the processing array
    with status [processing], [startedAt] set to the time of the run, and
    its handler is invoked once more. *)
Theorem fired_timer_puts_job_first q now i r d :
  reachable q -> timers q !! i = Some (r, d) ->
  ∃ q', step q (EvTimer now i) q'
    ∧ (concurrency q <= length (processing q) ->
       jobs q' = r :: jobs q
       ∧ heap q' r = jobTimerFired (heap q r)
       ∧ timers q' = delete i (timers q)
       ∧ processing q' = processing q
       ∧ awaiting q' = awaiting q
       ∧ log q' = log q)
    ∧ (length (processing q) < concurrency q ->
       forall h,
         handlers q !! job_type (heap q r) = Some h ->
         (forall dt j, h dt j = ReturnsPromise) ->
         jobs q' = []
         ∧ heap q' r = jobStart now (jobTimerFired (heap q r))
         ∧ timers q' = delete i (timers q)
         ∧ processing q' = processing q ++ [r]
         ∧ awaiting q' = awaiting q ++ [r]
         ∧ invocations r q' = S (invocations r q)).
Proof.
  intros Hreach Ht.
  assert (Hidle := reach_idle _ _ Hreach).
  destruct (exec_returns (EvTimer now i) q
              (startProcessing callDepth now (reinsert i r q)) Hidle)
    as [q' Hq']; [by cbn [exec]; rewrite Ht|].
  assert (Hstep : step q (EvTimer now i) q').
  { unfold step. cbn [exec]. rewrite Ht. unfold timerCallback. by rewrite Hq'. }
  exists q'. split; [done|]. split.
  - intros Hfull.
    pose proof (timer_run_full q now i r d Hreach Ht Hfull) as Hs.
    unfold step in Hstep, Hs. rewrite Hs in Hstep. injection Hstep as <-.
    unfold reinsert. qsimpl. by rewrite upd_eq.
  - intros Hfree h Hh Hasync.
    destruct (timer_run_free q now i r d h Hreach Ht Hfree Hh Hasync)
      as (q2&Hs&Hrest).
    unfold step in Hstep, Hs. rewrite Hs in Hstep. by injection Hstep as <-.
Qed.

Lemma fired_timer_puts_job_first_witness :
  reachable (after (take 5 busyDay) storyQueue)
  ∧ timers (after (take 5 busyDay) storyQueue) !! 0 = Some (0, 2000%Z)
  ∧ ∃ q', step (after (take 5 busyDay) storyQueue) (EvTimer 3500 0) q'.
Proof.
  assert (H : reachable (after (take 5 busyDay) storyQueue)).
  { apply reach_after; [by apply reach_module_queue|]. vm_compute. tauto. }
  assert (Ht : timers (after (take 5 busyDay) storyQueue) !! 0 = Some (0, 2000%Z))
    by (vm_compute; reflexivity).
  split; [exact H|]. split; [exact Ht|].
  destruct (fired_timer_puts_job_first _ 3500%Z 0 0 2000%Z H Ht) as (q'&Hs&_).
  by exists q'.
Defined.

(** ** Registering handlers *)



(** ** Where [add] leaves the new job *)

Lemma add_run_full q now rnd jobType data o :
  reachable q -> concurrency q <= length (processing q) ->
  add now rnd jobType data o q
  = Returned (enqueue now rnd jobType data o q, nextRef q).
Proof.
  intros Hreach Hfull. unfold add.
  rewrite run_nothing; [done|exact (reach_idle _ _ Hreach)|by right].
Qed.

Lemma add_run_free q now rnd jobType data o :
  reachable q -> length (processing q) < concurrency q ->
  quiescent (afterLoopBody now (nextRef q)
               (with_jobs [] (with_isProcessing true
                  (enqueue now rnd jobType data o q)))) ->
  add now rnd jobType data o q
  = Returned (with_isProcessing false
                (afterLoopBody now (nextRef q)
                   (with_jobs [] (with_isProcessing true
                      (enqueue now rnd jobType data o q)))),
              nextRef q).
Proof.
  intros Hreach Hfree Hq. unfold add.
  assert (Hj : jobs q = []).
  { destruct (reach_quiescent _ _ Hreach); [done|lia]. }
  rewrite (run_one now (enqueue now rnd jobType data o q) (nextRef q) []);
    try done.
  - exact (reach_idle _ _ Hreach).
  - unfold enqueue. qsimpl. by rewrite Hj.
Qed.

(** X8.  Where [add] leaves the job it returns.  If every slot is taken,
    the job is in the waiting array, sorted in by priority, and nothing
    else has changed.  If a slot is free (the waiting array is then
    empty): a job with a positive delay has left the waiting array and is
    held by a timer of that delay; a job without delay whose type has a
    handler returning a promise is in the processing array, started. *)
Theorem add_places_the_job q now rnd jobType data o :
  reachable q ->
  let r := nextRef q in
  let job := newJob q now rnd jobType data o in
  ∃ q', add now rnd jobType data o q = Returned (q', r)
    ∧ (concurrency q <= length (processing q) ->
       jobs q' = sortJobs (heap q') (jobs q ++ [r])
       ∧ heap q' r = job
       ∧ processing q' = processing q
       ∧ timers q' = timers q
       ∧ awaiting q' = awaiting q)
    ∧ (length (processing q) < concurrency q -> (0 < job_delay job)%Z ->
       jobs q' = []
       ∧ heap q' r = job
       ∧ timers q' = timers q ++ [(r, job_delay job)]
       ∧ processing q' = processing q
       ∧ awaiting q' = awaiting q
       ∧ invocations r q' = 0)
    ∧ (length (processing q) < concurrency q -> (job_delay job <= 0)%Z ->
       forall h,
         handlers q !! job_type job = Some h ->
         (forall dt j, h dt j = ReturnsPromise) ->
         jobs q' = []
         ∧ heap q' r = jobStart now job
         ∧ timers q' = timers q
         ∧ processing q' = processing q ++ [r]
         ∧ awaiting q' = awaiting q ++ [r]
         ∧ invocations r q' = 1).
Proof.
  intros Hreach r job.
  assert (Hidle := reach_idle _ _ Hreach).
  assert (Hwf := reach_wellFormed _ _ Hreach).
  assert (Hex : exec (EvAdd now rnd jobType data o) q
                = Some (add now rnd jobType data o q ≫= fun res => Returned res.1))
    by done.
  destruct (exec_returns _ _ _ Hidle Hex) as [q' Hq'].
  assert (Hadd : add now rnd jobType data o q = Returned (q', r)).
  { unfold add in *.
    destruct (startProcessing callDepth now (enqueue now rnd jobType data o q));
      cbn in Hq'; try done. by injection Hq' as ->. }
  destruct (enqueue_places_job q now rnd jobType data o) as [_ Hheap].
  fold r job in Hheap.
  set (q0 := with_jobs [] (with_isProcessing true (enqueue now rnd jobType data o q))).
  assert (Hheap0 : heap q0 r = job) by exact Hheap.
  assert (Hfresh := view_fresh q Hwf). fold r in Hfresh.
  destruct Hfresh as (Hinv&_&_).
  exists q'. split; [done|]. split_and!.
  - intros Hfull. rewrite add_run_full in Hadd by done.
    injection Hadd as <-. split; [|done]. unfold enqueue. by qsimpl.
  - intros Hfree Hd.
    assert (Hbody : afterLoopBody now r q0 = setTimeout r (job_delay job) q0).
    { unfold afterLoopBody. rewrite Hheap0. by apply Z.ltb_lt in Hd as ->. }
    rewrite add_run_free in Hadd; try done.
    + fold r q0 in Hadd. rewrite Hbody in Hadd. injection Hadd as <-.
      by split_and!.
    + fold r q0. rewrite Hbody. by left.
  - intros Hfree Hd h Hh Hasync.
    assert (Hbody : afterLoopBody now r q0
                    = with_awaiting (awaiting q0 ++ [r]) (beginJob now r q0)).
    { apply (started_afterLoopBody now r q0 h); [by rewrite Hheap0| |done].
      by rewrite Hheap0. }
    rewrite add_run_free in Hadd; try done.
    + fold r q0 in Hadd. rewrite Hbody in Hadd. injection Hadd as <-.
      unfold q0 in *. revert Hheap0. unfold enqueue. count_simpl.
      intros Hheap0. rewrite upd_eq, Hheap0.
      split_and!; try done.
      unfold invocations in Hinv. by rewrite Hinv.
    + fold r q0. rewrite Hbody. by left.
Qed.

Lemma add_places_the_job_witness :
  reachable (after (take 2 busyDay) storyQueue)
  ∧ ∃ q', add 1020 "a7b1" "generate_story" "story-3" (withPriority 1)
            (after (take 2 busyDay) storyQueue) = Returned (q', 2)
     ∧ jobs q' = sortJobs (heap q') [2].
Proof.
  assert (H : reachable (after (take 2 busyDay) storyQueue)).
  { apply reach_after; [by apply reach_module_queue|]. vm_compute. tauto. }
  split; [exact H|].
  destruct (add_places_the_job _ 1020%Z "a7b1" "generate_story" "story-3"
              (withPriority 1) H) as (q'&Hadd&Hfull&_).
  exists q'. split; [exact Hadd|].
  apply Hfull. vm_compute. lia.
Defined.

(** ** Looking jobs up *)

Lemma getJob_sound q jobId r :
  getJob jobId q = Some r -> job_id (heap q r) = jobId ∧ r ∈ inArrays q.
Proof.
  unfold getJob. intros [Hin Hid]%find_some.
  apply bool_decide_eq_true in Hid. split; [done|].
  by apply list_elem_of_In.
Qed.

Lemma cleanup_arrays now maxAge q :
  heap (cleanup now maxAge q).1 = heap q
  ∧ jobs (cleanup now maxAge q).1 = jobs q
  ∧ processing (cleanup now maxAge q).1 = processing q
  ∧ completed (cleanup now maxAge q).1
    = filter (fun r => dateNotBefore (now - maxAge) (job_completedAt (heap q r)))
        (completed q)
  ∧ failed (cleanup now maxAge q).1
    = filter (fun r => dateNotBefore (now - maxAge) (job_failedAt (heap q r)))
        (failed q).
Proof.
  unfold cleanup. cbn [fst].
  by match goal with |- context [if ?b then _ else _] => destruct b end.
Qed.

Lemma cleanup_inArrays now maxAge q x :
  x ∈ inArrays (cleanup now maxAge q).1 -> x ∈ inArrays q.
Proof.
  destruct (cleanup_arrays now maxAge q) as (_&Hj&Hp&Hc&Hf).
  unfold inArrays. rewrite Hj, Hp, Hc, Hf, !elem_of_app, !list_elem_of_filter.
  tauto.
Qed.

(** X9.  [getJob] and [cleanup], when the jobs were added with distinct
    ids and without a [status] key.  [getJob] returns only a job that has
    the id asked for and is in one of the four arrays.  After a
    [cleanup], a completed or failed job older than the cutoff is no
    longer found; every job still in an array is found under its id; and
    an id that was not found before is not found afterwards. *)
Theorem getJob_after_cleanup q now maxAge :
  reach plainAdd q ->
  let cutoff := (now - maxAge)%Z in
  let q' := (cleanup now maxAge q).1 in
  (forall jobId r, getJob jobId q = Some r ->
     job_id (heap q r) = jobId ∧ r ∈ inArrays q)
  ∧ (forall r, r ∈ completed q ->
       dateBefore cutoff (job_completedAt (heap q r)) ->
       getJob (job_id (heap q r)) q' = None)
  ∧ (forall r, r ∈ failed q ->
       dateBefore cutoff (job_failedAt (heap q r)) ->
       getJob (job_id (heap q r)) q' = None)
  ∧ (forall r, r ∈ inArrays q' -> getJob (job_id (heap q r)) q' = Some r)
  ∧ (forall jobId, getJob jobId q = None -> getJob jobId q' = None).
Proof.
  intros Hreach cutoff q'.
  assert (Hwf := reach_wellFormed _ _ Hreach).
  destruct (reach_slots _ _ (fun _ _ H => proj1 H) Hreach) as [Hid _].
  destruct (cleanup_arrays now maxAge q) as (Hh&Hj&Hp&Hc&Hf).
  fold q' in Hh, Hj, Hp, Hc, Hf.
  assert (Hnd : NoDup (inArrays q)).
  { eapply NoDup_submseteq_inv; [by apply inArrays_live|apply Hwf]. }
  assert (Hlt : forall x, x ∈ inArrays q -> x < nextRef q).
  { intros x Hx. apply (wf_alloc _ Hwf).
    eapply elem_of_submseteq; [exact Hx|]. by apply inArrays_live. }
  assert (Hsub : forall x, x ∈ inArrays q' -> x ∈ inArrays q)
    by apply cleanup_inArrays.
  assert (Hgone : forall r, r ∈ inArrays q -> r ∉ inArrays q' ->
            getJob (job_id (heap q r)) q' = None).
  { intros r Hr Hnot. apply getJob_not_found. intros x Hx. rewrite Hh.
    intros Heq. apply Hnot.
    by rewrite <- (Hid x r (Hlt x (Hsub x Hx)) (Hlt r Hr) Heq). }
  unfold inArrays in Hnd.
  apply NoDup_app in Hnd as (_&Hd1&Hnd).
  apply NoDup_app in Hnd as (_&Hd2&Hnd).
  apply NoDup_app in Hnd as (_&Hd3&_).
  split_and!.
  - intros jobId r. apply getJob_sound.
  - intros r Hr Hold. apply Hgone; [unfold inArrays; set_solver|].
    unfold inArrays. rewrite Hj, Hp, Hc, Hf, !elem_of_app, !list_elem_of_filter.
    intros [?|[?|[[Hnew _]|[_ ?]]]].
    + eapply Hd1; eauto. set_solver.
    + eapply Hd2; eauto. set_solver.
    + destruct (job_completedAt (heap q r)); cbn in *; [lia|done].
    + eapply Hd3; eauto.
  - intros r Hr Hold. apply Hgone; [unfold inArrays; set_solver|].
    unfold inArrays. rewrite Hj, Hp, Hc, Hf, !elem_of_app, !list_elem_of_filter.
    intros [?|[?|[[_ ?]|[Hnew _]]]].
    + eapply Hd1; eauto. set_solver.
    + eapply Hd2; eauto. set_solver.
    + eapply Hd3; eauto.
    + destruct (job_failedAt (heap q r)); cbn in *; [lia|done].
  - intros r Hr. rewrite <- Hh. apply getJob_found; [done|].
    intros x Hx. rewrite Hh. intros Heq.
    exact (Hid x r (Hlt x (Hsub x Hx)) (Hlt r (Hsub r Hr)) Heq).
  - intros jobId Hnone. apply getJob_not_found. intros x Hx Heq.
    rewrite Hh in Heq.
    assert (Hfound : getJob (job_id (heap q x)) q = Some x).
    { apply getJob_found; [by apply Hsub|].
      intros y Hy Hyx. exact (Hid y x (Hlt y Hy) (Hlt x (Hsub x Hx)) Hyx). }
    congruence.
Qed.

Lemma getJob_after_cleanup_witness :
  reach plainAdd (after (take 8 busyDay) storyQueue)
  ∧ getJob "story_generation_1010_p0q2"
      (cleanup 90000000 86400000 (after (take 8 busyDay) storyQueue)).1 = None.
Proof.
  assert (H : reach plainAdd (after (take 8 busyDay) storyQueue)).
  { apply reach_after; [by apply reach_module_queue|].
    vm_compute. repeat split; repeat constructor; discriminate. }
  split; [exact H|].
  destruct (getJob_after_cleanup _ 90000000%Z 86400000%Z H) as (_&Hc&_).
  apply (Hc 1); vm_compute; [by left|reflexivity].
Defined.

(** ** Job ids *)

Lemma pretty_N_go_noUnderscore x : forall s,
  noUnderscore s -> noUnderscore (pretty_N_go x s).
Proof.
  induction (N.lt_wf_0 x) as [x _ IH]; intros s Hs.
  assert (x = 0 ∨ 0 < x)%N as [->|?] by lia.
  - by rewrite pretty_N_go_0.
  - rewrite pretty_N_go_step by done. apply IH; [by apply N.div_lt|].
    split; [|done]. unfold pretty_N_char. by repeat case_match.
Qed.

Lemma pretty_Z_noUnderscore (z : Z) : noUnderscore (pretty z).
Proof.
  assert (HN : forall n : N, noUnderscore (pretty n)).
  { intros n. unfold pretty, pretty_N. case_decide; [by cbn|].
    by apply pretty_N_go_noUnderscore. }
  destruct z as [|p|p]; [by cbn|apply HN|].
  split; [done|apply HN].
Qed.

Lemma append_cancel_l (p s t : string) : p +:+ s = p +:+ t -> s = t.
Proof. induction p as [|c p IH]; cbn; [done|]. intros [= H]. auto. Qed.

Lemma underscore_splits (s s' t t' : string) :
  noUnderscore s -> noUnderscore s' ->
  s +:+ "_" +:+ t = s' +:+ "_" +:+ t' -> s = s' ∧ t = t'.
Proof.
  revert s'. induction s as [|c s IH]; intros [|c' s'] Hs Hs' H; simpl in H.
  - injection H as H. simpl in H. by subst.
  - injection H as H1 H2. subst c'. by destruct Hs'.
  - injection H as H1 H2. subst c. by destruct Hs.
  - injection H as H1 H2. subst c'. destruct Hs, Hs'.
    by destruct (IH s') as [-> ->].
Qed.

Lemma generateJobId_inj q q' now rnd now' rnd' :
  name q = name q' ->
  generateJobId q now rnd = generateJobId q' now' rnd' ->
  now = now' ∧ rnd = rnd'.
Proof.
  unfold generateJobId. intros -> H.
  apply append_cancel_l in H. apply (append_cancel_l "_") in H.
  apply underscore_splits in H as [H ->]; [|apply pretty_Z_noUnderscore..].
  by apply (inj pretty) in H as ->.
Qed.

Lemma idsFrom_kept seen q q1 :
  nextRef q1 = nextRef q -> name q1 = name q ->
  (forall x, job_id (heap q1 x) = job_id (heap q x)) ->
  idsFrom seen q -> idsFrom seen q1.
Proof.
  intros Hn Hname Hid HK r Hr. rewrite Hn in Hr.
  destruct (HK r Hr) as (now&rnd&Hin&Heq). exists now, rnd. split; [done|].
  rewrite Hid, Heq. unfold generateJobId. by rewrite Hname.
Qed.

Lemma ids_step seen q ev q' :
  isProcessing q = false ->
  idsDistinct q -> idsFrom seen q ->
  generatesId ev -> (forall x, stampOf ev = Some x -> x ∉ seen) ->
  step q ev q' ->
  idsDistinct q' ∧ idsFrom (seen ++ stamps [ev]) q'.
Proof.
  intros Hidle Hd HK Hgen Hnew Hstep.
  assert (Hmore : forall q1, idsFrom seen q1 -> idsFrom (seen ++ stamps [ev]) q1).
  { intros q1 H1 r Hr. destruct (H1 r Hr) as (now&rnd&Hin&Heq).
    exists now, rnd. split; [set_solver|done]. }
  destruct (step_rule
    (fun q1 => idsDistinct q1 ∧ idsFrom (seen ++ stamps [ev]) q1))
    with (allowed := fun (q1 : JobQueue) (ev1 : Event) => q1 = q ∧ ev1 = ev)
         (q := q) (ev := ev) (q' := q') as [? _];
    [ | | | | | | | |exact Hidle|by split; [|apply Hmore]|done|exact Hstep|done].
  - intros q1 b [H1 H2]. split; [done|]. by eapply idsFrom_kept.
  - intros now q1 r rest [H1 H2] _ _.
    split; [by apply idsDistinct_afterLoopBody|].
    destruct (afterLoopBody_frame now r (with_jobs rest q1)) as (Hname&_&_&Hn&_).
    eapply idsFrom_kept; [exact Hn|exact Hname| |exact H2].
    intros x. exact (afterLoopBody_id now r (with_jobs rest q1) x).
  - intros q1 t h [H1 H2] _. split; [done|]. by eapply idsFrom_kept.
  - intros q1 now rnd t d o _ [-> <-]. cbn in Hgen.
    assert (Hid : job_id (newJob q now rnd t d o) = generateJobId q now rnd).
    { unfold newJob, spread. cbn. by rewrite Hgen. }
    split.
    + apply idsDistinct_enqueue; [|done]. unfold freshId. apply Forall_forall.
      intros r Hr%elem_of_seq. destruct (HK r) as (now'&rnd'&Hin&Heq); [lia|].
      rewrite Hid, Heq. intros Hsame.
      apply generateJobId_inj in Hsame as [-> ->]; [|done].
      by apply (Hnew (now, rnd)).
    + intros r Hr. unfold enqueue in *. qsimpl.
      change (generateJobId _ ?a ?b) with (generateJobId q a b).
      destruct (decide (r = nextRef q)) as [->|Hne].
      * rewrite upd_eq, Hid. exists now, rnd. split; [|done].
        cbn. set_solver.
      * rewrite upd_ne by done. destruct (HK r) as (now'&rnd'&Hin&Heq); [lia|].
        exists now', rnd'. split; [set_solver|done].
  - intros q1 now i r d [H1 H2] _ _.
    split; [by apply idsDistinct_reinsert|].
    eapply idsFrom_kept; [..|exact H2]; try done.
    intros x. unfold reinsert. qsimpl. unfold upd. by destruct (Nat.eqb x r).
  - intros q1 now i r res [H1 H2] _ _.
    split; [by apply idsDistinct_successBlock|].
    eapply idsFrom_kept; [..|exact H2]; try done.
    intros x. exact (successBlock_id now res r (resumed i q1) x).
  - intros q1 now i r e [H1 H2] _ _.
    split; [by apply idsDistinct_catchBlock|].
    destruct (catchBlock_frame now e r (resumed i q1)) as (Hname&_&_&Hn&_).
    eapply idsFrom_kept; [exact Hn|exact Hname| |exact H2].
    intros x. exact (catchBlock_id now e r (resumed i q1) x).
  - intros q1 now maxAge [H1 H2] _.
    split; [by apply idsDistinct_cleanup|].
    eapply idsFrom_kept; [..|exact H2]; unfold cleanup; cbn [fst];
      by match goal with |- context [if ?b then _ else _] => destruct b end.
Qed.

Lemma ids_along evs : forall seen q,
  isProcessing q = false -> idsDistinct q -> idsFrom seen q ->
  Forall generatesId evs -> NoDup (seen ++ stamps evs) ->
  idsDistinct (after evs q).
Proof.
  induction evs as [|ev evs IH]; intros seen q Hidle Hd HK Hgen Hnd; [done|].
  cbn [after]. destruct (exec ev q) as [[q'| |]|] eqn:He; try done.
  apply Forall_cons in Hgen as [Hg Hgen].
  assert (Hsplit : stamps (ev :: evs) = stamps [ev] ++ stamps evs).
  { unfold stamps. cbn. by destruct (stampOf ev). }
  rewrite Hsplit, app_assoc in Hnd.
  destruct (ids_step seen q ev q') as [Hd' HK']; try done.
  { intros x Hx Hin. apply NoDup_app in Hnd as (Hnd&_&_).
    apply NoDup_app in Hnd as (_&Hdis&_). apply (Hdis x Hin).
    unfold stamps. cbn. rewrite Hx. by left. }
  apply (IH (seen ++ stamps [ev])); try done.
  by eapply step_idle.
Qed.

Lemma allowedAlong_any evs : forall q, allowedAlong anyEvent evs q.
Proof.
  induction evs as [|ev evs IH]; intros q; [done|]. cbn [allowedAlong].
  by destruct (exec ev q) as [[q'| |]|].
Qed.

(** X10.  The ids of a queue.  [generateJobId] gives different ids for
    different pairs of clock reading and random suffix.  So when no call
    of [add] passes an [id] in its options and no two calls coincide in
    both the clock reading and the random suffix, the ids of all jobs
    ever created are pairwise distinct, and [getJob] finds every job that
    is in one of the four arrays under its id. *)
Theorem generated_ids_are_distinct evs queueName limit :
  Forall generatesId evs -> NoDup (stamps evs) ->
  let q := after evs (newQueue queueName limit) in
  (forall now rnd now' rnd',
     generateJobId q now rnd = generateJobId q now' rnd' ->
     now = now' ∧ rnd = rnd')
  ∧ idsDistinct q
  ∧ (forall r, r ∈ inArrays q -> getJob (job_id (heap q r)) q = Some r).
Proof.
  intros Hgen Hnd q.
  assert (Hd : idsDistinct q).
  { apply (ids_along evs []); try done.
    - intros r1 r2 Hr1. cbn in Hr1. lia.
    - intros r Hr. cbn in Hr. lia. }
  assert (Hwf : wellFormed q).
  { apply reach_wellFormed with anyEvent.
    apply reach_after; [apply reach_new|apply allowedAlong_any]. }
  split_and!; [|done|].
  - intros now rnd now' rnd'. by apply generateJobId_inj.
  - intros r Hr. apply getJob_found; [done|].
    assert (Hlt : forall x, x ∈ inArrays q -> x < nextRef q).
    { intros x Hx. apply (wf_alloc _ Hwf).
      eapply elem_of_submseteq; [exact Hx|]. by apply inArrays_live. }
    intros x Hx. apply Hd; auto.
Qed.

Lemma generated_ids_are_distinct_witness :
  Forall generatesId busyDay ∧ NoDup (stamps busyDay)
  ∧ idsDistinct (after busyDay (newQueue "story_generation" 2)).
Proof.
  assert (Hg : Forall generatesId busyDay) by (repeat constructor).
  assert (Hn : NoDup (stamps busyDay)).
  { apply (bool_decide_unpack _). by vm_compute. }
  split; [exact Hg|]. split; [exact Hn|].
  exact (proj1 (proj2 (generated_ids_are_distinct busyDay "story_generation" 2 Hg Hn))).
Defined.

(** * The queues of the module *)

Lemma kept_by_runs q0 q :
  isProcessing q0 = false -> reachFrom noProcess q0 q ->
  handlers q = handlers q0 ∧ concurrency q = concurrency q0 ∧ name q = name q0.
Proof.
  intros Hidle Hreach.
  refine (reachFrom_rule
    (fun q1 => handlers q1 = handlers q0 ∧ concurrency q1 = concurrency q0
               ∧ name q1 = name q0)
    noProcess _ _ _ _ _ _ _ _ q0 q Hidle _ Hreach); [..|done].
  - by intros q1 b.
  - intros now q1 r rest (H1&H2&H3) _ _.
    by destruct (afterLoopBody_frame now r (with_jobs rest q1)) as (->&->&->&_).
  - by intros q1 t h _ [].
  - by intros q1 now rnd t d o.
  - by intros q1 now i r d.
  - by intros q1 now i r res.
  - intros q1 now i r e (H1&H2&H3) _ _.
    by destruct (catchBlock_frame now e r (resumed i q1)) as (->&->&->&_).
  - intros q1 now maxAge (H1&H2&H3) _. unfold cleanup. cbn [fst].
    by match goal with |- context [if ?b then _ else _] => destruct b end.
Qed.

Lemma module_queue k s :
  moduleReach s ->
  reachable (getQueue k s)
  ∧ handlers (getQueue k s) !! jobTypeOf k = Some asyncHandler
  ∧ concurrency (getQueue k s) = concurrency (getQueue k moduleQueues).
Proof.
  intros Hs. specialize (Hs k).
  assert (Hi : isProcessing (getQueue k moduleQueues) = false) by (by destruct k).
  destruct (kept_by_runs _ _ Hi Hs) as (Hh&Hc&_).
  split_and!; [|rewrite Hh; by destruct k|done].
  apply reach_reachFrom with (getQueue k moduleQueues).
  - destruct k; by apply reach_module_queue.
  - eapply reachFrom_weaken; [|exact Hs]. done.
Qed.

Lemma module_step k s ev q' :
  moduleReach s -> noProcess (getQueue k s) ev -> step (getQueue k s) ev q' ->
  moduleReach (setQueue k q' s).
Proof.
  intros Hs Hev Hstep k'. destruct (decide (k' = k)) as [->|Hne].
  - replace (getQueue k (setQueue k q' s)) with q' by (by destruct k).
    eapply reachFrom_step; [apply Hs|exact Hev|exact Hstep].
  - replace (getQueue k' (setQueue k q' s)) with (getQueue k' s)
      by (by destruct k, k').
    apply Hs.
Qed.

Lemma addJobTo_unfold k now rnd data priority s :
  addJobTo k now rnd data priority s
  = add now rnd (jobTypeOf k) data (withPriority (default 0%Z priority))
      (getQueue k s)
    ≫= fun res => Returned (setQueue k res.1 s, res.2).
Proof. by destruct k. Qed.

(** X11.  The four functions that add jobs ([addStoryGenerationJob],
    [addImageGenerationJob], [addAudioGenerationJob], [addEmailJob]), in
    any state of the module's queues.  Each returns normally a new job of
    its own queue and leaves the other three queues as they are.  The job
    has the type the queue has a handler for, the payload and the
    priority given (0 when left out), [maxAttempts = 3], no failed
    attempt and no delay.  If the queue has a free slot the job is
    already in the processing array, started at the time of the call;
    otherwise it is in the waiting array with status [waiting]. *)
Theorem add_functions_enqueue_on_their_queue k now rnd data priority s :
  moduleReach s ->
  let q := getQueue k s in
  let r := nextRef q in
  ∃ s', addJobTo k now rnd data priority s = Returned (s', r)
    ∧ moduleReach s'
    ∧ (forall k', k' ≠ k -> getQueue k' s' = getQueue k' s)
    ∧ job_type (heap (getQueue k s') r) = jobTypeOf k
    ∧ job_data (heap (getQueue k s') r) = data
    ∧ job_priority (heap (getQueue k s') r) = default 0%Z priority
    ∧ job_maxAttempts (heap (getQueue k s') r) = 3%Z
    ∧ job_attempts (heap (getQueue k s') r) = 0
    ∧ job_delay (heap (getQueue k s') r) = 0%Z
    ∧ (length (processing q) < concurrency q ->
       job_status (heap (getQueue k s') r) = Processing
       ∧ job_startedAt (heap (getQueue k s') r) = Some now
       ∧ processing (getQueue k s') = processing q ++ [r]
       ∧ jobs (getQueue k s') = [])
    ∧ (concurrency q <= length (processing q) ->
       job_status (heap (getQueue k s') r) = Waiting
       ∧ r ∈ jobs (getQueue k s')
       ∧ processing (getQueue k s') = processing q).
Proof.
  intros Hs q r.
  destruct (module_queue k s Hs) as (Hreach&Hh&_). fold q in Hreach, Hh.
  set (o := withPriority (default 0%Z priority)).
  set (job := newJob q now rnd (jobTypeOf k) data o).
  assert (Hjob : job_type job = jobTypeOf k ∧ job_data job = data
                 ∧ job_priority job = default 0%Z priority
                 ∧ job_maxAttempts job = 3%Z ∧ job_attempts job = 0
                 ∧ job_delay job = 0%Z ∧ job_status job = Waiting).
  { by subst job o. }
  destruct Hjob as (Ht&Hdt&Hp&Hm&Ha&Hd&Hst).
  destruct (enqueue_places_job q now rnd (jobTypeOf k) data o) as [Hin Hheap].
  fold r job in Hin, Hheap.
  set (q0 := with_jobs [] (with_isProcessing true
               (enqueue now rnd (jobTypeOf k) data o q))).
  assert (Hq' : ∃ q', add now rnd (jobTypeOf k) data o q = Returned (q', r)
    ∧ (length (processing q) < concurrency q ->
       q' = with_isProcessing false
              (with_awaiting (awaiting q0 ++ [r]) (beginJob now r q0)))
    ∧ (concurrency q <= length (processing q) ->
       q' = enqueue now rnd (jobTypeOf k) data o q)).
  { destruct (decide (length (processing q) < concurrency q)) as [Hfree|Hfull].
    - assert (Hbody : afterLoopBody now r q0
                      = with_awaiting (awaiting q0 ++ [r]) (beginJob now r q0)).
      { apply (started_afterLoopBody now r q0 asyncHandler); [| |done].
        - replace (heap q0 r) with job by done. lia.
        - replace (heap q0 r) with job by done. by rewrite Ht. }
      eexists. split; [|split; [done|lia]].
      rewrite add_run_free; try done.
      + fold r q0. by rewrite Hbody.
      + fold r q0. rewrite Hbody. by left.
    - eexists. split; [|split; [lia|done]].
      apply add_run_full; [done|lia]. }
  destruct Hq' as (q'&Hadd&Hfree&Hfull).
  exists (setQueue k q' s).
  assert (Hget : getQueue k (setQueue k q' s) = q') by (by destruct k).
  rewrite Hget.
  assert (Hj' : heap q' r = job ∨ heap q' r = jobStart now job).
  { destruct (decide (length (processing q) < concurrency q)) as [H|H].
    - right. rewrite (Hfree H). unfold q0. qsimpl. by rewrite upd_eq, Hheap.
    - left. rewrite Hfull by lia. exact Hheap. }
  split_and!; try (by destruct Hj' as [-> | ->]).
  - rewrite addJobTo_unfold. fold q o. by rewrite Hadd.
  - apply (module_step k s (EvAdd now rnd (jobTypeOf k) data o)); [done|done|].
    unfold step. cbn [exec]. fold q. by rewrite Hadd.
  - intros k' Hne. by destruct k, k'.
  - intros H. rewrite (Hfree H). unfold q0. qsimpl. rewrite upd_eq, Hheap.
    by split_and!.
  - intros H. rewrite (Hfull H). rewrite Hheap. by split_and!.
Qed.

Lemma add_functions_enqueue_on_their_queue_witness :
  moduleReach moduleQueues
  ∧ ∃ s', addJobTo Story 1000 "k3x9" "story-1" None moduleQueues
          = Returned (s', nextRef (getQueue Story moduleQueues))
     ∧ moduleReach s'.
Proof.
  assert (H : moduleReach moduleQueues) by (intros k; constructor).
  split; [exact H|].
  destruct (add_functions_enqueue_on_their_queue Story 1000%Z "k3x9" "story-1"
              None moduleQueues H) as (s'&Hadd&Hs'&_).
  exists s'. split; [exact Hadd|exact Hs'].
Defined.



(** * The logger *)

Lemma log_written lg timestamp lvl message meta :
  is_Some (Logger.log lg timestamp lvl message meta)
  ↔ ∃ threshold, Logger.level lg = Some threshold ∧ lvl <= threshold.
Proof.
  unfold Logger.log. destruct (Logger.level lg) as [threshold|].
  - destruct (Nat.leb_spec lvl threshold).
    + split; [|by eexists]. intros _. by exists threshold.
    + split; [by intros []|]. intros (?&[= <-]&?). lia.
  - split; [by intros []|]. by intros (?&?&?).
Qed.

Lemma LOG_LEVELS_Some levelName n :
  Logger.LOG_LEVELS levelName = Some n
  ↔ (levelName = "ERROR" ∧ n = 0) ∨ (levelName = "WARN" ∧ n = 1)
    ∨ (levelName = "INFO" ∧ n = 2) ∨ (levelName = "DEBUG" ∧ n = 3).
Proof.
  unfold Logger.LOG_LEVELS. repeat case_decide; subst; split;
    try (intros [= <-]; tauto); try done;
    intros [[? ->]|[[? ->]|[[? ->]|[? ->]]]]; congruence.
Qed.

(** X13.  What the logger writes, by the value of [LOG_LEVEL] in the
    environment when the logger was built.  Unset or empty: the threshold
    is [INFO].  One of [error], [warn], [info], [debug] in any mix of
    upper and lower case: that level.  Any other value: the threshold is
    undefined and nothing is ever written, not even errors.  With a
    threshold, a call is written exactly when its level is at most the
    threshold: errors with [console.error], warnings with [console.warn],
    the rest with [console.log]. *)
Theorem log_level_decides_what_is_written env ctx :
  let lg := Logger.new env ctx in
  ((env = None ∨ env = Some "") -> Logger.level lg = Some 2)
  ∧ (forall v n, env = Some v ->
       Logger.LOG_LEVELS (toUpperCase v) = Some n -> Logger.level lg = Some n)
  ∧ (forall v, env = Some v -> v ≠ "" ->
       toUpperCase v ∉ ["ERROR"; "WARN"; "INFO"; "DEBUG"] ->
       Logger.level lg = None
       ∧ forall timestamp lvl message meta,
           Logger.log lg timestamp lvl message meta = None)
  ∧ (forall timestamp lvl message meta,
       is_Some (Logger.log lg timestamp lvl message meta)
       ↔ ∃ threshold, Logger.level lg = Some threshold ∧ lvl <= threshold)
  ∧ (forall timestamp message meta c entry,
       (Logger.error lg timestamp message meta = Some (c, entry) ->
        c = ConsoleError)
       ∧ (Logger.warn lg timestamp message meta = Some (c, entry) ->
          c = ConsoleWarn)
       ∧ (Logger.info lg timestamp message meta = Some (c, entry) ->
          c = ConsoleLog)
       ∧ (Logger.debug lg timestamp message meta = Some (c, entry) ->
          c = ConsoleLog))
  ∧ (forall timestamp message meta,
       is_Some (Logger.error lg timestamp message meta)
       ↔ is_Some (Logger.level lg)).
Proof.
  intros lg. split_and!.
  - by intros [->| ->].
  - intros v n -> Hn. subst lg. unfold Logger.new. cbn.
    destruct v as [|c v]; [|done]. by apply LOG_LEVELS_Some in Hn as [[? ?]|[[? ?]|[[? ?]|[? ?]]]].
  - intros v -> Hne Hnot.
    assert (Hl : Logger.level lg = None).
    { subst lg. unfold Logger.new. cbn. destruct v as [|c v]; [done|].
      destruct (Logger.LOG_LEVELS (toUpperCase (String c v))) as [n|] eqn:Hn;
        [|done].
      exfalso. apply Hnot.
      apply LOG_LEVELS_Some in Hn as [[-> ?]|[[-> ?]|[[-> ?]|[-> ?]]]];
        set_solver. }
    split; [done|]. intros. unfold Logger.log. by rewrite Hl.
  - intros. apply log_written.
  - intros timestamp message meta c entry.
    unfold Logger.error, Logger.warn, Logger.info, Logger.debug, Logger.log.
    destruct (Logger.level lg) as [threshold|]; [|done].
    split_and!; match goal with |- context [if ?b then _ else _] => destruct b end;
      by intros [= <- _].
  - intros timestamp message meta. unfold Logger.error.
    rewrite log_written. split.
    + intros (t&->&_). by eexists.
    + intros [t ->]. exists t. split; [done|lia].
Qed.

Lemma log_level_decides_what_is_written_witness :
  Logger.level (Logger.new (Some "Debug") "app") = Some 3
  ∧ Logger.log (Logger.new (Some "verbose") "app") "" 0 "boom" ∅ = None.
Proof.
  destruct (log_level_decides_what_is_written (Some "Debug") "app")
    as (_&Hknown&_).
  destruct (log_level_decides_what_is_written (Some "verbose") "app")
    as (_&_&Hunknown&_).
  split.
  - by apply (Hknown "Debug" 3).
  - apply (Hunknown "verbose"); [done|done|].
    apply (bool_decide_unpack _). by vm_compute.
Defined.

(** X14.  The object a log line holds.  The keys of [meta] are spread
    last: a key of [meta] is in the line with the value [meta] gives it,
    also when it is one of [timestamp], [level], [context] and [message];
    a standard key that [meta] does not have keeps its standard value
    ([level] is left out when the level number has no name); and the line
    has no other keys.  None of the [meta] objects that the queue passes
    has one of the four standard keys. *)
Theorem meta_keys_replace_standard_keys lg timestamp lvl message meta :
  let entry := Logger.formatMessage lg timestamp lvl message meta in
  (forall k v, meta !! k = Some v -> entry !! k = Some v)
  ∧ (meta !! "timestamp" = None ->
     entry !! "timestamp" = Some (VString timestamp))
  ∧ (meta !! "level" = None ->
     entry !! "level" = VString <$> Logger.LOG_LEVEL_NAMES lvl)
  ∧ (meta !! "context" = None ->
     entry !! "context" = Some (VString (Logger.context lg)))
  ∧ (meta !! "message" = None -> entry !! "message" = Some (VString message))
  ∧ (forall k, is_Some (entry !! k) ->
       is_Some (meta !! k)
       ∨ k ∈ ["timestamp"; "level"; "context"; "message"])
  ∧ (forall e k, k ∈ entryMetaKeys e ->
       k ∉ ["timestamp"; "level"; "context"; "message"]).
Proof.
  intros entry. subst entry. unfold Logger.formatMessage.
  split_and!.
  - intros k v Hk. by apply lookup_union_Some_l.
  - intros Hk. rewrite lookup_union_r by done. by rewrite lookup_insert_eq.
  - intros Hk. rewrite lookup_union_r by done.
    rewrite lookup_insert_ne by done.
    destruct (Logger.LOG_LEVEL_NAMES lvl) as [n|]; cbn.
    + by rewrite lookup_insert_eq.
    + by rewrite !lookup_insert_ne.
  - intros Hk. rewrite lookup_union_r by done.
    rewrite lookup_insert_ne by done.
    destruct (Logger.LOG_LEVEL_NAMES lvl) as [n|]; cbn.
    + rewrite lookup_insert_ne by done. by rewrite lookup_insert_eq.
    + by rewrite lookup_insert_eq.
  - intros Hk. rewrite lookup_union_r by done.
    rewrite lookup_insert_ne by done.
    destruct (Logger.LOG_LEVEL_NAMES lvl) as [n|]; cbn.
    + rewrite !lookup_insert_ne by done. by rewrite lookup_insert_eq.
    + rewrite lookup_insert_ne by done. by rewrite lookup_insert_eq.
  - intros k [v Hv]. apply lookup_union_Some_raw in Hv as [Hv|[_ Hv]];
      [left; by eexists|right].
    destruct (decide (k = "timestamp")) as [->|?]; [set_solver|].
    rewrite lookup_insert_ne in Hv by done.
    destruct (decide (k = "level")) as [->|?]; [set_solver|].
    destruct (decide (k = "context")) as [->|?]; [set_solver|].
    destruct (decide (k = "message")) as [->|?]; [set_solver|].
    destruct (Logger.LOG_LEVEL_NAMES lvl) as [nm|]; cbn in Hv;
      by rewrite !lookup_insert_ne in Hv by done.
  - intros e k Hk Hstd. destruct e; cbn in Hk;
      repeat (apply elem_of_cons in Hk as [->|Hk];
              [by repeat (apply elem_of_cons in Hstd as [?|Hstd]; [done|]);
                  apply elem_of_nil in Hstd|]);
      by apply elem_of_nil in Hk.
Qed.

Lemma meta_keys_replace_standard_keys_witness :
  Logger.formatMessage (logger None) "2024-01-01T00:00:00.000Z" 2
    "Security Event" {["message" := VString "spoofed"]} !! "message"
  = Some (VString "spoofed").
Proof.
  destruct (meta_keys_replace_standard_keys (logger None)
              "2024-01-01T00:00:00.000Z" 2 "Security Event"
              {["message" := VString "spoofed"]}) as (Hmeta&_).
  apply Hmeta. apply lookup_singleton_eq.
Defined.

(** ** What the queue writes to the console *)

Lemma consoleOf_cases lg e :
  consoleOf lg e
  = match Logger.level lg with
    | Some threshold =>
        if isFailure e then Some ConsoleError
        else if (2 <=? threshold)%nat then Some ConsoleLog else None
    | None => None
    end.
Proof.
  unfold consoleOf, Logger.log. destruct (Logger.level lg) as [threshold|]; [|done].
  destruct e; cbn [entryLevel isFailure]; try done;
    by destruct (2 <=? threshold)%nat.
Qed.

(** X15.  The lines that the calls of the queue put on the console, for a
    logger built with the environment variable [LOG_LEVEL] as it is.
    With no threshold (an unknown level name) the queue writes nothing.
    With the threshold [ERROR] or [WARN] it writes exactly its failure
    lines (['Job processing failed'], ['Job failed permanently']), with
    [console.error].  With [INFO] or [DEBUG] it writes every line, in the
    order of the calls: the failure lines with [console.error], the
    others with [console.log]. *)
Theorem queue_console_output env q :
  let lg := logger env in
  (Logger.level lg = None -> written lg q = [])
  ∧ (forall threshold, Logger.level lg = Some threshold -> threshold < 2 ->
       written lg q
       = (fun e => (ConsoleError, e)) <$> filter (fun e => isFailure e) (rev (log q)))
  ∧ (forall threshold, Logger.level lg = Some threshold -> 2 <= threshold ->
       written lg q
       = (fun e => (if isFailure e then ConsoleError else ConsoleLog, e))
           <$> rev (log q)).
Proof.
  intros lg. unfold written. generalize (rev (log q)). intros l.
  split_and!.
  - intros Hl. induction l as [|e l IH]; [done|]. cbn.
    by rewrite consoleOf_cases, Hl.
  - intros threshold Hl Hlt. induction l as [|e l IH]; [done|].
    rewrite filter_cons. cbn -[filter].
    rewrite consoleOf_cases, Hl.
    assert (Hb : (2 <=? threshold)%nat = false) by (apply Nat.leb_gt; lia).
    rewrite Hb. destruct (isFailure e) eqn:He; cbn -[filter]; by rewrite IH.
  - intros threshold Hl Hge. induction l as [|e l IH]; [done|]. cbn.
    rewrite consoleOf_cases, Hl.
    assert (Hb : (2 <=? threshold)%nat = true) by (apply Nat.leb_le; lia).
    rewrite Hb. destruct (isFailure e); cbn; by rewrite IH.
Qed.

Lemma queue_console_output_witness :
  Logger.level (logger (Some "error")) = Some 0
  ∧ written (logger (Some "error")) (after zeroCeilingFailure storyQueue)
    = [(ConsoleError, JobAttemptFailed 0 1 "timeout");
       (ConsoleError, JobFailedPermanently 0 1)].
Proof.
  assert (Hl : Logger.level (logger (Some "error")) = Some 0) by done.
  split; [exact Hl|].
  destruct (queue_console_output (Some "error") (after zeroCeilingFailure storyQueue))
    as (_&Hlow&_).
  rewrite (Hlow 0 Hl) by lia. by vm_compute.
Defined.

(** * The handlers of the module's queues *)






(** * What a settled job hands its slot to *)









(** * The cache *)

Lemma get_lookup {A} now key (c : MemoryCache.t A) :
  (MemoryCache.get now key c).1
  = item ← MemoryCache.cache c !! key;
    if (now >? MemoryCache.expiresAt item)%Z then None
    else MemoryCache.value item.
Proof.
  unfold MemoryCache.get. destruct (MemoryCache.cache c !! key) as [item|]; [|done].
  cbn. by destruct (now >? _)%Z.
Qed.

(** [get] removes the entry it finds expired and nothing else. *)
Lemma get_cache {A} now key (c : MemoryCache.t A) k :
  MemoryCache.cache (MemoryCache.get now key c).2 !! k
  = match MemoryCache.cache c !! k with
    | Some item =>
        if decide (k = key) then
          if (now >? MemoryCache.expiresAt item)%Z then None else Some item
        else Some item
    | None => None
    end.
Proof.
  unfold MemoryCache.get.
  destruct (decide (k = key)) as [->|Hne].
  - destruct (MemoryCache.cache c !! key) as [item|] eqn:Hk; [|by cbn; rewrite Hk].
    destruct (now >? MemoryCache.expiresAt item)%Z; cbn.
    + by rewrite lookup_delete_eq.
    + by rewrite Hk.
  - destruct (MemoryCache.cache c !! key) as [item|] eqn:Hk; cbn.
    + destruct (now >? MemoryCache.expiresAt item)%Z; cbn.
      * rewrite lookup_delete_ne by done. by destruct (MemoryCache.cache c !! k).
      * by destruct (MemoryCache.cache c !! k).
    + by destruct (MemoryCache.cache c !! k).
Qed.

Lemma delete_cache {A} key (c : MemoryCache.t A) :
  MemoryCache.cache (MemoryCache.delete key c).2
  = base.delete key (MemoryCache.cache c).
Proof.
  unfold MemoryCache.delete.
  destruct (MemoryCache.cache c !! key) eqn:Hk; cbn; [done|].
  by rewrite delete_id.
Qed.

(** The loop of [cleanup] removes from the map it works on the keys whose
    entry has expired. *)
Lemma cleanupLoop_lookup {A} now (entries m0 : gmap string (MemoryCache.Item A))
    n0 k :
  (MemoryCache.cleanupLoop now entries (m0, n0)).1 !! k
  = match entries !! k with
    | Some item =>
        if (now >? MemoryCache.expiresAt item)%Z then None else m0 !! k
    | None => m0 !! k
    end.
Proof.
  unfold MemoryCache.cleanupLoop.
  apply (map_fold_weak_ind
    (fun r m => r.1 !! k
       = match m !! k with
         | Some item =>
             if (now >? MemoryCache.expiresAt item)%Z then None else m0 !! k
         | None => m0 !! k
         end)).
  - by rewrite lookup_empty.
  - intros i x m [m' n'] Hi IH. cbn [fst] in IH.
    destruct (decide (k = i)) as [->|Hne].
    + rewrite lookup_insert_eq. rewrite Hi in IH.
      destruct (now >? MemoryCache.expiresAt x)%Z; cbn [fst]; [|done].
      by rewrite lookup_delete_eq.
    + rewrite lookup_insert_ne by done.
      destruct (now >? MemoryCache.expiresAt x)%Z; cbn [fst]; [|done].
      by rewrite lookup_delete_ne.
Qed.

Lemma cleanup_lookup {A} now (c : MemoryCache.t A) k :
  MemoryCache.cache (MemoryCache.cleanup now c) !! k
  = item ← MemoryCache.cache c !! k;
    if (now >? MemoryCache.expiresAt item)%Z then None else Some item.
Proof.
  unfold MemoryCache.cleanup.
  pose proof (cleanupLoop_lookup now (MemoryCache.cache c) (MemoryCache.cache c) 0 k)
    as H.
  destruct (MemoryCache.cleanupLoop now _ _) as [m cleaned]. cbn [fst] in H.
  assert (Hm : MemoryCache.cache
                 (if (0 <? cleaned)%nat
                  then MemoryCache.logs 3 "Cache cleanup"
                         {[ "itemsCleaned" := VNumber (Z.of_nat cleaned) ]}
                         (MemoryCache.with_cache m c)
                  else MemoryCache.with_cache m c) = m)
    by (by destruct (0 <? cleaned)%nat).
  rewrite Hm, H. destruct (MemoryCache.cache c !! k) as [item|]; [|done].
  cbn. by destruct (now >? _)%Z.
Qed.

(** X18.  The round trip of the cache.  A value stored with [set] at the
    time [now] is what [get] returns for its key as long as the clock has
    not passed [now + ttl], where [ttl] is the argument of [set] or, when
    that is left out, the default of the cache; [get] leaves the map as it
    is then.  From the first millisecond after [now + ttl], [get] returns
    [null] and removes the entry.  What [get] returns for another key is
    what it returned before the [set]. *)
Theorem stored_value_is_served_until_it_expires {A} (c : MemoryCache.t A)
    now key v ttl later :
  let c1 := MemoryCache.set now key v ttl c in
  let life := default (MemoryCache.defaultTTL c) ttl in
  ((later <= now + life)%Z ->
     (MemoryCache.get later key c1).1 = v
     ∧ MemoryCache.cache (MemoryCache.get later key c1).2 = MemoryCache.cache c1)
  ∧ ((now + life < later)%Z ->
       (MemoryCache.get later key c1).1 = None
       ∧ MemoryCache.cache (MemoryCache.get later key c1).2 !! key = None)
  ∧ (forall key', key' ≠ key ->
       (MemoryCache.get later key' c1).1 = (MemoryCache.get later key' c).1).
Proof.
  intros c1 life.
  assert (Hk : MemoryCache.cache c1 !! key
               = Some (MemoryCache.Build_Item v (now + life)%Z)).
  { subst c1. cbn. by rewrite lookup_insert_eq. }
  split_and!.
  - intros Hle. unfold MemoryCache.get. rewrite Hk. cbn [MemoryCache.expiresAt].
    destruct (Z.gtb_spec later (now + life)); [lia|done].
  - intros Hlt. unfold MemoryCache.get. rewrite Hk. cbn [MemoryCache.expiresAt].
    destruct (Z.gtb_spec later (now + life)); [|lia]. cbn.
    by rewrite lookup_delete_eq.
  - intros key' Hne. rewrite !get_lookup. subst c1. cbn.
    by rewrite lookup_insert_ne.
Qed.

(** X19.  The sweep of the cache cannot be seen through [get].  [cleanup]
    at the time [now] removes the entries that have expired by then and
    keeps every other entry as it is; for a clock that does not go back,
    [get] returns for every key what it would have returned without the
    sweep. *)
Theorem cleanup_is_not_observable {A} (c : MemoryCache.t A) now later key :
  (now <= later)%Z ->
  (MemoryCache.get later key (MemoryCache.cleanup now c)).1
  = (MemoryCache.get later key c).1
  ∧ forall k item,
      MemoryCache.cache (MemoryCache.cleanup now c) !! k = Some item
      <-> MemoryCache.cache c !! k = Some item
          ∧ (now <= MemoryCache.expiresAt item)%Z.
Proof.
  intros Hle. split.
  - rewrite !get_lookup, cleanup_lookup.
    destruct (MemoryCache.cache c !! key) as [item|]; [|done]. cbn.
    destruct (Z.gtb_spec now (MemoryCache.expiresAt item)); [|done]. cbn.
    destruct (Z.gtb_spec later (MemoryCache.expiresAt item)); [done|lia].
  - intros k item. rewrite cleanup_lookup.
    destruct (MemoryCache.cache c !! k) as [item'|]; cbn; [|naive_solver].
    destruct (Z.gtb_spec now (MemoryCache.expiresAt item')).
    + split; [done|]. intros [[= ->] ?]. lia.
    + split; [intros [= ->]; split; [done|lia]|]. by intros [[= ->] _].
Qed.

Lemma cleanup_is_not_observable_witness :
  (1500 <= 2000)%Z
  ∧ (MemoryCache.get 2000 "user:7:"
       (MemoryCache.cleanup 1500
          (MemoryCache.set 1000 "user:7:" (Some "Ada") (Some 300%Z)
             (MemoryCache.new None)))).1
    = (MemoryCache.get 2000 "user:7:"
         (MemoryCache.set 1000 "user:7:" (Some "Ada") (Some 300%Z)
            (MemoryCache.new None))).1.
Proof.
  assert (H : (1500 <= 2000)%Z) by lia.
  split; [exact H|].
  exact (proj1 (cleanup_is_not_observable
                  (MemoryCache.set 1000 "user:7:" (Some "Ada") (Some 300%Z)
                     (MemoryCache.new None)) 1500 2000 "user:7:" H)).
Defined.

Lemma withCache_miss {A} now key ttl (c c1 : MemoryCache.t A) resume :
  withCache now key ttl c = Await c1 resume ->
  resume = (fun later fetched c2 =>
              match fetched with
              | FetchReturns data =>
                  (Returned data, MemoryCache.set later key data ttl c2)
              | FetchFails e => (Threw e, c2)
              end).
Proof.
  unfold withCache. destruct (MemoryCache.get now key c) as [[v|] c']; [done|].
  by intros [= _ <-].
Qed.

(** What [withCache] does with the entry of its key. *)
Lemma withCache_cases {A} now key ttl (c : MemoryCache.t A) :
  match MemoryCache.cache c !! key with
  | Some item =>
      if (now >? MemoryCache.expiresAt item)%Z
      then ∃ c1 resume, withCache now key ttl c = Await c1 resume
      else match MemoryCache.value item with
           | Some v => ∃ c1, withCache now key ttl c = Done (Some v) c1
           | None => ∃ c1 resume, withCache now key ttl c = Await c1 resume
           end
  | None => ∃ c1 resume, withCache now key ttl c = Await c1 resume
  end.
Proof.
  unfold withCache, MemoryCache.get.
  destruct (MemoryCache.cache c !! key) as [item|]; [|by eexists _, _].
  destruct (now >? MemoryCache.expiresAt item)%Z; [by eexists _, _|].
  destruct (MemoryCache.value item); [by eexists|by eexists _, _].
Qed.

(** X20.  What [withCache] serves from the cache.  Let a call of
    [withCache] miss and await its fetcher.  When the fetcher fails, the
    call fails with the same error and leaves the cache as it is.  When
    the fetcher returns, the call returns the data and stores them; a
    later call for the same key returns them without calling its fetcher
    as long as the entry has not expired, unless the data are [null]:
    after a fetcher returned [null], every call for the key calls its
    fetcher again. *)
Theorem null_is_never_served_from_the_cache {A} (c0 c1 c : MemoryCache.t A)
    now key ttl resume later data now' ttl' :
  withCache now key ttl c0 = Await c1 resume ->
  (forall e, resume later (FetchFails e) c = (Threw e, c))
  ∧ (resume later (FetchReturns data) c).1 = Returned data
  ∧ let c2 := (resume later (FetchReturns data) c).2 in
    match data with
    | Some v =>
        (now' <= later + default (MemoryCache.defaultTTL c) ttl)%Z ->
        ∃ c3, withCache now' key ttl' c2 = Done (Some v) c3
    | None => ∃ c3 resume', withCache now' key ttl' c2 = Await c3 resume'
    end.
Proof.
  intros ->%withCache_miss. split; [done|]. split; [done|]. cbn [snd].
  pose proof (withCache_cases now' key ttl'
                (MemoryCache.set later key data ttl c)) as H.
  cbn in H. rewrite lookup_insert_eq in H. cbn in H.
  destruct data as [v|].
  - intros Hle.
    by destruct (Z.gtb_spec now' (later + default (MemoryCache.defaultTTL c) ttl));
      [lia|].
  - by destruct (now' >? _)%Z.
Qed.

Lemma null_is_never_served_from_the_cache_witness :
  ∃ c1 resume,
    withCache 1000 "story:9:" (Some 1800%Z) (MemoryCache.new (A:=string) None)
    = Await c1 resume
    ∧ ∃ c3 resume',
        withCache 1001 "story:9:" (Some 1800%Z)
          (resume 1000%Z (FetchReturns None) c1).2 = Await c3 resume'.
Proof.
  eexists _, _. split; [reflexivity|].
  refine (proj2 (proj2 (null_is_never_served_from_the_cache
            (MemoryCache.new None) _ _ 1000 "story:9:" (Some 1800%Z) _
            1000 None 1001 (Some 1800%Z) _))).
  reflexivity.
Defined.

Lemma within_served {S A} (part : S -> MemoryCache.t A) put key life
    now (s s1 s' : S) resume later v now' :
  (forall c s0, part (put c s0) = c) ->
  within part put (withCache now key (Some life)) s = Await s1 resume ->
  let s2 := (resume later (FetchReturns (Some v)) s').2 in
  ((now' <= later + life)%Z ->
     ∃ s3, within part put (withCache now' key (Some life)) s2
           = Done (Some v) s3)
  ∧ ((later + life < now')%Z ->
       ∃ s3 resume', within part put (withCache now' key (Some life)) s2
                     = Await s3 resume').
Proof.
  intros Hpart Hf. unfold within in Hf.
  destruct (withCache now key (Some life) (part s)) as [|c k] eqn:Hw; [done|].
  injection Hf as _ <-. apply withCache_miss in Hw as ->. cbn [snd].
  pose proof (withCache_cases now' key (Some life)
                (MemoryCache.set later key (Some v) (Some life) (part s'))) as H.
  cbn in H. rewrite lookup_insert_eq in H. cbn in H.
  unfold within. rewrite Hpart.
  split; intros Ht; destruct (Z.gtb_spec now' (later + life)); try lia.
  - destruct H as [c3 ->]. by eexists.
  - destruct H as (c3&r&->). by eexists _, _.
Qed.

(** X21.  How long the cached lookups of the module serve an entry.  The
    time to live that [getCachedUser] and [getCachedStoryList] pass to
    the cache is 300, and [getCachedStory] passes 1800; the cache adds it
    to a clock in milliseconds.  So a user or a list of stories fetched at
    the time [later] is served from the cache up to the millisecond
    [later + 300], a story up to [later + 1800], and the next call after
    that awaits its fetcher again. *)
Theorem cached_lookups_live_for_milliseconds {A} userId storyId filters
    (f : Z -> Caches A -> Async (Caches A) A) life
    now s s1 resume later s' v now' :
  (f, life) ∈ [ (fun t => getCachedUser t userId, 300%Z);
                (fun t => getCachedStory t storyId, 1800%Z);
                (fun t => getCachedStoryList t userId filters, 300%Z) ] ->
  f now s = Await s1 resume ->
  let s2 := (resume later (FetchReturns (Some v)) s').2 in
  ((now' <= later + life)%Z -> ∃ s3, f now' s2 = Done (Some v) s3)
  ∧ ((later + life < now')%Z -> ∃ s3 resume', f now' s2 = Await s3 resume').
Proof.
  intros Hf Hawait.
  apply elem_of_cons in Hf as [[= -> ->]|Hf];
    [|apply elem_of_cons in Hf as [[= -> ->]|Hf];
      [|apply list_elem_of_singleton in Hf as [= -> ->]]].
  - by apply (within_served userCache with_userCache _ _ now s s1 s').
  - by apply (within_served storyCache with_storyCache _ _ now s s1 s').
  - by apply (within_served userCache with_userCache _ _ now s s1 s').
Qed.

Lemma cached_lookups_live_for_milliseconds_witness :
  match getCachedUser 1000 "7" (moduleCaches (A:=string)) with
  | Await s1 resume =>
      let s2 := (resume 1000%Z (FetchReturns (Some "Ada")) s1).2 in
      (∃ s3, getCachedUser 1300 "7" s2 = Done (Some "Ada") s3)
      ∧ ∃ s3 resume', getCachedUser 1301 "7" s2 = Await s3 resume'
  | Done _ _ => False
  end.
Proof.
  assert (Hin : ((fun t => getCachedUser (A:=string) t "7", 300%Z))
                ∈ [ (fun t => getCachedUser t "7", 300%Z);
                    (fun t => getCachedStory t "9", 1800%Z);
                    (fun t => getCachedStoryList t "7" "{}", 300%Z) ])
    by constructor.
  destruct (getCachedUser 1000 "7" moduleCaches) as [|s1 resume] eqn:H;
    [by vm_compute in H|].
  split.
  - apply (cached_lookups_live_for_milliseconds "7" "9" "{}" _ _
             1000 moduleCaches s1 resume 1000 s1 "Ada" 1300 Hin H). lia.
  - apply (cached_lookups_live_for_milliseconds "7" "9" "{}" _ _
             1000 moduleCaches s1 resume 1000 s1 "Ada" 1301 Hin H). lia.
Defined.

Lemma userCacheKey_unfold userId suffix :
  userCacheKey userId suffix = "user:" +:+ userId +:+ ":" +:+ default "" suffix.
Proof. done. Qed.

(** The key of a list of stories is none of the keys that the
    invalidations delete for its user. *)
Lemma story_list_key userId filters suffix :
  suffix ∈ [None; Some "stories"; Some "preferences"] ->
  userCacheKey userId (Some ("stories:" +:+ filters)) ≠ userCacheKey userId suffix.
Proof.
  intros Hs. rewrite !userCacheKey_unfold. intros H.
  apply (append_cancel_l "user:"), append_cancel_l, (append_cancel_l ":") in H.
  set_unfold in Hs. destruct Hs as [->|[->|[->|[]]]]; simpl in H; done.
Qed.

Lemma invalidateUserCache_cache {A} userId (s : Caches A) :
  MemoryCache.cache (userCache (invalidateUserCache userId s))
  = base.delete (userCacheKey userId (Some "preferences"))
      (base.delete (userCacheKey userId (Some "stories"))
         (base.delete (userCacheKey userId None)
            (MemoryCache.cache (userCache s)))).
Proof.
  unfold invalidateUserCache. cbn [foldl moduleLogs userCache with_userCache].
  by rewrite !delete_cache.
Qed.

Lemma invalidateStoryCache_cache {A} storyId userId (s : Caches A) :
  MemoryCache.cache (userCache (invalidateStoryCache storyId userId s))
  = match userId with
    | Some u =>
        if decide (u = "") then MemoryCache.cache (userCache s)
        else base.delete (userCacheKey u (Some "stories"))
               (MemoryCache.cache (userCache s))
    | None => MemoryCache.cache (userCache s)
    end.
Proof.
  unfold invalidateStoryCache. destruct userId as [u|]; [|done].
  destruct (decide (u = "")); [done|].
  cbn [moduleLogs userCache with_userCache with_storyCache].
  by rewrite delete_cache.
Qed.

(** What a lookup in the user cache returns depends on the entry of its
    key only. *)
Lemma getCachedStoryList_entry {A} now userId filters (s s' : Caches A) v s1 :
  MemoryCache.cache (userCache s')
    !! userCacheKey userId (Some ("stories:" +:+ filters))
  = MemoryCache.cache (userCache s)
      !! userCacheKey userId (Some ("stories:" +:+ filters)) ->
  getCachedStoryList now userId filters s = Done v s1 ->
  ∃ s2, getCachedStoryList now userId filters s' = Done v s2.
Proof.
  unfold getCachedStoryList, within, withCache, MemoryCache.get. cbn zeta.
  intros ->.
  destruct (MemoryCache.cache (userCache s) !! _) as [item|]; [|done].
  destruct (now >? MemoryCache.expiresAt item)%Z; [done|].
  destruct (MemoryCache.value item); [|done].
  intros [= <- _]. by eexists.
Qed.

(** X22.  What the invalidations of the module reach.  After
    [invalidateUserCache(userId)] a call of [getCachedUser] for that user
    awaits its fetcher.  A list of stories that [getCachedStoryList]
    serves from the cache is still served, with the same content, after
    [invalidateUserCache] for its user and after [invalidateStoryCache]
    for any story and that user: its key ends in ['stories:'] and the
    filters, and the invalidations delete the keys of the user with the
    suffixes [''], ['stories'] and ['preferences'] only. *)
Theorem invalidation_leaves_story_lists {A} (s : Caches A) now userId filters
    v s1 :
  getCachedStoryList now userId filters s = Done v s1 ->
  (∃ s2, getCachedStoryList now userId filters (invalidateUserCache userId s)
         = Done v s2)
  ∧ (forall storyId,
       ∃ s2, getCachedStoryList now userId filters
               (invalidateStoryCache storyId (Some userId) s) = Done v s2)
  ∧ forall t, ∃ s2 resume,
      getCachedUser t userId (invalidateUserCache userId s) = Await s2 resume.
Proof.
  intros Hlist.
  assert (Hk := story_list_key userId filters).
  split_and!.
  - apply (getCachedStoryList_entry now userId filters s _ v s1); [|done].
    rewrite invalidateUserCache_cache.
    rewrite !lookup_delete_ne; [done|..]; intros H; symmetry in H; revert H;
      apply Hk; set_solver.
  - intros storyId.
    apply (getCachedStoryList_entry now userId filters s _ v s1); [|done].
    rewrite invalidateStoryCache_cache. destruct (decide (userId = "")); [done|].
    rewrite lookup_delete_ne; [done|]. intros H; symmetry in H; revert H.
    apply Hk; set_solver.
  - intros t. unfold getCachedUser, within. cbn zeta.
    pose proof (withCache_cases t (userCacheKey userId None) (Some 300%Z)
                  (userCache (invalidateUserCache userId s))) as H.
    rewrite invalidateUserCache_cache in H.
    rewrite lookup_delete_ne, lookup_delete_ne, lookup_delete_eq in H.
    + destruct H as (c1&resume&->). by eexists _, _.
    + rewrite !userCacheKey_unfold. intros H'.
      by apply (append_cancel_l "user:"), append_cancel_l, (append_cancel_l ":") in H'.
    + rewrite !userCacheKey_unfold. intros H'.
      by apply (append_cancel_l "user:"), append_cancel_l, (append_cancel_l ":") in H'.
Qed.

Lemma invalidation_leaves_story_lists_witness :
  let s :=
    with_userCache
      (MemoryCache.set 1000 (userCacheKey "7" (Some "stories:{}"))
         (Some "two stories") (Some 300%Z) (userCache moduleCaches))
      moduleCaches in
  match getCachedStoryList 1100 "7" "{}" s with
  | Done v _ =>
      v = Some "two stories"
      ∧ ∃ s2, getCachedStoryList 1100 "7" "{}" (invalidateUserCache "7" s)
              = Done v s2
  | Await _ _ => False
  end.
Proof.
  intros s.
  destruct (getCachedStoryList 1100 "7" "{}" s) as [v s1|] eqn:H;
    [|by vm_compute in H].
  split.
  - pose proof H as H'. vm_compute in H'. by injection H' as <- _.
  - exact (proj1 (invalidation_leaves_story_lists s 1100 "7" "{}" v s1 H)).
Defined.

(** Every entry of the response cache was stored by a call of [set] for
    its key, with a response that is not an error. *)
Lemma afterCalls_entries {A} (status : A -> option Z) calls k item :
  MemoryCache.cache (afterCalls status calls) !! k = Some item ->
  ∃ r t ttl,
    MemoryCache.value item = Some r
    ∧ MemoryCache.expiresAt item = (t + default 60 ttl * 1000)%Z
    ∧ CallSet t k r ttl ∈ calls
    ∧ forall st, status r = Some st -> (st < 400)%Z.
Proof.
  revert k item. induction calls as [|call calls IH] using rev_ind;
    intros k item Hk; [done|].
  unfold afterCalls in Hk. rewrite foldl_app in Hk. cbn [foldl] in Hk.
  fold (afterCalls status calls) in Hk.
  assert (Hold : MemoryCache.cache (afterCalls status calls) !! k = Some item ->
    ∃ r t ttl,
      MemoryCache.value item = Some r
      ∧ MemoryCache.expiresAt item = (t + default 60 ttl * 1000)%Z
      ∧ CallSet t k r ttl ∈ calls ++ [call]
      ∧ forall st, status r = Some st -> (st < 400)%Z).
  { intros (r&t&ttl&?&?&?&?)%IH. exists r, t, ttl. set_solver. }
  destruct call as [now key|now key response ttl]; cbn [responseCall] in Hk.
  - unfold responseGet in Hk. rewrite get_cache in Hk. apply Hold.
    destruct (MemoryCache.cache (afterCalls status calls) !! k) as [item'|];
      [|done].
    destruct (decide (k = key)); [|done].
    by destruct (now >? MemoryCache.expiresAt item')%Z.
  - assert (Hset :
      MemoryCache.cache
        (MemoryCache.set now key (Some response)
           (Some (default 60 ttl * 1000)%Z) (afterCalls status calls)) !! k
      = Some item ->
      (forall st, status response = Some st -> (st < 400)%Z) ->
      ∃ r t ttl0,
        MemoryCache.value item = Some r
        ∧ MemoryCache.expiresAt item = (t + default 60 ttl0 * 1000)%Z
        ∧ CallSet t k r ttl0 ∈ calls ++ [CallSet now key response ttl]
        ∧ forall st, status r = Some st -> (st < 400)%Z).
    { cbn. intros Hk' Hok. destruct (decide (k = key)) as [->|Hne].
      - rewrite lookup_insert_eq in Hk'. injection Hk' as <-.
        exists response, now, ttl. cbn. split_and!; [done|done|set_solver|done].
      - rewrite lookup_insert_ne in Hk' by done. by apply Hold. }
    unfold responseSet in Hk.
    destruct (status response) as [st|] eqn:Hst.
    + destruct (Z.eqb_spec st 0) as [->|Hne]; cbn [negb andb] in Hk.
      * apply (Hset Hk). intros st [= <-]. lia.
      * destruct (Z.geb_spec st 400); [by apply Hold|].
        apply (Hset Hk). intros st' [= <-]. lia.
    + apply (Hset Hk). by intros st.
Qed.

(** X23.  What the response cache returns.  The object that
    [createResponseCache()] returns stores no response whose [status] is
    400 or more.  After any sequence of calls of its [get] and [set], a
    response that [get] returns for a key was passed to an earlier [set]
    for that key, is not older than the time to live of that call in
    seconds (60 when left out), and has no [status] of 400 or more. *)
Theorem error_responses_are_never_cached {A} (status : A -> option Z) calls
    now key r :
  (responseGet now key (afterCalls status calls)).1 = Some r ->
  (∃ t ttl, CallSet t key r ttl ∈ calls
            ∧ (now <= t + default 60 ttl * 1000)%Z)
  ∧ forall st, status r = Some st -> (st < 400)%Z.
Proof.
  unfold responseGet. rewrite get_lookup. intros Hget.
  destruct (MemoryCache.cache (afterCalls status calls) !! key) as [item|] eqn:Hk;
    [|done].
  cbn in Hget. destruct (Z.gtb_spec now (MemoryCache.expiresAt item)); [done|].
  destruct (afterCalls_entries status calls key item Hk) as (r'&t&ttl&Hv&He&Hin&Hok).
  rewrite Hget in Hv. injection Hv as <-.
  split; [|done]. exists t, ttl. split; [done|lia].
Qed.

Lemma error_responses_are_never_cached_witness :
  let calls := [ CallSet 1000 "GET:/stories:" 200%Z None;
                 CallSet 1010 "GET:/users:" 500%Z None;
                 CallGet 1020 "GET:/users:" ] in
  (responseGet 2000 "GET:/stories:" (afterCalls Some calls)).1 = Some 200%Z
  ∧ forall st, Some 200%Z = Some st -> (st < 400)%Z.
Proof.
  intros calls.
  assert (H : (responseGet 2000 "GET:/stories:" (afterCalls Some calls)).1
              = Some 200%Z) by (vm_compute; reflexivity).
  split; [exact H|].
  exact (proj2 (error_responses_are_never_cached Some calls 2000
                  "GET:/stories:" 200%Z H)).
Defined.


